(** * koofr/goamz, package s3: multipart uploads and Signature Version 4

    A shallow embedding of [s3/multi.go] and [s3/sign_v4.go].

    - Go strings are byte strings: [string] of [ascii].
    - A Go [map[string]T] is an association list with at most one entry per
      key; the order of the list is the order in which one [range] over the
      map happens to visit it, so a statement quantified over all lists holds
      for every iteration order the runtime may choose.
    - Go's [int] and [int64] are [Z]: the code does no arithmetic on them.
    - [strings.ToLower] is the function of the Go library on ASCII text;
      on any other text it goes through the case tables of package unicode,
      which are a parameter ([UnicodeTables]) of everything that lowers a
      header name.
    - The network is a scripted server: the queue of answers it will give,
      in order, together with the log of what was sent.  A call that finds
      the queue empty has no answer yet ([None]). *)

From Stdlib Require Import ZArith List String Ascii Bool Lia Arith.
From Stdlib Require Import Permutation Sorted Orders Mergesort DecimalString.
Import ListNotations.

Local Open Scope string_scope.
Local Open Scope list_scope.
Local Open Scope Z_scope.

Set Implicit Arguments.

(** ** Go maps *)

Section GoMap.
Variable V : Type.

Definition gomap := list (string * V).

(** [v, ok := m[k]] *)
Fixpoint map_get (k : string) (m : gomap) : option V :=
    match m with
    | [] => None
    | (k', v) :: m' => if (k' =? k)%string then Some v else map_get k m'
    end.

(** [m[k] = v] *)
Fixpoint map_set (k : string) (v : V) (m : gomap) : gomap :=
    match m with
    | [] => [(k, v)]
    | (k', v') :: m' =>
        if (k' =? k)%string then (k, v) :: m' else (k', v') :: map_set k v m'
    end.

(** [delete(m, k)] *)
Fixpoint map_del (k : string) (m : gomap) : gomap :=
    match m with
    | [] => []
    | (k', v') :: m' =>
        if (k' =? k)%string then map_del k m' else (k', v') :: map_del k m'
    end.

Definition map_keys (m : gomap) : list string := List.map fst m.
End GoMap.

Arguments map_get {V} k m.
Arguments map_set {V} k v m.
Arguments map_del {V} k m.
Arguments map_keys {V} m.

(** [m[k]] on a [map[string][]string]: the zero value [nil] when absent. *)
Definition map_index (k : string) (m : gomap (list string)) : list string :=
  match map_get k m with Some v => v | None => [] end.

(** [m[k]] on a [map[string]string]: the zero value when absent. *)
Definition map_index_str (k : string) (m : gomap string) : string :=
  match map_get k m with Some v => v | None => "" end.

(** ** Package strings *)

Definition is_upper (c : ascii) : bool := (("A" <=? c) && (c <=? "Z"))%char.
Definition is_lower (c : ascii) : bool := (("a" <=? c) && (c <=? "z"))%char.
Definition is_digit (c : ascii) : bool := (("0" <=? c) && (c <=? "9"))%char.

Definition lower_byte (c : ascii) : ascii :=
  if is_upper c then ascii_of_nat (nat_of_ascii c + 32) else c.

Definition upper_byte (c : ascii) : ascii :=
  if is_lower c then ascii_of_nat (nat_of_ascii c - 32) else c.

Fixpoint map_bytes (f : ascii -> ascii) (s : string) : string :=
  match s with
  | EmptyString => EmptyString
  | String c s' => String (f c) (map_bytes f s')
  end.

(** [strings.ToLower].  A string of ASCII bytes (every byte below
    [utf8.RuneSelf], 128) gets its bytes [A]-[Z] lowered.  Any other string
    goes through [strings.Map(unicode.ToLower, s)], which decodes the UTF-8
    text, maps every rune by the case tables of package unicode and rewrites
    bytes that are not valid UTF-8; what that gives is a parameter, the
    tables are those of the Go library. *)
Class UnicodeTables : Type := { Map_unicode_ToLower : string -> string }.

Fixpoint isASCII (s : string) : bool :=
  match s with
  | EmptyString => true
  | String c s' => (c <? "128")%char && isASCII s'
  end.

Definition ToLower {U : UnicodeTables} (s : string) : string :=
  if isASCII s then map_bytes lower_byte s else Map_unicode_ToLower s.

Fixpoint trim_left_space (s : string) : string :=
  match s with
  | String " " s' => trim_left_space s'
  | _ => s
  end.

Fixpoint trim_right_space (s : string) : string :=
  match s with
  | EmptyString => EmptyString
  | String c s' =>
      match trim_right_space s' with
      | EmptyString => if (c =? " ")%char then EmptyString else String c EmptyString
      | r => String c r
      end
  end.

(** [strings.Trim(s, " ")] *)
Definition Trim_space (s : string) : string :=
  trim_right_space (trim_left_space s).

(** [strings.Join(a, sep)] *)
Definition Join (a : list string) (sep : string) : string := String.concat sep a.

(** [strings.Replace(s, old, new, -1)] for a non-empty [old]: the
    non-overlapping occurrences of [old], left to right.  [skip] counts the
    bytes of a match still to be passed over. *)
Fixpoint replace_from (old new : string) (skip : nat) (s : string) : string :=
  match s with
  | EmptyString => EmptyString
  | String c s' =>
      match skip with
      | S k => replace_from old new k s'
      | O =>
          if String.prefix old s
          then new ++ replace_from old new (String.length old - 1) s'
          else String c (replace_from old new 0 s')
      end
  end.

Definition Replace (s old new : string) : string := replace_from old new 0 s.

Fixpoint rev_string (s : string) : string :=
  match s with
  | EmptyString => EmptyString
  | String c s' => rev_string s' ++ String c EmptyString
  end.

(** [strings.HasSuffix(s, suffix)] *)
Definition HasSuffix (s suffix : string) : bool :=
  String.prefix (rev_string suffix) (rev_string s).

(** [strconv.FormatInt(n, 10)] *)
Definition FormatInt (n : Z) : string := NilZero.string_of_int (Z.to_int n).

(** ** Package sort: [sort.Strings]

    [sort.Strings] orders by Go's [<] on strings, the bytewise lexicographic
    order.  That order is total and equal strings are the same string, so
    the sorted slice is determined by its contents whatever the algorithm;
    Stdlib's merge sort computes it. *)

Module StringOrder <: TotalLeBool.
Definition t := string.
Definition leb := String.leb.
Theorem leb_total : forall a1 a2, leb a1 a2 = true \/ leb a2 a1 = true.
Proof. exact String.leb_total. Qed.
End StringOrder.

Module StringSort := Sort StringOrder.

Definition sort_Strings (a : list string) : list string := StringSort.sort a.

(** ** Package net/url: [url.QueryEscape] *)

Definition upperhex (n : N) : ascii :=
  match String.get (N.to_nat n) "0123456789ABCDEF" with
  | Some c => c
  | None => "0"%char
  end.

(** [shouldEscape(c, encodeQueryComponent)]: everything but the unreserved
    bytes of RFC 3986 is escaped. *)
Definition shouldEscape (c : ascii) : bool :=
  negb (is_lower c || is_upper c || is_digit c
        || (c =? "-")%char || (c =? "_")%char || (c =? ".")%char || (c =? "~")%char).

Definition pct (c : ascii) : string :=
  String "%" (String (upperhex (N.shiftr (N_of_ascii c) 4))
                     (String (upperhex (N.land (N_of_ascii c) 15)) EmptyString)).

Definition escape_byte (c : ascii) : string :=
  if (c =? " ")%char then "+"
  else if shouldEscape c then pct c
  else String c EmptyString.

Fixpoint QueryEscape (s : string) : string :=
  match s with
  | EmptyString => EmptyString
  | String c s' => escape_byte c ++ QueryEscape s'
  end.

(** ** Package net/textproto and net/http: header keys *)

(** [validHeaderFieldByte]: the token bytes of RFC 7230. *)
Definition validHeaderFieldByte (c : ascii) : bool :=
  is_lower c || is_upper c || is_digit c
  || existsb (Ascii.eqb c) (list_ascii_of_string "!#$%&'*+-.^_`|~").

Fixpoint forall_bytes (p : ascii -> bool) (s : string) : bool :=
  match s with
  | EmptyString => true
  | String c s' => p c && forall_bytes p s'
  end.

Fixpoint canonical_bytes (upper : bool) (s : string) : string :=
  match s with
  | EmptyString => EmptyString
  | String c s' =>
      let c' := if upper then upper_byte c else lower_byte c in
      String c' (canonical_bytes (c' =? "-")%char s')
  end.

(** [textproto.CanonicalMIMEHeaderKey]: the first letter and every letter
    after a hyphen in upper case, the rest in lower case; a key with a byte
    that is not a token byte is returned unchanged. *)
Definition CanonicalMIMEHeaderKey (s : string) : string :=
  if forall_bytes validHeaderFieldByte s then canonical_bytes true s else s.

(** [http.Header] and [url.Values] *)
Definition Header := gomap (list string).
Definition Values := gomap (list string).

(** [h.Set(key, value)] *)
Definition Header_Set (key value : string) (h : Header) : Header :=
  map_set (CanonicalMIMEHeaderKey key) [value] h.

(** [h.Get(key)]: the first value under the canonical key, or [""]. *)
Definition Header_Get (key : string) (h : Header) : string :=
  match map_index (CanonicalMIMEHeaderKey key) h with
  | [] => ""
  | v :: _ => v
  end.

(** [h.Del(key)] *)
Definition Header_Del (key : string) (h : Header) : Header :=
  map_del (CanonicalMIMEHeaderKey key) h.

(** * Go [error] values

    An [*s3.Error] decoded from an error response of the service, or any
    other error (transport, I/O, [errors.New]). *)
Inductive error : Type :=
| S3Error (StatusCode : Z) (Code : string) (Message : string)
| PlainError (msg : string).

(** [errors.New] *)
Definition errors_New (msg : string) : error := PlainError msg.

(** * s3/multi.go: the multipart upload handle *)

Module S3Multi.

(** ** Error classification *)

(** Modelled from the spec: [hasCode] lives in s3.go, which is not among the
    sources.  "Recognize a specific no-such-upload condition code
    distinctly": the error is a service error carrying exactly that code. *)
Definition hasCode (err : error) (code : string) : bool :=
  match err with
  | S3Error _ c _ => (c =? code)%string
  | PlainError _ => false
  end.

(** What a Go function hands back: its return values, or a panic. *)
Inductive go (A : Type) : Type :=
| Returns (a : A)
| Panics (msg : string).

Arguments Returns {A} a.
Arguments Panics {A} msg.

(** ** The retry-attempt primitive *)

(** Modelled from the spec: [aws.AttemptStrategy] and [aws.Attempt] live in
    package aws, which is not among the sources.  "Start an attempt
    sequence; advance; tell whether more attempts remain", over a "bounded
    attempt sequence" with an "attempt budget": a strategy grants [Budget]
    attempts, [Start] opens a sequence with the full budget, [Next] takes one
    attempt from it when one is left, and [HasNext] tells whether another
    [Next] would succeed. *)
Record AttemptStrategy : Type := { Budget : nat }.

Record Attempt : Type := { remaining : nat }.

Definition Start (s : AttemptStrategy) : Attempt := {| remaining := Budget s |}.

Definition Next (a : Attempt) : bool * Attempt :=
  match remaining a with
  | O => (false, a)
  | S n => (true, {| remaining := n |})
  end.

Definition HasNext (a : Attempt) : bool :=
  match remaining a with
  | O => false
  | S _ => true
  end.

(** ** Data *)

Record Bucket : Type := { Name : string }.

(** [type Multi struct]; [Bucket] is a pointer, nil in an entry freshly
    decoded from a listing. *)
Record Multi : Type := {
  Multi_Bucket : option Bucket;
  Key : string;
  UploadId : string;
  Initiated : option string
}.

Record listMultiResp : Type := {
  NextKeyMarker : string;
  NextUploadIdMarker : string;
  listMulti_IsTruncated : bool;
  Upload : list Multi;
  CommonPrefixes : list string
}.

Record Part : Type := {
  N : Z;
  ETag : string;
  Size : Z
}.

Record listPartsResp : Type := {
  NextPartNumberMarker : string;
  listParts_IsTruncated : bool;
  listParts_Part : list Part
}.

Record completePart : Type := {
  PartNumber : Z;
  completePart_ETag : string
}.

(** [completeUpload]: the root element CompleteMultipartUpload and its
    Part children. *)
Record completeUpload : Type := { Parts : list completePart }.

(** [partSlice.Less] and [completeParts.Less] *)
Definition partSlice_Less (x y : Part) : bool := N x <? N y.
Definition completeParts_Less (x y : completePart) : bool := PartNumber x <? PartNumber y.

(** Modelled from the spec: [request], [payload] and [getPayload] live in
    s3.go, which is not among the sources.  "Each multipart operation issues
    exactly one logical request per attempt with: method, bucket/key path,
    header mapping, query-parameter mapping, optional request body".  The
    payload is none, a byte slice wrapped by [getPayload], or the caller's
    reader with the hashes the caller computed. *)
Inductive payload_t : Type :=
| NoPayload
| DataPayload (data : string)
| ReaderPayload (md5b64 sha256hex : string).

Record request : Type := {
  method : string;
  bucket : string;
  path : string;
  headers : gomap (list string);
  params : gomap (list string);
  payload : payload_t
}.

(** ** The scripted server *)

(** The body of a successful response, as the XML decoder reads it into the
    value the caller passed; a body of another shape leaves that value zero. *)
Inductive body : Type :=
| BodyEmpty
| BodyInit (uploadId : string)
| BodyListMulti (r : listMultiResp)
| BodyListParts (r : listPartsResp).

Definition answer : Type := error + body.

Record World : Type := {
  pending : list answer;   (* the answers still to come, in order *)
  sent : list request      (* the requests issued so far, oldest first *)
}.

(** Modelled from the spec: [S3.query] lives in s3.go, which is not among
    the sources.  One call sends the request and hands back either an error
    or the response body decoded into the caller's value; here it takes the
    next scripted answer. *)
Definition query (ans : answer) : option error * body :=
  match ans with
  | inl e => (Some e, BodyEmpty)
  | inr b => (None, b)
  end.

Definition decode_listMultiResp (b : body) : listMultiResp :=
  match b with
  | BodyListMulti r => r
  | _ => {| NextKeyMarker := ""; NextUploadIdMarker := "";
            listMulti_IsTruncated := false; Upload := []; CommonPrefixes := [] |}
  end.

Definition decode_listPartsResp (b : body) : listPartsResp :=
  match b with
  | BodyListParts r => r
  | _ => {| NextPartNumberMarker := ""; listParts_IsTruncated := false;
            listParts_Part := [] |}
  end.

(** Into [struct { UploadId string }]: a body without the element leaves
    the field as it was. *)
Definition decode_UploadId (old : string) (b : body) : string :=
  match b with
  | BodyInit u => u
  | _ => old
  end.

(** [encoding/xml]'s EscapeText *)
Definition xml_escape_byte (c : ascii) : string :=
  if (c =? "034")%char then "&#34;"
  else if (c =? "'")%char then "&#39;"
  else if (c =? "&")%char then "&amp;"
  else if (c =? "<")%char then "&lt;"
  else if (c =? ">")%char then "&gt;"
  else if (c =? "009")%char then "&#x9;"
  else if (c =? "010")%char then "&#xA;"
  else if (c =? "013")%char then "&#xD;"
  else String c EmptyString.

Fixpoint xml_EscapeText (s : string) : string :=
  match s with
  | EmptyString => EmptyString
  | String c s' => xml_escape_byte c ++ xml_EscapeText s'
  end.

Definition marshal_completePart (p : completePart) : string :=
  ("<Part><PartNumber>" ++ FormatInt (PartNumber p) ++ "</PartNumber><ETag>"
   ++ xml_EscapeText (completePart_ETag p) ++ "</ETag></Part>")%string.

(** [xml.Marshal(&c)] for a [completeUpload]: the Part elements in slice
    order.  Marshalling this struct has no failing case. *)
Definition xml_Marshal (c : completeUpload) : string * option error :=
  (("<CompleteMultipartUpload>"
    ++ String.concat "" (List.map marshal_completePart (Parts c))
    ++ "</CompleteMultipartUpload>")%string, None).

(** ** Operations *)

Section Operations.

(** The package variable [attempts]. *)
Variable attempts : AttemptStrategy.

(** The error classification collaborator: its verdict on an error. *)
Variable retryable : error -> bool.

(** Modelled from the spec: [shouldRetry] lives in s3.go, which is not among
    the sources.  "Given an error from a call attempt, decide retryable vs.
    terminal": an error is retried on the collaborator's verdict, the
    absence of an error never. *)
Definition shouldRetry (err : option error) : bool :=
  match err with
  | None => false
  | Some e => retryable e
  end.

(** [sort.Sort]: Go promises an ascending arrangement under [Less] and no
    stability, so the function is taken with that contract and nothing
    more. *)
Variable sort_Sort : forall A : Type, (A -> A -> bool) -> list A -> list A.

(** The package variables [listMultiMax] and [listPartsMax]. *)
Variable listMultiMax : Z.
Variable listPartsMax : Z.

Definition nil_dereference : string := "invalid memory address or nil pointer dereference".

(** *** ListMulti *)

Fixpoint ListMulti_loop (b : Bucket) (script : list answer) (log : list request)
    (attempt : Attempt) (params : gomap (list string))
    (multis : list Multi) (prefixes : list string)
    {struct script}
  : option (go (list Multi * list string * option error) * World) :=
  match Next attempt with
  | (false, _) => Some (Panics "unreachable", {| pending := script; sent := log |})
  | (true, attempt) =>
      let req := {| method := "GET"; bucket := Name b; path := ""; headers := [];
                    params := params; payload := NoPayload |} in
      match script with
      | [] => None
      | ans :: script' =>
          let log := log ++ [req] in
          let (err, resp_body) := query ans in
          let resp := decode_listMultiResp resp_body in
          if shouldRetry err && HasNext attempt then
            ListMulti_loop b script' log attempt params multis prefixes
          else
            match err with
            | Some e => Some (Returns ([], [], Some e), {| pending := script'; sent := log |})
            | None =>
                let multis :=
                  multis ++ List.map (fun u => {| Multi_Bucket := Some b; Key := Key u;
                                                  UploadId := UploadId u;
                                                  Initiated := Initiated u |})
                                     (Upload resp) in
                let prefixes := prefixes ++ CommonPrefixes resp in
                if negb (listMulti_IsTruncated resp) then
                  Some (Returns (multis, prefixes, None), {| pending := script'; sent := log |})
                else
                  let params := map_set "key-marker" [NextKeyMarker resp] params in
                  let params := map_set "upload-id-marker" [NextUploadIdMarker resp] params in
                  ListMulti_loop b script' log (Start attempts) params multis prefixes
            end
      end
  end.

Definition ListMulti (b : Bucket) (prefix delim : string) (w : World)
  : option (go (list Multi * list string * option error) * World) :=
  let params := [("uploads", []); ("max-uploads", [FormatInt listMultiMax]);
                 ("prefix", [prefix]); ("delimiter", [delim])] in
  ListMulti_loop b (pending w) (sent w) (Start attempts) params [] [].

(** *** InitMulti *)

Fixpoint InitMulti_loop (req : request) (script : list answer) (log : list request)
    (attempt : Attempt) (err : option error) (resp_UploadId : string)
    {struct script}
  : option (option error * string * World) :=
  match Next attempt with
  | (false, _) => Some (err, resp_UploadId, {| pending := script; sent := log |})
  | (true, attempt) =>
      match script with
      | [] => None
      | ans :: script' =>
          let log := log ++ [req] in
          let (err, resp_body) := query ans in
          let resp_UploadId := decode_UploadId resp_UploadId resp_body in
          if negb (shouldRetry err) then
            Some (err, resp_UploadId, {| pending := script'; sent := log |})
          else InitMulti_loop req script' log attempt err resp_UploadId
      end
  end.

Definition InitMulti (b : Bucket) (key contType perm : string) (w : World)
  : option (go (option Multi * option error) * World) :=
  let headers := [("Content-Type", [contType]); ("Content-Length", ["0"]);
                  ("x-amz-acl", [perm])] in
  let params := [("uploads", @nil string)] in
  let req := {| method := "POST"; bucket := Name b; path := key; headers := headers;
                params := params; payload := NoPayload |} in
  match InitMulti_loop req (pending w) (sent w) (Start attempts) None "" with
  | None => None
  | Some (Some e, _, w') => Some (Returns (None, Some e), w')
  | Some (None, uploadId, w') =>
      Some (Returns (Some {| Multi_Bucket := Some b; Key := key; UploadId := uploadId;
                             Initiated := None |}, None), w')
  end.

(** *** Multi: discover or create *)

Definition Multi_ (b : Bucket) (key contType perm : string) (w : World)
  : option (go (option Multi * option error) * World) :=
  match ListMulti b key "" w with
  | None => None
  | Some (Panics msg, w') => Some (Panics msg, w')
  | Some (Returns (multis, _, err), w') =>
      if match err with Some e => negb (hasCode e "NoSuchUpload") | None => false end then
        Some (Returns (None, err), w')
      else
        match List.find (fun m => (Key m =? key)%string) multis with
        | Some m => Some (Returns (Some m, None), w')
        | None => InitMulti b key contType perm w'
        end
  end.

(** *** PutPartHash *)

(** What the surroundings answer during one attempt of a part upload, in
    the order the code asks: the payload reader's [Seek], the client's
    [prepare], the client's [run].  An answer the attempt never asks for is
    not looked at. *)
Record http_response : Type := { resp_Header : Header }.

Record putAnswer : Type := {
  seek_err : option error;
  prepare_err : option error;
  run_res : error + http_response
}.

Inductive event : Type :=
| EvSeek (offset whence : Z)
| EvPrepare (req : request)
| EvRun (req : request)
| EvClose.

Record PutWorld : Type := {
  put_pending : list putAnswer;
  put_trace : list event
}.

(** [Part{}] *)
Definition Part_zero : Part := {| N := 0; ETag := ""; Size := 0 |}.

Fixpoint PutPartHash_loop (m : Multi) (n partSize : Z) (md5b64 sha256hex : string)
    (headers params : gomap (list string))
    (script : list putAnswer) (trace : list event) (attempt : Attempt)
    {struct script}
  : option (go (Part * option error) * PutWorld) :=
  match Next attempt with
  | (false, _) => Some (Panics "unreachable", {| put_pending := script; put_trace := trace |})
  | (true, attempt) =>
      match script with
      | [] => None
      | ans :: script' =>
          let trace := trace ++ [EvSeek 0 0] in
          match seek_err ans with
          | Some err =>
              Some (Returns (Part_zero, Some err), {| put_pending := script'; put_trace := trace |})
          | None =>
              match Multi_Bucket m with
              | None => Some (Panics nil_dereference, {| put_pending := script'; put_trace := trace |})
              | Some b =>
                  let req := {| method := "PUT"; bucket := Name b; path := Key m;
                                headers := headers; params := params;
                                payload := ReaderPayload md5b64 sha256hex |} in
                  let trace := trace ++ [EvPrepare req] in
                  match prepare_err ans with
                  | Some err =>
                      Some (Returns (Part_zero, Some err),
                            {| put_pending := script'; put_trace := trace |})
                  | None =>
                      let trace := trace ++ [EvRun req] in
                      let err := match run_res ans with inl e => Some e | inr _ => None end in
                      if shouldRetry err && HasNext attempt then
                        PutPartHash_loop m n partSize md5b64 sha256hex headers params
                                         script' trace attempt
                      else
                        match run_res ans with
                        | inl e =>
                            Some (Returns (Part_zero, Some e),
                                  {| put_pending := script'; put_trace := trace |})
                        | inr hresp =>
                            let trace := trace ++ [EvClose] in
                            let etag := Header_Get "ETag" (resp_Header hresp) in
                            if (etag =? "")%string then
                              Some (Returns (Part_zero,
                                             Some (errors_New "part upload succeeded with no ETag")),
                                    {| put_pending := script'; put_trace := trace |})
                            else
                              Some (Returns ({| N := n; ETag := etag; Size := partSize |}, None),
                                    {| put_pending := script'; put_trace := trace |})
                        end
                  end
              end
          end
      end
  end.

Definition PutPartHash (m : Multi) (n partSize : Z) (md5b64 sha256hex : string) (w : PutWorld)
  : option (go (Part * option error) * PutWorld) :=
  let headers := [("Content-Length", [FormatInt partSize]); ("Content-MD5", [md5b64])] in
  let params := [("uploadId", [UploadId m]); ("partNumber", [FormatInt n])] in
  PutPartHash_loop m n partSize md5b64 sha256hex headers params
                   (put_pending w) (put_trace w) (Start attempts).

(** *** ListParts *)

Fixpoint ListParts_loop (m : Multi) (script : list answer) (log : list request)
    (attempt : Attempt) (params : gomap (list string)) (parts : list Part)
    {struct script}
  : option (go (list Part * option error) * World) :=
  match Next attempt with
  | (false, _) => Some (Panics "unreachable", {| pending := script; sent := log |})
  | (true, attempt) =>
      match Multi_Bucket m with
      | None => Some (Panics nil_dereference, {| pending := script; sent := log |})
      | Some b =>
          let req := {| method := "GET"; bucket := Name b; path := Key m; headers := [];
                        params := params; payload := NoPayload |} in
          match script with
          | [] => None
          | ans :: script' =>
              let log := log ++ [req] in
              let (err, resp_body) := query ans in
              let resp := decode_listPartsResp resp_body in
              if shouldRetry err && HasNext attempt then
                ListParts_loop m script' log attempt params parts
              else
                match err with
                | Some e => Some (Returns ([], Some e), {| pending := script'; sent := log |})
                | None =>
                    let parts := parts ++ listParts_Part resp in
                    if negb (listParts_IsTruncated resp) then
                      Some (Returns (sort_Sort partSlice_Less parts, None),
                            {| pending := script'; sent := log |})
                    else
                      let params :=
                        map_set "part-number-marker" [NextPartNumberMarker resp] params in
                      ListParts_loop m script' log (Start attempts) params parts
                end
          end
      end
  end.

Definition ListParts (m : Multi) (w : World)
  : option (go (list Part * option error) * World) :=
  let params := [("uploadId", [UploadId m]); ("max-parts", [FormatInt listPartsMax])] in
  ListParts_loop m (pending w) (sent w) (Start attempts) params [].

(** *** Complete *)

(** Lines 276-280: the manifest built from the caller's parts, then sorted. *)
Definition Complete_manifest (parts : list Part) : completeUpload :=
  let c_Parts :=
    List.map (fun p => {| PartNumber := N p; completePart_ETag := ETag p |}) parts in
  {| Parts := sort_Sort completeParts_Less c_Parts |}.

Fixpoint Complete_loop (m : Multi) (headers params : gomap (list string)) (data : string)
    (script : list answer) (log : list request) (attempt : Attempt)
    {struct script}
  : option (go (option error) * World) :=
  match Next attempt with
  | (false, _) => Some (Panics "unreachable", {| pending := script; sent := log |})
  | (true, attempt) =>
      match Multi_Bucket m with
      | None => Some (Panics nil_dereference, {| pending := script; sent := log |})
      | Some b =>
          let req := {| method := "POST"; bucket := Name b; path := Key m;
                        headers := headers; params := params;
                        payload := DataPayload data |} in
          match script with
          | [] => None
          | ans :: script' =>
              let log := log ++ [req] in
              let err := fst (query ans) in
              if shouldRetry err && HasNext attempt then
                Complete_loop m headers params data script' log attempt
              else Some (Returns err, {| pending := script'; sent := log |})
          end
      end
  end.

Definition Complete (m : Multi) (parts : list Part) (w : World)
  : option (go (option error) * World) :=
  let params := [("uploadId", [UploadId m])] in
  let c := Complete_manifest parts in
  match xml_Marshal c with
  | (_, Some err) => Some (Returns (Some err), w)
  | (data, None) =>
      let headers := [("Content-Length", [FormatInt (Z.of_nat (String.length data))])] in
      Complete_loop m headers params data (pending w) (sent w) (Start attempts)
  end.

(** *** Abort *)

Fixpoint Abort_loop (m : Multi) (params : gomap (list string))
    (script : list answer) (log : list request) (attempt : Attempt)
    {struct script}
  : option (go (option error) * World) :=
  match Next attempt with
  | (false, _) => Some (Panics "unreachable", {| pending := script; sent := log |})
  | (true, attempt) =>
      match Multi_Bucket m with
      | None => Some (Panics nil_dereference, {| pending := script; sent := log |})
      | Some b =>
          let req := {| method := "DELETE"; bucket := Name b; path := Key m;
                        headers := []; params := params; payload := NoPayload |} in
          match script with
          | [] => None
          | ans :: script' =>
              let log := log ++ [req] in
              let err := fst (query ans) in
              if shouldRetry err && HasNext attempt then
                Abort_loop m params script' log attempt
              else Some (Returns err, {| pending := script'; sent := log |})
          end
      end
  end.

Definition Abort (m : Multi) (w : World) : option (go (option error) * World) :=
  Abort_loop m [("uploadId", [UploadId m])] (pending w) (sent w) (Start attempts).

End Operations.

End S3Multi.

(** * s3/sign_v4.go: Signature Version 4 *)

Module SignV4.

(** The line feed of the format strings. *)
Definition LF : string := String "010" EmptyString.

Definition ISO8601BasicFormat : string := "20060102T150405Z".
Definition ISO8601BasicFormatShort : string := "20060102".

(** [http.TimeFormat] *)
Definition http_TimeFormat : string := "Mon, 02 Jan 2006 15:04:05 GMT".

(** [aws.Auth] and [aws.Region], as far as the signer reads them. *)
Record Auth : Type := { AccessKey : string; SecretKey : string }.
Record Region : Type := { Region_Name : string }.

Record V4Signer : Type := {
  auth : Auth;
  serviceName : string;
  region : Region
}.

(** [url.URL] and [http.Request], as far as the signer reads them. *)
Record URL : Type := { Path : string; RawQuery : string }.

Record Request : Type := {
  Method : string;
  Host : string;
  req_Header : Header;
  Form : Values;
  req_URL : URL
}.

Definition with_Header (h : Header) (req : Request) : Request :=
  {| Method := Method req; Host := Host req; req_Header := h; Form := Form req;
     req_URL := req_URL req |}.

Definition with_Form (f : Values) (req : Request) : Request :=
  {| Method := Method req; Host := Host req; req_Header := req_Header req; Form := f;
     req_URL := req_URL req |}.

Definition with_RawQuery (q : string) (req : Request) : Request :=
  {| Method := Method req; Host := Host req; req_Header := req_Header req; Form := Form req;
     req_URL := {| Path := Path (req_URL req); RawQuery := q |} |}.

(** ** The canonical request builder *)

(** [canonicalQueryString], from the mapping that [u.Query()] returns.
    [keyValues] is keyed by the escaped name; [keys] collects one escaped
    name per entry visited. *)
Definition canonicalQueryString_step (acc : gomap string * list string)
    (entry : string * list string) : gomap string * list string :=
  let (keyValues, keys) := acc in
  let (k, vs) := entry in
  let k := QueryEscape k in
  let a := List.map (fun v => (k ++ "=" ++ QueryEscape v)%string) vs in
  (map_set k (Join a "&") keyValues, keys ++ [k]).

Definition canonicalQueryString_of (query_map : Values) : string :=
  let (keyValues, keys) := fold_left canonicalQueryString_step query_map ([], []) in
  let keys := sort_Strings keys in
  let query := List.map (fun key => map_index_str key keyValues) keys in
  let query_str := Join query "&" in
  Replace query_str "+" "%20".

Section Headers.

Context {U : UnicodeTables}.

(** [signedHeaders]: [a] holds one lowercased name per key of [h]. *)
Definition signedHeaderNames (h : Header) : list string :=
  sort_Strings (List.map ToLower (map_keys h)).

Definition signedHeaders (h : Header) : string :=
  Join (signedHeaderNames h) ";".

(** [canonicalHeaders].  [lowerCase[strings.ToLower(k)] = v] stores the
    slice [v], which shares its backing array with [h[k]]: the model keeps,
    per lowercased name, the key [k] whose slice it is, and reads and writes
    that slice through [h].  The second loop trims and sorts the slice in
    place, so the header map itself changes. *)
Definition lowerCase_of (h : Header) : gomap string :=
  fold_left (fun lowerCase kv => map_set (ToLower (fst kv)) (fst kv) lowerCase) h [].

Definition canonicalHeaders_step (lowerCase : gomap string)
    (acc : list (string * string) * Header) (k : string)
  : list (string * string) * Header :=
  let (a, h) := acc in
  let k0 := map_index_str k lowerCase in
  let v := sort_Strings (List.map Trim_space (map_index k0 h)) in
  (a ++ [(ToLower k, Join v ",")], map_set k0 v h).

(** The (name, value) pairs of the lines written into [a], and the header
    map after the loop. *)
Definition canonicalHeaders_entries (h : Header) : list (string * string) * Header :=
  let lowerCase := lowerCase_of h in
  let keys := sort_Strings (map_keys lowerCase) in
  fold_left (canonicalHeaders_step lowerCase) keys ([], h).

Definition header_line (e : string * string) : string :=
  (fst e ++ ":" ++ snd e)%string.

(** [a] has [len(h)] slots; the slots the loop does not reach stay empty. *)
Definition canonicalHeaders (h : Header) : string * Header :=
  let (entries, h') := canonicalHeaders_entries h in
  let a := List.map header_line entries
           ++ List.repeat "" (List.length h - List.length entries) in
  (Join a LF, h').

End Headers.

Section Signer.

Context {U : UnicodeTables}.

(** Package time, and the clock. *)
Variable Time : Type.
Variable time_Parse : string -> string -> option Time.
Variable time_Format : Time -> string -> string.

(** Packages crypto/sha256 and crypto/hmac on byte strings, and the
    lower-case hexadecimal rendering of [fmt]'s [%x]. *)
Variable sha256_Sum : string -> string.
Variable hmac_sha256 : string -> string -> string.
Variable hex : string -> string.

(** Packages net/url and path: [(&url.URL{Path: p}).String()],
    [path.Clean], [u.Query()] and [url.Values.Encode]. *)
Variable url_String : string -> string.
Variable path_Clean : string -> string.
Variable url_Query : URL -> Values.
Variable Values_Encode : Values -> string.

(** hash.go *)
Definition SHA256Hex (input : string) : string := hex (sha256_Sum input).
Definition HMAC (key data : string) : string := hmac_sha256 key data.
Definition EmptyStringSHA256Hex : string := SHA256Hex "".

Definition canonicalURI (u : URL) : string :=
  let canonicalPath := url_String (Path u) in
  let slash := HasSuffix canonicalPath "/" in
  let canonicalPath := path_Clean canonicalPath in
  let canonicalPath :=
    if (canonicalPath =? "")%string || (canonicalPath =? ".")%string
    then "/" else canonicalPath in
  if negb (canonicalPath =? "/")%string && slash
  then (canonicalPath ++ "/")%string else canonicalPath.

Definition canonicalQueryString (u : URL) : string :=
  canonicalQueryString_of (url_Query u).

(** [canonicalRequest]: the text, and the request whose header slices
    [canonicalHeaders] has trimmed and sorted. *)
Definition canonicalRequest (req : Request) (payloadHash : string)
  : string * option error * Request :=
  let (ch, h') := canonicalHeaders (req_Header req) in
  let req' := with_Header h' req in
  ((Method req ++ LF
    ++ canonicalURI (req_URL req) ++ LF
    ++ canonicalQueryString (req_URL req) ++ LF
    ++ ch ++ LF ++ LF
    ++ signedHeaders h' ++ LF
    ++ payloadHash)%string, None, req').

(** [requestTime]; [now] is what [time.Now().UTC()] reads. *)
Definition requestTime (now : Time) (req : Request) : Time * Request :=
  let date := Header_Get "x-amz-date" (req_Header req) in
  match time_Parse ISO8601BasicFormat date with
  | Some t => (t, req)
  | None =>
      match time_Parse http_TimeFormat date with
      | Some t =>
          (t, with_Header (Header_Set "x-amz-date" (time_Format t ISO8601BasicFormat)
                                      (req_Header req)) req)
      | None =>
          let date := Header_Get "date" (req_Header req) in
          match time_Parse http_TimeFormat date with
          | Some t => (t, req)
          | None =>
              let t := now in
              (t, with_Header (Header_Set "x-amz-date" (time_Format t ISO8601BasicFormat)
                                          (req_Header req)) req)
          end
      end
  end.

Definition credentialScope (s : V4Signer) (t : Time) : string :=
  (time_Format t ISO8601BasicFormatShort ++ "/" ++ Region_Name (region s) ++ "/"
   ++ serviceName s ++ "/aws4_request")%string.

Definition stringToSign (s : V4Signer) (t : Time) (creq : string) : string :=
  ("AWS4-HMAC-SHA256" ++ LF
   ++ time_Format t ISO8601BasicFormat ++ LF
   ++ credentialScope s t ++ LF
   ++ SHA256Hex creq)%string.

Definition derivedKey (s : V4Signer) (t : Time) : string :=
  let h := HMAC ("AWS4" ++ SecretKey (auth s))%string (time_Format t ISO8601BasicFormatShort) in
  let h := HMAC h (Region_Name (region s)) in
  let h := HMAC h (serviceName s) in
  let h := HMAC h "aws4_request" in
  h.

Definition signature (s : V4Signer) (t : Time) (sts : string) : string :=
  let h := HMAC (derivedKey s t) sts in
  hex h.

Definition authorization (s : V4Signer) (header : Header) (t : Time) (sig : string) : string :=
  ("AWS4-HMAC-SHA256 "
   ++ "Credential=" ++ AccessKey (auth s) ++ "/" ++ credentialScope s t ++ ", "
   ++ "SignedHeaders=" ++ signedHeaders header ++ ", "
   ++ "Signature=" ++ sig)%string.

(** [_, ok := req.Form["X-Amz-Expires"]] *)
Definition presigning (req : Request) : bool :=
  match map_get "X-Amz-Expires" (Form req) with
  | Some _ => true
  | None => false
  end.

(** [Sign], lines 53-73: the payload hash, the request time and the
    request as they stand when the canonical request is built. *)
Definition Sign_prepare (s : V4Signer) (now : Time) (req : Request) (payloadHash : string)
  : string * Time * Request :=
  let payloadHash :=
    if (payloadHash =? "")%string then EmptyStringSHA256Hex else payloadHash in
  let req := with_Header (Header_Set "host" (Host req) (req_Header req)) req in
  let (t, req) := requestTime now req in
  if presigning req then
    let payloadHash := "UNSIGNED-PAYLOAD" in
    let req := with_Header (Header_Del "x-amz-date" (req_Header req)) req in
    let req := with_Form (map_set "X-Amz-SignedHeaders"
                                  [signedHeaders (req_Header req)] (Form req)) req in
    let req := with_Form (map_set "X-Amz-Algorithm" ["AWS4-HMAC-SHA256"] (Form req)) req in
    let req := with_Form (map_set "X-Amz-Credential"
                                  [(AccessKey (auth s) ++ "/" ++ credentialScope s t)%string]
                                  (Form req)) req in
    let req := with_Form (map_set "X-Amz-Date" [time_Format t ISO8601BasicFormat]
                                  (Form req)) req in
    let req := with_RawQuery (Values_Encode (Form req)) req in
    (payloadHash, t, req)
  else
    (payloadHash, t,
     with_Header (Header_Set "x-amz-content-sha256" payloadHash (req_Header req)) req).

(** [Sign]: the request as [Sign] leaves it, and the error it returns. *)
Definition Sign (s : V4Signer) (now : Time) (req : Request) (payloadHash : string)
  : Request * option error :=
  let '(payloadHash, t, req) := Sign_prepare s now req payloadHash in
  match canonicalRequest req payloadHash with
  | (_, Some err, req) => (req, Some err)
  | (creq, None, req) =>
      let sts := stringToSign s t creq in
      let sig := signature s t sts in
      let authz := authorization s (req_Header req) t sig in
      if presigning req then
        (with_Form (map_set "X-Amz-Signature" [sig] (Form req)) req, None)
      else
        (with_Header (Header_Set "Authorization" authz (req_Header req)) req, None)
  end.

End Signer.

End SignV4.

(** * Vocabulary of the statements *)

Import S3Multi.
Import SignV4.

(** ** A sorting function that honours [sort.Sort]'s contract *)

Fixpoint insert_by (A : Type) (less : A -> A -> bool) (x : A) (l : list A) : list A :=
  match l with
  | [] => [x]
  | y :: l' => if less y x then y :: insert_by less x l' else x :: l
  end.

Definition insertion_sort (A : Type) (less : A -> A -> bool) (l : list A) : list A :=
  fold_right (insert_by less) [] l.

(** ** Orderings *)

Definition ascending_parts : list Part -> Prop :=
  StronglySorted (fun x y => N x <= N y).

Definition ascending_manifest : list completePart -> Prop :=
  StronglySorted (fun x y => PartNumber x <= PartNumber y).

(** ** Scripts of the server *)

Section Scripts.

Variable attempts : AttemptStrategy.
Variable retryable : error -> bool.

(** An answer that fails in a way the classification calls retryable. *)
Definition retry_fail (ans : answer) : bool :=
  match ans with
  | inl e => retryable e
  | inr _ => false
  end.

(** An attempt of a part upload that reaches the transport and fails there
    in a retryable way. *)
Definition put_retry_fail (ans : putAnswer) : bool :=
  match seek_err ans, prepare_err ans, run_res ans with
  | None, None, inl e => retryable e
  | _, _, _ => false
  end.

(** The fetch of one page: its failed tries are all retryable and fewer
    than one full budget of attempts. *)
Definition parts_page_ok (seg : list answer * listPartsResp) : Prop :=
  forallb retry_fail (fst seg) = true
  /\ (List.length (fst seg) < Budget attempts)%nat.

Definition multi_page_ok (seg : list answer * listMultiResp) : Prop :=
  forallb retry_fail (fst seg) = true
  /\ (List.length (fst seg) < Budget attempts)%nat.

End Scripts.

(** The requests of the loops. *)
Definition listParts_request (b : Bucket) (m : Multi) (params : gomap (list string)) : request :=
  {| method := "GET"; bucket := Name b; path := Key m; headers := [];
     params := params; payload := NoPayload |}.

Definition listMulti_request (b : Bucket) (params : gomap (list string)) : request :=
  {| method := "GET"; bucket := Name b; path := ""; headers := [];
     params := params; payload := NoPayload |}.

Definition put_loop_request (b : Bucket) (m : Multi) (md5b64 sha256hex : string)
    (headers params : gomap (list string)) : request :=
  {| method := "PUT"; bucket := Name b; path := Key m; headers := headers;
     params := params; payload := ReaderPayload md5b64 sha256hex |}.


(** The fetch of one page of parts: the failed tries, then the page. *)
Definition parts_page_script (seg : list answer * listPartsResp) : list answer :=
  fst seg ++ [inr (BodyListParts (snd seg))].

Definition multi_page_script (seg : list answer * listMultiResp) : list answer :=
  fst seg ++ [inr (BodyListMulti (snd seg))].

(** The uploads of a listing page as [ListMulti] hands them out. *)
Definition adopt (b : Bucket) (u : Multi) : Multi :=
  {| Multi_Bucket := Some b; Key := Key u; UploadId := UploadId u; Initiated := Initiated u |}.

(** The events of a part upload attempt that reached the transport. *)
Definition put_attempt_events (req : request) : list event :=
  [EvSeek 0 0; EvPrepare req; EvRun req].

(** The request of every attempt of [PutPartHash]. *)
Definition put_request (b : Bucket) (key uploadId : string) (n partSize : Z)
    (md5b64 sha256hex : string) : request :=
  {| method := "PUT"; bucket := Name b; path := key;
     headers := [("Content-Length", [FormatInt partSize]); ("Content-MD5", [md5b64])];
     params := [("uploadId", [uploadId]); ("partNumber", [FormatInt n])];
     payload := ReaderPayload md5b64 sha256hex |}.

(** A trace in which the transport is only ever reached through a rewind:
    [prepare] comes directly after a [Seek(0, 0)], and [run] directly after
    that [prepare]. *)
Inductive phase : Type := Fresh | Sought | Prepared.

Fixpoint rewinds_before_sending (ph : phase) (t : list event) : bool :=
  match t with
  | [] => true
  | e :: t' =>
      match ph, e with
      | Fresh, EvSeek offset whence =>
          (offset =? 0) && (whence =? 0) && rewinds_before_sending Sought t'
      | Fresh, EvClose => rewinds_before_sending Fresh t'
      | Sought, EvPrepare _ => rewinds_before_sending Prepared t'
      | Prepared, EvRun _ => rewinds_before_sending Fresh t'
      | _, _ => false
      end
  end.

Definition count_seeks (t : list event) : nat :=
  List.length (List.filter (fun e => match e with EvSeek _ _ => true | _ => false end) t).

(** ** Percent-encoding with [%20] for the space *)

Definition escape_byte_pct20 (c : ascii) : string :=
  if (c =? " ")%char then "%20"
  else if shouldEscape c then pct c
  else String c EmptyString.

Fixpoint escape_pct20 (s : string) : string :=
  match s with
  | EmptyString => EmptyString
  | String c s' => (escape_byte_pct20 c ++ escape_pct20 s')%string
  end.

(** The canonical query string as the comment in the source describes it:
    names and values percent-encoded with [%20] for the space, the groups
    of the names in the order of [canonicalQueryString], and no rewriting
    pass over the joined text. *)
Definition canonicalQueryString_pct20_step (acc : gomap string * list string)
    (entry : string * list string) : gomap string * list string :=
  let (keyValues, keys) := acc in
  let (k, vs) := entry in
  let a := List.map (fun v => (escape_pct20 k ++ "=" ++ escape_pct20 v)%string) vs in
  (map_set (QueryEscape k) (Join a "&") keyValues, keys ++ [QueryEscape k]).

Definition canonicalQueryString_pct20 (query_map : Values) : string :=
  let (keyValues, keys) := fold_left canonicalQueryString_pct20_step query_map ([], []) in
  Join (List.map (fun key => map_index_str key keyValues) (sort_Strings keys)) "&".

Definition has_byte (c : ascii) (s : string) : bool :=
  existsb (Ascii.eqb c) (list_ascii_of_string s).

(** Rewriting every [+] into [%20], byte by byte. *)
Fixpoint replace_plus (s : string) : string :=
  match s with
  | EmptyString => EmptyString
  | String c s' =>
      if (c =? "+")%char then ("%20" ++ replace_plus s')%string
      else String c (replace_plus s')
  end.

Definition map_values (f : string -> string) (m : gomap string) : gomap string :=
  List.map (fun kv => (fst kv, f (snd kv))) m.

(** ** The scenarios of the test suite *)

Definition sample_bucket : Bucket := {| Name := "sample" |}.

Definition sample_multi : Multi :=
  {| Multi_Bucket := Some sample_bucket; Key := "multi"; UploadId := "JNbR";
     Initiated := None |}.

Definition test_attempts : AttemptStrategy := {| Budget := 5 |}.

Definition NoSuchUpload : error :=
  S3Error 404 "NoSuchUpload" "The specified multipart upload does not exist.".

Definition InternalError : error :=
  S3Error 500 "InternalError" "We encountered an internal error. Please try again.".

(** A classification that retries the internal error and the missing
    upload, and nothing else. *)
Definition test_retryable (e : error) : bool :=
  hasCode e "InternalError" || hasCode e "NoSuchUpload".

Definition test_parts : list Part :=
  [ {| N := 2; ETag := "ETag2"; Size := 32 |}; {| N := 1; ETag := "ETag1"; Size := 64 |} ].

Definition test_page1 : listPartsResp :=
  {| NextPartNumberMarker := "2"; listParts_IsTruncated := true;
     listParts_Part := [ {| N := 2; ETag := "d067a0fa9dc61a6e7195ca99696b5a89"; Size := 5 |};
                         {| N := 1; ETag := "ffc88b4ca90a355f8ddba6b2c3b2af5c"; Size := 5 |} ] |}.

Definition test_page2 : listPartsResp :=
  {| NextPartNumberMarker := ""; listParts_IsTruncated := false;
     listParts_Part := [ {| N := 3; ETag := "49dcd91231f801159e893fb5c6674985"; Size := 5 |} ] |}.

Definition test_upload1 : Multi :=
  {| Multi_Bucket := None; Key := "multi1"; UploadId := "iUVug89pPvSswrikD";
     Initiated := None |}.

Definition test_upload2 : Multi :=
  {| Multi_Bucket := None; Key := "multi2"; UploadId := "DkirwsSvPp98guVUi";
     Initiated := None |}.

Definition test_uploads1 : listMultiResp :=
  {| NextKeyMarker := "multi1"; NextUploadIdMarker := "iUVug89pPvSswrikD";
     listMulti_IsTruncated := true; Upload := [test_upload1]; CommonPrefixes := ["a/"] |}.

Definition test_uploads2 : listMultiResp :=
  {| NextKeyMarker := ""; NextUploadIdMarker := "";
     listMulti_IsTruncated := false; Upload := [test_upload2]; CommonPrefixes := ["b/"] |}.

Definition test_md5 : string := "JvkO/RDWFPEAJS/1bYja2A==".
Definition test_sha256 : string := "e3b0c44298fc1c149afbf4c8996fb92427ae41e4649b934ca495991b7852b855".
Definition test_ETag : string := "26f90efd10d614f100252ff56d88dad8".

Definition put_internal_error : putAnswer :=
  {| seek_err := None; prepare_err := None; run_res := inl InternalError |}.

Definition put_no_ETag : putAnswer :=
  {| seek_err := None; prepare_err := None; run_res := inr {| resp_Header := [] |} |}.

Definition put_with_ETag : putAnswer :=
  {| seek_err := None; prepare_err := None;
     run_res := inr {| resp_Header := [("Etag", [test_ETag])] |} |}.

Definition put_seek_fails : putAnswer :=
  {| seek_err := Some (PlainError "seek failed"); prepare_err := None;
     run_res := inl InternalError |}.

Definition test_header : Header :=
  [("X-Amz-Date", ["20150830T123600Z"]); ("Host", ["example.amazonaws.com"]);
   ("Content-Type", ["application/x-www-form-urlencoded; charset=utf-8"])].

(** ** More requests of the loops *)

Definition complete_request (b : Bucket) (m : Multi) (headers params : gomap (list string))
    (data : string) : request :=
  {| method := "POST"; bucket := Name b; path := Key m; headers := headers;
     params := params; payload := DataPayload data |}.

Definition abort_request (b : Bucket) (m : Multi) (params : gomap (list string)) : request :=
  {| method := "DELETE"; bucket := Name b; path := Key m; headers := [];
     params := params; payload := NoPayload |}.

(** The try that decides a call, after [tried] failed tries: its error is
    not retryable, or the budget is spent with it. *)
Definition gives_up (attempts : AttemptStrategy) (retryable : error -> bool)
    (tried : nat) (e : error) : Prop :=
  retryable e = false \/ S tried = Budget attempts.

(** The request of every attempt of [InitMulti]. *)
Definition initMulti_request (b : Bucket) (key contType perm : string) : request :=
  {| method := "POST"; bucket := Name b; path := key;
     headers := [("Content-Type", [contType]); ("Content-Length", ["0"]);
                 ("x-amz-acl", [perm])];
     params := [("uploads", [])]; payload := NoPayload |}.

(** One step of a loop that stores, for every item it visits, a value
    under a key. *)
Definition fill_map (A V : Type) (key : A -> string) (val : A -> V)
    (m : gomap V) (a : A) : gomap V :=
  map_set (key a) (val a) m.

(** What [canonicalHeaders] makes of the values of one header. *)
Definition trimmed_sorted (v : list string) : list string :=
  sort_Strings (List.map Trim_space v).

(** A left inverse of [QueryEscape]: [+] back to the space, [%XX] back to
    the byte. *)
Definition unhex (c : ascii) : BinNums.N :=
  if is_digit c then (N_of_ascii c - 48)%N
  else if (("A" <=? c) && (c <=? "F"))%char then (N_of_ascii c - 55)%N
  else 0%N.

Fixpoint unescape_query (s : string) : string :=
  match s with
  | EmptyString => EmptyString
  | String c s1 =>
      if (c =? "+")%char then String " " (unescape_query s1)
      else if (c =? "%")%char then
        match s1 with
        | String h1 (String h2 s3) =>
            String (ascii_of_N (16 * unhex h1 + unhex h2)%N) (unescape_query s3)
        | _ => String c (unescape_query s1)
        end
      else String c (unescape_query s1)
  end.

(** The text [canonicalQueryString] stores for one name of the query. *)
Definition query_group (entry : string * list string) : string :=
  Join (List.map (fun v => (QueryEscape (fst entry) ++ "=" ++ QueryEscape v)%string)
                 (snd entry)) "&".

(** ** Requests for the signer

    The theorems on [Sign] hold for every choice of the functions of the
    packages time, crypto, net/url and path.  The scenarios fix one choice:
    a clock text that is its own rendering, and identity functions in the
    place of the digests and of the path functions. *)

Definition test_signer : V4Signer :=
  {| auth := {| AccessKey := "AKIDEXAMPLE";
                SecretKey := "wJalrXUtnFEMI/K7MDENG+bPxRfiCYEXAMPLEKEY" |};
     serviceName := "s3";
     region := {| Region_Name := "us-east-1" |} |}.

Definition test_time_Parse (layout value : string) : option string :=
  if (value =? "")%string then None else Some value.

Definition test_time_Format (t layout : string) : string := t.

Definition test_hmac (key data : string) : string := (key ++ data)%string.

Definition test_identity (data : string) : string := data.

Definition test_url_Query (u : URL) : Values := [].

Definition test_Values_Encode (v : Values) : string := Join (map_keys v) "&".

(** The header names of the scenarios are ASCII and never reach the tables
    of package unicode; the scenarios run with tables that map nothing. *)
Definition test_tables : UnicodeTables := {| Map_unicode_ToLower := fun s => s |}.

Definition test_Sign : V4Signer -> string -> Request -> string -> Request * option error :=
  Sign (U := test_tables) test_time_Parse test_time_Format test_identity test_hmac test_identity
       test_identity test_identity test_url_Query test_Values_Encode.

Definition test_presigned_request : Request :=
  {| Method := "GET"; Host := "examplebucket.s3.amazonaws.com";
     req_Header := [("X-Amz-Date", ["20150830T123600Z"])];
     Form := [("X-Amz-Expires", ["86400"])];
     req_URL := {| Path := "/test.txt"; RawQuery := "X-Amz-Expires=86400" |} |}.

Definition test_header_request : Request :=
  {| Method := "GET"; Host := "examplebucket.s3.amazonaws.com";
     req_Header := test_header;
     Form := [];
     req_URL := {| Path := "/test.txt"; RawQuery := "" |} |}.

(** A request whose header map holds, besides the canonical key, an entry
    that was stored directly under the lowercase spelling. *)
Definition raw_host_request : Request :=
  {| Method := "GET"; Host := "examplebucket.s3.amazonaws.com";
     req_Header := [("Host", ["stale.example.com"]); ("host", ["evil.example.com"])];
     Form := [];
     req_URL := {| Path := "/test.txt"; RawQuery := "" |} |}.

Definition test_query : Values := [("b", ["2"; "1"]); ("a", ["x y"])].

(** * Facts about the library models *)

Unset Implicit Arguments.

Example CanonicalMIMEHeaderKey_host : CanonicalMIMEHeaderKey "host" = "Host".
Proof. reflexivity. Qed.

Example CanonicalMIMEHeaderKey_sha :
  CanonicalMIMEHeaderKey "x-amz-content-sha256" = "X-Amz-Content-Sha256".
Proof. reflexivity. Qed.

Example QueryEscape_space : QueryEscape "a b+c/~" = "a+b%2Bc%2F~".
Proof. reflexivity. Qed.

Example Replace_plus : Replace "a+b%2Bc++" "+" "%20" = "a%20b%2Bc%20%20".
Proof. reflexivity. Qed.

Example Trim_space_ex : Trim_space "  a b  " = "a b".
Proof. reflexivity. Qed.

Example sort_Strings_ex : sort_Strings ["b"; "a"; "ab"; "B"] = ["B"; "a"; "ab"; "b"].
Proof. reflexivity. Qed.

Example FormatInt_ex : FormatInt 1000 = "1000" /\ FormatInt 0 = "0" /\ FormatInt (-7) = "-7".
Proof. repeat split; reflexivity. Qed.

Example canonicalHeaders_trims_and_sorts {U : UnicodeTables} :
  canonicalHeaders [("X-Amz-Date", ["b "; " a"]); ("Host", [" example.com "])]
  = (("host:example.com" ++ LF ++ "x-amz-date:a,b")%string,
     [("X-Amz-Date", ["a"; "b"]); ("Host", ["example.com"])]).
Proof. reflexivity. Qed.

Example canonicalHeaders_case_collision {U : UnicodeTables} :
  fst (canonicalHeaders [("Foo", ["1"]); ("foo", ["2"]); ("Bar", ["z"])])
  = ("bar:z" ++ LF ++ "foo:2" ++ LF)%string
  /\ signedHeaders [("Foo", ["1"]); ("foo", ["2"]); ("Bar", ["z"])] = "bar;foo;foo".
Proof. split; reflexivity. Qed.

Example canonicalQueryString_of_ex :
  canonicalQueryString_of [("prefix", ["a b+c"]); ("max-uploads", ["1000"]); ("uploads", [""])]
  = "max-uploads=1000&prefix=a%20b%2Bc&uploads=".
Proof. reflexivity. Qed.

(** TestMultiComplete: the body of the completion request. *)
Example TestMultiComplete_body :
  xml_Marshal (Complete_manifest (@insertion_sort) test_parts)
  = (("<CompleteMultipartUpload>"
      ++ "<Part><PartNumber>1</PartNumber><ETag>ETag1</ETag></Part>"
      ++ "<Part><PartNumber>2</PartNumber><ETag>ETag2</ETag></Part>"
      ++ "</CompleteMultipartUpload>")%string, None).
Proof. reflexivity. Qed.

(** TestListParts: a page, a failure that is retried, the second page. *)
Example TestListParts_result :
  option_map fst
    (ListParts test_attempts test_retryable (@insertion_sort) 1000 sample_multi
       {| pending := [inr (BodyListParts test_page1); inl NoSuchUpload;
                      inr (BodyListParts test_page2)];
          sent := [] |})
  = Some (Returns ([ {| N := 1; ETag := "ffc88b4ca90a355f8ddba6b2c3b2af5c"; Size := 5 |};
                     {| N := 2; ETag := "d067a0fa9dc61a6e7195ca99696b5a89"; Size := 5 |};
                     {| N := 3; ETag := "49dcd91231f801159e893fb5c6674985"; Size := 5 |} ],
                   None)).
Proof. reflexivity. Qed.

Example TestListParts_requests :
  option_map (fun r => List.map (fun q => map_index "part-number-marker" (params q))
                                (sent (snd r)))
    (ListParts test_attempts test_retryable (@insertion_sort) 1000 sample_multi
       {| pending := [inr (BodyListParts test_page1); inl NoSuchUpload;
                      inr (BodyListParts test_page2)];
          sent := [] |})
  = Some [[]; ["2"]; ["2"]].
Proof. reflexivity. Qed.

(** TestPutPart *)
Example TestPutPart_result :
  option_map fst
    (PutPartHash test_attempts test_retryable sample_multi 1 8 test_md5 test_sha256
       {| put_pending := [put_with_ETag]; put_trace := [] |})
  = Some (Returns ({| N := 1; ETag := test_ETag; Size := 8 |}, None)).
Proof. reflexivity. Qed.

(** Without the reset of the budget the second failure would be final. *)
Example budget_of_two_without_pages :
  option_map fst
    (ListParts {| Budget := 2 |} test_retryable (@insertion_sort) 1000 sample_multi
       {| pending := [inl NoSuchUpload; inl NoSuchUpload; inr (BodyListParts test_page2)];
          sent := [] |})
  = Some (Returns ([], Some NoSuchUpload)).
Proof. reflexivity. Qed.



Lemma map_set_keys_in (V : Type) (k : string) (v : V) (m : gomap V) (x : string) :
  In x (map_keys (map_set k v m)) <-> x = k \/ In x (map_keys m).
Proof.
  induction m as [|[k' v'] m IH]; simpl.
  - intuition.
  - destruct (String.eqb_spec k' k) as [->|Hne]; simpl.
    + intuition.
    + rewrite IH. intuition.
Qed.

Lemma map_set_keys_present (V : Type) (k : string) (v : V) (m : gomap V) :
  In k (map_keys m) -> map_keys (map_set k v m) = map_keys m.
Proof.
  induction m as [|[k' v'] m IH]; simpl; [tauto|].
  intros Hin. destruct (String.eqb_spec k' k) as [->|Hne]; simpl; [reflexivity|].
  f_equal. apply IH. destruct Hin as [Heq|Hin]; [contradiction|exact Hin].
Qed.

Lemma map_get_set_same (V : Type) (k : string) (v : V) (m : gomap V) :
  map_get k (map_set k v m) = Some v.
Proof.
  induction m as [|[k' v'] m IH]; simpl.
  - now rewrite String.eqb_refl.
  - destruct (String.eqb_spec k' k) as [->|Hne]; simpl.
    + now rewrite String.eqb_refl.
    + destruct (String.eqb_spec k' k); [contradiction|exact IH].
Qed.

Lemma map_set_set_same (V : Type) (k : string) (v v' : V) (m : gomap V) :
  map_set k v' (map_set k v m) = map_set k v' m.
Proof.
  induction m as [|[k0 v0] m IH]; simpl.
  - now rewrite String.eqb_refl.
  - destruct (String.eqb_spec k0 k) as [->|Hne]; simpl.
    + now rewrite String.eqb_refl.
    + destruct (String.eqb_spec k0 k); [contradiction|]. now rewrite IH.
Qed.


Lemma map_get_in_keys (V : Type) (k : string) (m : gomap V) :
  In k (map_keys m) -> exists v, map_get k m = Some v.
Proof.
  induction m as [|[k' v'] m IH]; simpl; [tauto|].
  intros Hin. destruct (String.eqb_spec k' k) as [->|Hne]; [eauto|].
  apply IH. destruct Hin; [contradiction|assumption].
Qed.

(** [insertion_sort] meets the contract of [sort.Sort]. *)

Lemma insert_by_perm (A : Type) (less : A -> A -> bool) (x : A) (l : list A) :
  Permutation (x :: l) (insert_by less x l).
Proof.
  induction l as [|y l IH]; simpl; [apply Permutation_refl|].
  destruct (less y x).
  - eapply Permutation_trans; [apply perm_swap|]. now apply perm_skip.
  - apply Permutation_refl.
Qed.

Lemma insertion_sort_perm (A : Type) (less : A -> A -> bool) (l : list A) :
  Permutation l (insertion_sort less l).
Proof.
  induction l as [|x l IH]; simpl; [constructor|].
  eapply Permutation_trans; [apply perm_skip, IH|]. apply insert_by_perm.
Qed.

Lemma insert_by_sorted (A : Type) (key : A -> Z) (x : A) (l : list A) :
  StronglySorted (fun a b => key a <= key b) l ->
  StronglySorted (fun a b => key a <= key b) (insert_by (fun a b => key a <? key b) x l).
Proof.
  induction 1 as [|y l Hs IH Hall]; simpl.
  - repeat constructor.
  - destruct (Z.ltb_spec (key y) (key x)) as [Hlt|Hge].
    + constructor; [exact IH|].
      apply Forall_forall. intros z Hz.
      apply (Permutation_in z (Permutation_sym (insert_by_perm A _ x l))) in Hz.
      destruct Hz as [<-|Hz]; [lia|].
      rewrite Forall_forall in Hall. now apply Hall.
    + constructor; [now constructor|].
      constructor; [exact Hge|].
      eapply Forall_impl; [|exact Hall]. simpl. intros. lia.
Qed.

Lemma insertion_sort_sorted (A : Type) (key : A -> Z) (l : list A) :
  StronglySorted (fun a b => key a <= key b)
                 (insertion_sort (fun a b => key a <? key b) l).
Proof.
  induction l as [|x l IH]; simpl; [constructor|]. now apply insert_by_sorted.
Qed.

(** An ascending arrangement of items with distinct keys is unique. *)
Lemma ascending_unique (A : Type) (key : A -> Z) (l l' : list A) :
  StronglySorted (fun a b => key a <= key b) l ->
  StronglySorted (fun a b => key a <= key b) l' ->
  Permutation l l' ->
  NoDup (List.map key l) ->
  l = l'.
Proof.
  intros Hs. revert l'. induction Hs as [|a l Hs IH Ha]; intros l' Hs' Hp Hnd.
  - now apply Permutation_nil in Hp.
  - destruct Hs' as [|b l' Hs' Hb].
    + apply Permutation_sym, Permutation_nil in Hp. discriminate.
    + rewrite Forall_forall in Ha, Hb.
      assert (Hab : a = b).
      { assert (Hin_b : In b (a :: l))
          by (apply (Permutation_in b (Permutation_sym Hp)); now left).
        assert (Hin_a : In a (b :: l'))
          by (apply (Permutation_in a Hp); now left).
        destruct Hin_b as [Heq|Hin_b]; [exact Heq|].
        destruct Hin_a as [Heq|Hin_a]; [now symmetry|].
        exfalso.
        pose proof (Ha _ Hin_b). pose proof (Hb _ Hin_a).
        simpl in Hnd. inversion Hnd as [|? ? Hnotin _]; subst.
        apply Hnotin. replace (key a) with (key b) by lia.
        now apply in_map. }
      subst b. f_equal.
      apply IH; [exact Hs'| now apply Permutation_cons_inv in Hp |].
      simpl in Hnd. now inversion Hnd.
Qed.

(** * Multipart uploads *)

Section MultipartFacts.

Variable attempts : AttemptStrategy.
Variable retryable : error -> bool.
Variable sort_Sort : forall A : Type, (A -> A -> bool) -> list A -> list A.
Variable listMultiMax : Z.
Variable listPartsMax : Z.

(** The contract of [sort.Sort]: the slice is rearranged, and afterwards no
    element is [Less] than one before it. *)
Hypothesis sort_Sort_perm :
  forall (A : Type) (less : A -> A -> bool) (l : list A),
    Permutation l (sort_Sort A less l).
Hypothesis sort_Sort_sorted :
  forall (A : Type) (key : A -> Z) (l : list A),
    StronglySorted (fun a b => key a <= key b)
                   (sort_Sort A (fun a b => key a <? key b) l).

Local Abbreviation ListParts_loop' := (ListParts_loop attempts retryable sort_Sort).
Local Abbreviation ListMulti_loop' := (ListMulti_loop attempts retryable).
Local Abbreviation PutPartHash_loop' := (PutPartHash_loop retryable).

Lemma Attempt_eta (a : Attempt) : {| remaining := remaining a |} = a.
Proof. now destruct a. Qed.

Lemma repeat_snoc (A : Type) (x : A) (n : nat) :
  List.repeat x n ++ [x] = x :: List.repeat x n.
Proof. induction n as [|n IH]; simpl; [reflexivity|]. now rewrite IH. Qed.

(** ** The paginated loops *)

Lemma ListParts_loop_retries (m : Multi) (b : Bucket) (fails tail : list answer) :
  Multi_Bucket m = Some b ->
  forallb (retry_fail retryable) fails = true ->
  forall (log : list request) (a : Attempt) (params : gomap (list string)) (parts : list Part),
    (List.length fails < remaining a)%nat ->
    ListParts_loop' m (fails ++ tail) log a params parts
    = ListParts_loop' m tail
        (log ++ List.repeat (listParts_request b m params) (List.length fails))
        {| remaining := remaining a - List.length fails |} params parts.
Proof.
  intros Hb. induction fails as [|f fails IH]; intros Hf log a params parts Hlen.
  - simpl. rewrite app_nil_r, Nat.sub_0_r, Attempt_eta. reflexivity.
  - simpl in Hf. apply andb_true_iff in Hf. destruct Hf as [Hf Hfs].
    destruct f as [e|bd]; simpl in Hf; [|discriminate].
    destruct a as [[|n]]; simpl in Hlen; [lia|].
    destruct n as [|n]; [lia|].
    simpl. rewrite Hb. simpl. rewrite Hf. simpl.
    rewrite (IH Hfs) by (simpl; lia).
    unfold listParts_request. simpl.
    rewrite <- app_assoc. reflexivity.
Qed.

Lemma ListParts_loop_page (m : Multi) (b : Bucket) (fails tail : list answer)
    (page : listPartsResp) (log : list request) (a : Attempt)
    (params : gomap (list string)) (parts : list Part) :
  Multi_Bucket m = Some b ->
  forallb (retry_fail retryable) fails = true ->
  (List.length fails < remaining a)%nat ->
  ListParts_loop' m (fails ++ inr (BodyListParts page) :: tail) log a params parts
  = let log' := log ++ List.repeat (listParts_request b m params) (S (List.length fails)) in
    if listParts_IsTruncated page then
      ListParts_loop' m tail log' (Start attempts)
        (map_set "part-number-marker" [NextPartNumberMarker page] params)
        (parts ++ listParts_Part page)
    else
      Some (Returns (sort_Sort Part partSlice_Less (parts ++ listParts_Part page), None),
            {| pending := tail; sent := log' |}).
Proof.
  intros Hb Hf Hlen.
  rewrite (ListParts_loop_retries m b fails _ Hb Hf) by exact Hlen.
  remember (remaining a - List.length fails)%nat as k eqn:Hk.
  destruct k as [|k]; [lia|].
  simpl. rewrite Hb. simpl.
  replace (listParts_request b m params :: List.repeat (listParts_request b m params) (List.length fails))
    with (List.repeat (listParts_request b m params) (List.length fails) ++ [listParts_request b m params])
    by apply repeat_snoc.
  rewrite app_assoc. unfold listParts_request.
  destruct (listParts_IsTruncated page); reflexivity.
Qed.

Lemma ListParts_loop_pages (m : Multi) (b : Bucket)
    (segs : list (list answer * listPartsResp)) (last : list answer * listPartsResp)
    (rest : list answer) :
  Multi_Bucket m = Some b ->
  Forall (fun seg => parts_page_ok attempts retryable seg /\ listParts_IsTruncated (snd seg) = true) segs ->
  parts_page_ok attempts retryable last ->
  listParts_IsTruncated (snd last) = false ->
  forall (log : list request) (params : gomap (list string)) (parts : list Part),
  exists log',
    ListParts_loop' m (flat_map parts_page_script segs ++ parts_page_script last ++ rest)
                    log (Start attempts) params parts
    = Some (Returns (sort_Sort Part partSlice_Less
                       (parts ++ flat_map (fun seg => listParts_Part (snd seg)) segs
                              ++ listParts_Part (snd last)), None),
            {| pending := rest; sent := log' |}).
Proof.
  intros Hb Hsegs [Hlf Hll] Hlt.
  induction Hsegs as [|[fails page] segs [[Hf Hl] Ht] _ IH]; intros log params parts.
  - destruct last as [lfails lpage]. simpl in *.
    unfold parts_page_script. simpl. rewrite <- app_assoc. simpl.
    rewrite (ListParts_loop_page m b lfails rest lpage log _ params parts Hb Hlf) by exact Hll.
    simpl. rewrite Hlt. eauto.
  - simpl in *. unfold parts_page_script at 1. simpl.
    rewrite <- !app_assoc. simpl.
    rewrite (ListParts_loop_page m b fails _ page log _ params parts Hb Hf) by exact Hl.
    simpl. rewrite Ht.
    edestruct IH as [log' ->].
    rewrite <- app_assoc. eauto.
Qed.

Lemma ListMulti_loop_retries (b : Bucket) (fails tail : list answer) :
  forallb (retry_fail retryable) fails = true ->
  forall (log : list request) (a : Attempt) (params : gomap (list string))
         (multis : list Multi) (prefixes : list string),
    (List.length fails < remaining a)%nat ->
    ListMulti_loop' b (fails ++ tail) log a params multis prefixes
    = ListMulti_loop' b tail
        (log ++ List.repeat (listMulti_request b params) (List.length fails))
        {| remaining := remaining a - List.length fails |} params multis prefixes.
Proof.
  induction fails as [|f fails IH]; intros Hf log a params multis prefixes Hlen.
  - simpl. rewrite app_nil_r, Nat.sub_0_r, Attempt_eta. reflexivity.
  - simpl in Hf. apply andb_true_iff in Hf. destruct Hf as [Hf Hfs].
    destruct f as [e|bd]; simpl in Hf; [|discriminate].
    destruct a as [[|n]]; simpl in Hlen; [lia|].
    destruct n as [|n]; [lia|].
    simpl. rewrite Hf. simpl.
    rewrite (IH Hfs) by (simpl; lia).
    unfold listMulti_request. simpl.
    rewrite <- app_assoc. reflexivity.
Qed.

Lemma ListMulti_loop_page (b : Bucket) (fails tail : list answer)
    (page : listMultiResp) (log : list request) (a : Attempt)
    (params : gomap (list string)) (multis : list Multi) (prefixes : list string) :
  forallb (retry_fail retryable) fails = true ->
  (List.length fails < remaining a)%nat ->
  ListMulti_loop' b (fails ++ inr (BodyListMulti page) :: tail) log a params multis prefixes
  = let log' := log ++ List.repeat (listMulti_request b params) (S (List.length fails)) in
    if listMulti_IsTruncated page then
      ListMulti_loop' b tail log' (Start attempts)
        (map_set "upload-id-marker" [NextUploadIdMarker page]
                 (map_set "key-marker" [NextKeyMarker page] params))
        (multis ++ List.map (adopt b) (Upload page))
        (prefixes ++ CommonPrefixes page)
    else
      Some (Returns (multis ++ List.map (adopt b) (Upload page),
                     prefixes ++ CommonPrefixes page, None),
            {| pending := tail; sent := log' |}).
Proof.
  intros Hf Hlen.
  rewrite (ListMulti_loop_retries b fails _ Hf) by exact Hlen.
  remember (remaining a - List.length fails)%nat as k eqn:Hk.
  destruct k as [|k]; [lia|].
  simpl.
  replace (listMulti_request b params :: List.repeat (listMulti_request b params) (List.length fails))
    with (List.repeat (listMulti_request b params) (List.length fails) ++ [listMulti_request b params])
    by apply repeat_snoc.
  rewrite app_assoc. unfold listMulti_request.
  destruct (listMulti_IsTruncated page); reflexivity.
Qed.

Lemma ListMulti_loop_pages (b : Bucket)
    (segs : list (list answer * listMultiResp)) (last : list answer * listMultiResp)
    (rest : list answer) :
  Forall (fun seg => multi_page_ok attempts retryable seg /\ listMulti_IsTruncated (snd seg) = true) segs ->
  multi_page_ok attempts retryable last ->
  listMulti_IsTruncated (snd last) = false ->
  forall (log : list request) (params : gomap (list string))
         (multis : list Multi) (prefixes : list string),
  exists log',
    ListMulti_loop' b (flat_map multi_page_script segs ++ multi_page_script last ++ rest)
                    log (Start attempts) params multis prefixes
    = Some (Returns (multis ++ flat_map (fun seg => List.map (adopt b) (Upload (snd seg))) segs
                            ++ List.map (adopt b) (Upload (snd last)),
                     prefixes ++ flat_map (fun seg => CommonPrefixes (snd seg)) segs
                              ++ CommonPrefixes (snd last), None),
            {| pending := rest; sent := log' |}).
Proof.
  intros Hsegs [Hlf Hll] Hlt.
  induction Hsegs as [|[fails page] segs [[Hf Hl] Ht] _ IH];
    intros log params multis prefixes.
  - destruct last as [lfails lpage]. simpl in *.
    unfold multi_page_script. simpl. rewrite <- app_assoc. simpl.
    rewrite (ListMulti_loop_page b lfails rest lpage log _ params multis prefixes Hlf)
      by exact Hll.
    simpl. rewrite Hlt. eauto.
  - simpl in *. unfold multi_page_script at 1. simpl.
    rewrite <- !app_assoc. simpl.
    rewrite (ListMulti_loop_page b fails _ page log _ params multis prefixes Hf)
      by exact Hl.
    simpl. rewrite Ht.
    edestruct IH as [log' ->].
    rewrite <- !app_assoc. eauto.
Qed.

(** An error from [ListMulti] comes with no uploads and no prefixes. *)
Lemma ListMulti_loop_error (b : Bucket) (script : list answer) :
  forall (log : list request) (a : Attempt) (params : gomap (list string))
         (multis : list Multi) (prefixes : list string)
         (ms : list Multi) (ps : list string) (e : error) (w' : World),
    ListMulti_loop' b script log a params multis prefixes
    = Some (Returns (ms, ps, Some e), w') ->
    ms = [] /\ ps = [].
Proof.
  induction script as [|ans script IH]; intros log a params multis prefixes ms ps e w'.
  - destruct a as [[|n]]; simpl; discriminate.
  - destruct a as [[|n]]; simpl; [discriminate|].
    destruct (query ans) as [err resp_body].
    destruct (shouldRetry retryable err && HasNext {| remaining := n |}).
    + apply IH.
    + destruct err as [e'|].
      * intros H. inversion H. auto.
      * destruct (negb (listMulti_IsTruncated (decode_listMultiResp resp_body))).
        -- discriminate.
        -- apply IH.
Qed.

(** ** The part upload loop *)

Lemma PutPartHash_loop_retries (m : Multi) (b : Bucket) (n partSize : Z)
    (md5b64 sha256hex : string) (headers params : gomap (list string))
    (pre tail : list putAnswer) :
  Multi_Bucket m = Some b ->
  forallb (put_retry_fail retryable) pre = true ->
  forall (trace : list event) (a : Attempt),
    (List.length pre < remaining a)%nat ->
    PutPartHash_loop' m n partSize md5b64 sha256hex headers params (pre ++ tail) trace a
    = PutPartHash_loop' m n partSize md5b64 sha256hex headers params tail
        (trace ++ flat_map (fun _ => put_attempt_events
                                       (put_loop_request b m md5b64 sha256hex headers params))
                           pre)
        {| remaining := remaining a - List.length pre |}.
Proof.
  intros Hb. induction pre as [|f pre IH]; intros Hf trace a Hlen.
  - simpl. rewrite app_nil_r, Nat.sub_0_r, Attempt_eta. reflexivity.
  - simpl in Hf. apply andb_true_iff in Hf. destruct Hf as [Hf Hfs].
    unfold put_retry_fail in Hf.
    destruct f as [sk pr rn]. simpl in Hf.
    destruct sk; [discriminate|]. destruct pr; [discriminate|].
    destruct rn as [e|r]; [|discriminate].
    destruct a as [[|k]]; simpl in Hlen; [lia|].
    destruct k as [|k]; [lia|].
    simpl. rewrite Hb. simpl. rewrite Hf. simpl.
    rewrite (IH Hfs) by (simpl; lia).
    unfold put_loop_request, put_attempt_events. simpl.
    rewrite <- !app_assoc. reflexivity.
Qed.

Ltac close_trace :=
  unfold count_seeks, put_attempt_events in *; simpl;
  rewrite <- ?app_assoc; simpl; repeat split; auto; try lia.

Lemma PutPartHash_loop_trace (m : Multi) (n partSize : Z) (md5b64 sha256hex : string)
    (headers params : gomap (list string)) (script : list putAnswer) :
  forall (trace : list event) (a : Attempt) (res : go (Part * option error)) (w' : PutWorld),
    PutPartHash_loop' m n partSize md5b64 sha256hex headers params script trace a
    = Some (res, w') ->
    exists new,
      put_trace w' = trace ++ new
      /\ rewinds_before_sending Fresh new = true
      /\ List.length script = (List.length (put_pending w') + count_seeks new)%nat.
Proof.
  induction script as [|ans script IH]; intros trace a res w'.
  - destruct a as [[|k]]; simpl; [|discriminate].
    intros H. inversion H; subst. exists []. rewrite app_nil_r. close_trace.
  - destruct a as [[|k]]; simpl.
    { intros H. inversion H; subst. exists []. rewrite app_nil_r. close_trace. }
    destruct (seek_err ans) as [e|].
    { intros H. inversion H; subst. exists [EvSeek 0 0]. close_trace. }
    destruct (Multi_Bucket m) as [b|].
    2:{ intros H. inversion H; subst. exists [EvSeek 0 0]. close_trace. }
    set (req := {| method := "PUT"; bucket := Name b; path := Key m; headers := headers;
                   params := params; payload := ReaderPayload md5b64 sha256hex |}).
    destruct (prepare_err ans) as [e|].
    { intros H. inversion H; subst. exists [EvSeek 0 0; EvPrepare req]. close_trace. }
    destruct (shouldRetry retryable
                match run_res ans with inl e => Some e | inr _ => None end
              && HasNext {| remaining := k |}).
    { intros H. apply IH in H. destruct H as (new & Ht & Hr & Hc).
      exists (put_attempt_events req ++ new). rewrite Ht. close_trace. }
    destruct (run_res ans) as [e|hresp].
    { intros H. inversion H; subst. exists (put_attempt_events req). close_trace. }
    destruct (Header_Get "ETag" (resp_Header hresp) =? "")%string;
      intros H; inversion H; subst;
      exists (put_attempt_events req ++ [EvClose]); close_trace.
Qed.

Lemma PutPartHash_loop_result (m : Multi) (n partSize : Z) (md5b64 sha256hex : string)
    (headers params : gomap (list string)) (script : list putAnswer) :
  forall (trace : list event) (a : Attempt) (p : Part) (err : option error) (w' : PutWorld),
    PutPartHash_loop' m n partSize md5b64 sha256hex headers params script trace a
    = Some (Returns (p, err), w') ->
    match err with
    | None => ETag p <> "" /\ N p = n /\ Size p = partSize
    | Some _ => p = Part_zero
    end.
Proof.
  induction script as [|ans script IH]; intros trace a p err w'.
  - destruct a as [[|k]]; simpl; discriminate.
  - destruct a as [[|k]]; simpl; [discriminate|].
    destruct (seek_err ans) as [e|]; [intros H; now inversion H|].
    destruct (Multi_Bucket m) as [b|]; [|discriminate].
    destruct (prepare_err ans) as [e|]; [intros H; now inversion H|].
    destruct (shouldRetry retryable
                match run_res ans with inl e => Some e | inr _ => None end
              && HasNext {| remaining := k |}); [apply IH|].
    destruct (run_res ans) as [e|hresp]; [intros H; now inversion H|].
    destruct (String.eqb_spec (Header_Get "ETag" (resp_Header hresp)) "") as [Heq|Hne];
      intros H; inversion H; subst; simpl; auto.
Qed.

(** ** Completion *)

Lemma Complete_loop_payload (m : Multi) (headers params : gomap (list string))
    (data : string) (script : list answer) :
  forall (log : list request) (a : Attempt) (res : go (option error)) (w' : World),
    Complete_loop retryable m headers params data script log a = Some (res, w') ->
    exists new,
      sent w' = log ++ new
      /\ Forall (fun r => payload r = DataPayload data) new
      /\ pending w' = List.skipn (List.length new) script.
Proof.
  induction script as [|ans script IH]; intros log a res w'.
  - destruct a as [[|k]]; simpl.
    + intros H. inversion H; subst. exists []. simpl. now rewrite app_nil_r.
    + destruct (Multi_Bucket m); [discriminate|].
      intros H. inversion H; subst. exists []. simpl. now rewrite app_nil_r.
  - destruct a as [[|k]]; simpl.
    { intros H. inversion H; subst. exists []. simpl. now rewrite app_nil_r. }
    destruct (Multi_Bucket m) as [b|].
    2:{ intros H. inversion H; subst. exists []. simpl. now rewrite app_nil_r. }
    destruct (shouldRetry retryable (fst (query ans)) && HasNext {| remaining := k |}).
    + intros H. apply IH in H. destruct H as (new & Hs & Hall & Hp).
      eexists (_ :: new). rewrite Hs, <- app_assoc. simpl.
      repeat split; [|exact Hp]. constructor; [reflexivity|exact Hall].
    + intros H. inversion H; subst. eexists [_]. simpl.
      repeat split. constructor; [reflexivity|constructor].
Qed.

(** C1.  The manifest that [Complete] serializes lists the caller's
    (part number, tag) pairs in ascending order of part number, whatever
    the order and the gaps of the list supplied: it is a rearrangement of
    the supplied pairs, it is ascending, when the part numbers are distinct
    it is the same for every order of supply, every request [Complete]
    issues carries its XML as the body, and with an attempt to spend and an
    answer that is not retried [Complete] issues exactly one such request. *)
Theorem Complete_manifest_ascending (parts : list Part) :
  let manifest := Parts (Complete_manifest sort_Sort parts) in
  ascending_manifest manifest
  /\ Permutation
       (List.map (fun p => {| PartNumber := N p; completePart_ETag := ETag p |}) parts)
       manifest
  /\ (forall parts' : list Part,
         Permutation parts parts' -> NoDup (List.map N parts) ->
         Complete_manifest sort_Sort parts' = Complete_manifest sort_Sort parts)
  /\ (forall (m : Multi) (w : World) (res : go (option error)) (w' : World),
         Complete attempts retryable sort_Sort m parts w = Some (res, w') ->
         exists new,
           sent w' = sent w ++ new
           /\ Forall (fun r => payload r
                               = DataPayload (fst (xml_Marshal (Complete_manifest sort_Sort parts))))
                     new)
  /\ (forall (b : Bucket) (key uploadId : string) (initiated : option string)
             (ans : answer) (rest : list answer) (log : list request),
         (0 < Budget attempts)%nat ->
         shouldRetry retryable (fst (query ans)) = false ->
         exists req,
           Complete attempts retryable sort_Sort
             {| Multi_Bucket := Some b; Key := key; UploadId := uploadId;
                Initiated := initiated |}
             parts {| pending := ans :: rest; sent := log |}
           = Some (Returns (fst (query ans)), {| pending := rest; sent := log ++ [req] |})
           /\ payload req
              = DataPayload (fst (xml_Marshal (Complete_manifest sort_Sort parts)))).
Proof.
  cbv zeta. unfold Complete_manifest at 1 2. cbn [Parts].
  split; [|split; [|split; [|split]]].
  - apply (sort_Sort_sorted completePart PartNumber).
  - apply sort_Sort_perm.
  - intros parts' Hperm Hnd. unfold Complete_manifest. f_equal.
    set (conv := fun p : Part => {| PartNumber := N p; completePart_ETag := ETag p |}).
    apply ascending_unique with (key := PartNumber).
    + apply (sort_Sort_sorted completePart PartNumber).
    + apply (sort_Sort_sorted completePart PartNumber).
    + eapply Permutation_trans; [apply Permutation_sym, sort_Sort_perm|].
      eapply Permutation_trans; [|apply sort_Sort_perm].
      apply Permutation_map, Permutation_sym, Hperm.
    + apply (Permutation_NoDup (l := List.map N parts)); [|exact Hnd].
      replace (List.map N parts) with (List.map PartNumber (List.map conv parts))
        by (rewrite map_map; reflexivity).
      apply Permutation_map.
      eapply Permutation_trans; [|apply sort_Sort_perm].
      apply Permutation_map, Hperm.
  - intros m w res w'. cbv beta iota zeta delta [Complete xml_Marshal].
    intros H. apply Complete_loop_payload in H.
    destruct H as (new & Hs & Hall & _). exists new. split; assumption.
  - intros b key uploadId initiated ans rest log Hbudget Hfinal.
    cbv beta iota zeta delta [Complete xml_Marshal].
    destruct attempts as [[|k]]; [simpl in Hbudget; lia|].
    cbn [Complete_loop Start Budget Next remaining Multi_Bucket pending sent].
    rewrite Hfinal. cbn [andb]. eexists. split; reflexivity.
Qed.

(** ** Listing parts *)

Lemma pages_without_failures (pages : list listPartsResp) :
  flat_map parts_page_script (List.map (fun page => ([], page)) pages)
  = List.map (fun page => inr (BodyListParts page)) pages
  /\ flat_map (fun seg : list answer * listPartsResp => listParts_Part (snd seg))
              (List.map (fun page => ([], page)) pages)
     = flat_map listParts_Part pages.
Proof.
  induction pages as [|page pages [IH1 IH2]]; simpl; [split; reflexivity|].
  rewrite IH1, IH2. split; reflexivity.
Qed.

(** C6.  Given any sequence of pages, all truncated but the last,
    [ListParts] consumes exactly those answers and returns, without error,
    a list that is ascending in part number and a rearrangement of the
    concatenation of the pages' parts, whatever the order of the parts
    within and across the pages. *)
Theorem ListParts_sorted_concatenation
    (b : Bucket) (key uploadId : string) (initiated : option string)
    (pages : list listPartsResp) (last : listPartsResp)
    (rest : list answer) (log : list request) :
  (0 < Budget attempts)%nat ->
  Forall (fun page => listParts_IsTruncated page = true) pages ->
  listParts_IsTruncated last = false ->
  exists result log',
    ListParts attempts retryable sort_Sort listPartsMax
      {| Multi_Bucket := Some b; Key := key; UploadId := uploadId; Initiated := initiated |}
      {| pending := List.map (fun page => inr (BodyListParts page)) (pages ++ [last]) ++ rest;
         sent := log |}
    = Some (Returns (result, None), {| pending := rest; sent := log' |})
    /\ ascending_parts result
    /\ Permutation (flat_map listParts_Part (pages ++ [last])) result.
Proof.
  intros Hbudget Hpages Hlast.
  set (m := {| Multi_Bucket := Some b; Key := key; UploadId := uploadId;
               Initiated := initiated |}).
  destruct (pages_without_failures pages) as [Hscript Hparts].
  destruct (ListParts_loop_pages m b (List.map (fun page => ([], page)) pages) ([], last) rest
              eq_refl) with (log := log)
      (params := [("uploadId", [uploadId]); ("max-parts", [FormatInt listPartsMax])])
      (parts := @nil Part) as [log' Hrun].
  - apply Forall_forall. intros seg Hin. apply in_map_iff in Hin.
    destruct Hin as (page & <- & Hin). rewrite Forall_forall in Hpages.
    repeat split; simpl; auto.
  - split; simpl; auto.
  - exact Hlast.
  - rewrite Hscript, Hparts in Hrun. simpl in Hrun.
    eexists. exists log'. split; [|split].
    + unfold ListParts. simpl. rewrite map_app, <- app_assoc. simpl. exact Hrun.
    + apply (sort_Sort_sorted Part N).
    + rewrite flat_map_app. simpl. rewrite app_nil_r. apply sort_Sort_perm.
Qed.

(** C7.  In [ListParts] and in [ListMulti], a fetch of any number of
    truncated pages succeeds as long as each single page meets fewer
    retryable failures than one full budget of attempts, however many
    failures the pages meet in total: every page starts with the full
    budget.  The result holds what every page brought, so no retry dropped
    what earlier pages had accumulated. *)
Theorem pagination_budget_per_page :
  (forall (b : Bucket) (key uploadId : string) (initiated : option string)
          (segs : list (list answer * listPartsResp)) (last : list answer * listPartsResp)
          (rest : list answer) (log : list request),
      Forall (fun seg => parts_page_ok attempts retryable seg /\ listParts_IsTruncated (snd seg) = true) segs ->
      parts_page_ok attempts retryable last ->
      listParts_IsTruncated (snd last) = false ->
      exists result log',
        ListParts attempts retryable sort_Sort listPartsMax
          {| Multi_Bucket := Some b; Key := key; UploadId := uploadId; Initiated := initiated |}
          {| pending := flat_map parts_page_script segs ++ parts_page_script last ++ rest;
             sent := log |}
        = Some (Returns (result, None), {| pending := rest; sent := log' |})
        /\ Permutation
             (flat_map (fun seg => listParts_Part (snd seg)) (segs ++ [last])) result)
  /\ (forall (b : Bucket) (prefix delim : string)
             (segs : list (list answer * listMultiResp)) (last : list answer * listMultiResp)
             (rest : list answer) (log : list request),
         Forall (fun seg => multi_page_ok attempts retryable seg /\ listMulti_IsTruncated (snd seg) = true) segs ->
         multi_page_ok attempts retryable last ->
         listMulti_IsTruncated (snd last) = false ->
         exists log',
           ListMulti attempts retryable listMultiMax b prefix delim
             {| pending := flat_map multi_page_script segs ++ multi_page_script last ++ rest;
                sent := log |}
           = Some (Returns
                     (flat_map (fun seg => List.map (adopt b) (Upload (snd seg))) (segs ++ [last]),
                      flat_map (fun seg => CommonPrefixes (snd seg)) (segs ++ [last]),
                      None),
                   {| pending := rest; sent := log' |})).
Proof.
  split.
  - intros b key uploadId initiated segs last rest log Hsegs Hlast Htr.
    set (m := {| Multi_Bucket := Some b; Key := key; UploadId := uploadId;
                 Initiated := initiated |}).
    destruct (ListParts_loop_pages m b segs last rest eq_refl Hsegs Hlast Htr log
                [("uploadId", [uploadId]); ("max-parts", [FormatInt listPartsMax])] [])
      as [log' Hrun].
    eexists. exists log'. split; [exact Hrun|].
    rewrite flat_map_app. simpl. rewrite app_nil_r. apply sort_Sort_perm.
  - intros b prefix delim segs last rest log Hsegs Hlast Htr.
    destruct (ListMulti_loop_pages b segs last rest Hsegs Hlast Htr log
                [("uploads", []); ("max-uploads", [FormatInt listMultiMax]);
                 ("prefix", [prefix]); ("delimiter", [delim])] [] [])
      as [log' Hrun].
    exists log'. unfold ListMulti. simpl pending. simpl sent.
    rewrite Hrun. rewrite !flat_map_app. simpl. rewrite !app_nil_r. reflexivity.
Qed.

(** ** Discover or create *)

(** C5.  When the listing of [Multi] returns an error, that error is handed
    to the caller unless it carries the code NoSuchUpload; with that code
    nothing is propagated and [Multi] is [InitMulti] run on what the listing
    left of the world: no session is adopted, a new one is initiated, and
    when the service answers the initiation with an upload id, [Multi]
    returns the handle of that new session. *)
Theorem Multi_no_such_upload_initiates
    (b : Bucket) (key contType perm : string) (w w1 : World)
    (ms : list Multi) (ps : list string) (e : error) :
  ListMulti attempts retryable listMultiMax b key "" w
  = Some (Returns (ms, ps, Some e), w1) ->
  Multi_ attempts retryable listMultiMax b key contType perm w
  = (if hasCode e "NoSuchUpload"
     then InitMulti attempts retryable b key contType perm w1
     else Some (Returns (None, Some e), w1))
  /\ (hasCode e "NoSuchUpload" = true ->
      (0 < Budget attempts)%nat ->
      forall (uploadId : string) (rest : list answer),
        pending w1 = inr (BodyInit uploadId) :: rest ->
        exists w2,
          Multi_ attempts retryable listMultiMax b key contType perm w
          = Some (Returns (Some {| Multi_Bucket := Some b; Key := key;
                                   UploadId := uploadId; Initiated := None |}, None), w2)
          /\ pending w2 = rest).
Proof.
  intros Hlist.
  assert (Hmulti : Multi_ attempts retryable listMultiMax b key contType perm w
                   = (if hasCode e "NoSuchUpload"
                      then InitMulti attempts retryable b key contType perm w1
                      else Some (Returns (None, Some e), w1))).
  { unfold Multi_. rewrite Hlist.
    unfold ListMulti in Hlist. apply ListMulti_loop_error in Hlist.
    destruct Hlist as [-> _].
    destruct (hasCode e "NoSuchUpload"); reflexivity. }
  split; [exact Hmulti|].
  intros Hcode Hbudget uploadId rest Hpending.
  rewrite Hmulti, Hcode. unfold InitMulti. rewrite Hpending.
  destruct attempts as [[|k]]; [simpl in Hbudget; lia|].
  cbn. eexists. split; reflexivity.
Qed.

(** ** Uploading a part *)

(** C4.  When an attempt of [PutPartHash] gets through the transport and
    the response has no ETag, the call returns the error "part upload
    succeeded with no ETag" with an empty [Part] at once: the answers still
    queued stay untouched, however much of the budget is left.  And
    whenever [PutPartHash] returns without error, the [Part] carries a
    non-empty tag (with the number and size the caller gave); with an error
    it is the empty [Part]. *)
Theorem PutPartHash_empty_ETag_fails_at_once
    (m : Multi) (n partSize : Z) (md5b64 sha256hex : string) :
  (forall (b : Bucket) (pre : list putAnswer) (ans : putAnswer) (hresp : http_response)
          (rest : list putAnswer) (trace : list event),
      Multi_Bucket m = Some b ->
      forallb (put_retry_fail retryable) pre = true ->
      (List.length pre < Budget attempts)%nat ->
      seek_err ans = None ->
      prepare_err ans = None ->
      run_res ans = inr hresp ->
      Header_Get "ETag" (resp_Header hresp) = "" ->
      exists trace',
        PutPartHash attempts retryable m n partSize md5b64 sha256hex
          {| put_pending := pre ++ ans :: rest; put_trace := trace |}
        = Some (Returns (Part_zero, Some (errors_New "part upload succeeded with no ETag")),
                {| put_pending := rest; put_trace := trace' |}))
  /\ (forall (w : PutWorld) (p : Part) (err : option error) (w' : PutWorld),
         PutPartHash attempts retryable m n partSize md5b64 sha256hex w
         = Some (Returns (p, err), w') ->
         match err with
         | None => ETag p <> "" /\ N p = n /\ Size p = partSize
         | Some _ => p = Part_zero
         end).
Proof.
  split.
  - intros b pre ans hresp rest trace Hb Hpre Hlen Hseek Hprep Hrun Htag.
    unfold PutPartHash. cbn [put_pending put_trace].
    rewrite (PutPartHash_loop_retries m b n partSize md5b64 sha256hex _ _ pre _ Hb Hpre)
      by exact Hlen.
    cbn [Start remaining].
    remember (Budget attempts - List.length pre)%nat as k eqn:Hk.
    destruct k as [|k]; [lia|].
    cbn [PutPartHash_loop Next remaining].
    rewrite Hseek, Hb, Hprep, Hrun. cbn [shouldRetry andb].
    rewrite Htag. cbn [String.eqb]. eauto.
  - intros w p err w'. unfold PutPartHash. apply PutPartHash_loop_result.
Qed.

(** C8.  Every attempt of [PutPartHash] starts by rewinding the payload
    with [Seek(0, 0)]: in the events of a call, [prepare] only ever follows
    such a rewind directly and [run] only that [prepare], and there is one
    rewind per answer consumed, the first attempt included.  When the
    rewind of an attempt fails, the call returns that error with the empty
    [Part] at once: the failed [Seek] is its last event and the answers
    still queued stay untouched. *)
Theorem PutPartHash_rewinds_every_attempt
    (m : Multi) (n partSize : Z) (md5b64 sha256hex : string) :
  (forall (w : PutWorld) (res : go (Part * option error)) (w' : PutWorld),
      PutPartHash attempts retryable m n partSize md5b64 sha256hex w = Some (res, w') ->
      exists new,
        put_trace w' = put_trace w ++ new
        /\ rewinds_before_sending Fresh new = true
        /\ List.length (put_pending w)
           = (List.length (put_pending w') + count_seeks new)%nat)
  /\ (forall (b : Bucket) (pre : list putAnswer) (ans : putAnswer) (e : error)
             (rest : list putAnswer) (trace : list event),
         Multi_Bucket m = Some b ->
         forallb (put_retry_fail retryable) pre = true ->
         (List.length pre < Budget attempts)%nat ->
         seek_err ans = Some e ->
         PutPartHash attempts retryable m n partSize md5b64 sha256hex
           {| put_pending := pre ++ ans :: rest; put_trace := trace |}
         = Some (Returns (Part_zero, Some e),
                 {| put_pending := rest;
                    put_trace :=
                      (trace
                       ++ flat_map (fun _ => put_attempt_events
                                               (put_request b (Key m) (UploadId m) n partSize
                                                            md5b64 sha256hex))
                                   pre)
                      ++ [EvSeek 0 0] |})).
Proof.
  split.
  - intros w res w'. unfold PutPartHash. apply PutPartHash_loop_trace.
  - intros b pre ans e rest trace Hb Hpre Hlen Hseek.
    unfold PutPartHash. cbn [put_pending put_trace].
    rewrite (PutPartHash_loop_retries m b n partSize md5b64 sha256hex _ _ pre _ Hb Hpre)
      by exact Hlen.
    cbn [Start remaining].
    remember (Budget attempts - List.length pre)%nat as k eqn:Hk.
    destruct k as [|k]; [lia|].
    cbn [PutPartHash_loop Next remaining].
    rewrite Hseek. reflexivity.
Qed.

End MultipartFacts.

(** * Signature Version 4 *)

(** ** Strings *)

Lemma lower_byte_idempotent (c : ascii) : lower_byte (lower_byte c) = lower_byte c.
Proof. destruct c as [[] [] [] [] [] [] [] []]; reflexivity. Qed.

Lemma lower_byte_ASCII (c : ascii) : (lower_byte c <? "128")%char = (c <? "128")%char.
Proof. destruct c as [[] [] [] [] [] [] [] []]; reflexivity. Qed.

Lemma isASCII_lower (s : string) : isASCII (map_bytes lower_byte s) = isASCII s.
Proof.
  induction s as [|c s IH]; [reflexivity|].
  cbn [map_bytes isASCII]. now rewrite lower_byte_ASCII, IH.
Qed.

Lemma map_bytes_lower_idempotent (s : string) :
  map_bytes lower_byte (map_bytes lower_byte s) = map_bytes lower_byte s.
Proof.
  induction s as [|c s IH]; [reflexivity|].
  cbn [map_bytes]. now rewrite lower_byte_idempotent, IH.
Qed.

(** On ASCII text [strings.ToLower] gives text it leaves alone, whatever the
    tables of package unicode hold. *)
Lemma ToLower_idempotent_ASCII {U : UnicodeTables} (s : string) :
  isASCII s = true -> ToLower (ToLower s) = ToLower s.
Proof.
  intros Hs. unfold ToLower. rewrite Hs, isASCII_lower, Hs.
  apply map_bytes_lower_idempotent.
Qed.

Lemma sort_Strings_in (l : list string) (x : string) :
  In x (sort_Strings l) <-> In x l.
Proof.
  unfold sort_Strings. split; intros H.
  - eapply Permutation_in; [apply Permutation_sym, StringSort.Permuted_sort|exact H].
  - eapply Permutation_in; [apply StringSort.Permuted_sort|exact H].
Qed.

Lemma Replace_plus_pct20 (s : string) : Replace s "+" "%20" = replace_plus s.
Proof.
  unfold Replace. induction s as [|c s IH]; [reflexivity|].
  cbn [replace_from replace_plus String.prefix String.length Nat.sub].
  destruct (ascii_dec "+" c) as [<-|Hne].
  - assert (Hp : String.prefix "" s = true) by (destruct s; reflexivity).
    rewrite Hp, IH. reflexivity.
  - rewrite IH. destruct (Ascii.eqb_spec c "+") as [->|_]; [contradiction|reflexivity].
Qed.

Lemma replace_plus_app (a b : string) :
  replace_plus (a ++ b) = (replace_plus a ++ replace_plus b)%string.
Proof.
  induction a as [|c a IH]; simpl; [reflexivity|].
  rewrite IH. destruct (c =? "+")%char; reflexivity.
Qed.

Lemma replace_plus_Join (l : list string) :
  replace_plus (Join l "&") = Join (List.map replace_plus l) "&".
Proof.
  unfold Join. induction l as [|x l IH]; [reflexivity|].
  destruct l as [|y l]; [reflexivity|].
  change (String.concat "&" (x :: y :: l))
    with (x ++ "&" ++ String.concat "&" (y :: l))%string.
  rewrite !replace_plus_app, IH. reflexivity.
Qed.

Lemma replace_plus_escape_byte (c : ascii) :
  replace_plus (escape_byte c) = escape_byte_pct20 c.
Proof. destruct c as [[] [] [] [] [] [] [] []]; reflexivity. Qed.

Lemma replace_plus_QueryEscape (s : string) :
  replace_plus (QueryEscape s) = escape_pct20 s.
Proof.
  induction s as [|c s IH]; simpl; [reflexivity|].
  now rewrite replace_plus_app, replace_plus_escape_byte, IH.
Qed.

Lemma replace_plus_has_no_plus (s : string) :
  has_byte "+" (replace_plus s) = false.
Proof.
  unfold has_byte. induction s as [|c s IH]; [reflexivity|].
  cbn [replace_plus].
  destruct (Ascii.eqb_spec c "+") as [->|Hne].
  - simpl. exact IH.
  - cbn [list_ascii_of_string existsb]. rewrite IH.
    rewrite (proj2 (Ascii.eqb_neq "+" c)); [reflexivity|]. congruence.
Qed.

(** ** The canonical query string *)

Lemma map_set_map_values (f : string -> string) (k v : string) (m : gomap string) :
  map_set k (f v) (map_values f m) = map_values f (map_set k v m).
Proof.
  unfold map_values. induction m as [|[k' v'] m IH]; simpl; [reflexivity|].
  destruct (k' =? k)%string; simpl; [reflexivity|]. now rewrite IH.
Qed.

Lemma map_index_str_map_values (f : string -> string) (k : string) (m : gomap string) :
  f "" = "" ->
  map_index_str k (map_values f m) = f (map_index_str k m).
Proof.
  intros Hf. unfold map_index_str, map_values.
  induction m as [|[k' v'] m IH]; simpl; [now rewrite Hf|].
  destruct (k' =? k)%string; [reflexivity|exact IH].
Qed.

Lemma canonicalQueryString_step_pct20 (keyValues : gomap string) (keys : list string)
    (entry : string * list string) :
  canonicalQueryString_pct20_step (map_values replace_plus keyValues, keys) entry
  = (map_values replace_plus (fst (canonicalQueryString_step (keyValues, keys) entry)),
     snd (canonicalQueryString_step (keyValues, keys) entry)).
Proof.
  destruct entry as [k vs]. simpl. f_equal.
  rewrite <- map_set_map_values. f_equal.
  rewrite replace_plus_Join, map_map. f_equal.
  apply map_ext. intros v.
  rewrite replace_plus_app. simpl. now rewrite !replace_plus_QueryEscape.
Qed.

Lemma canonicalQueryString_fold_pct20 (query_map : Values) :
  forall (keyValues : gomap string) (keys : list string),
    fold_left canonicalQueryString_pct20_step query_map
              (map_values replace_plus keyValues, keys)
    = (map_values replace_plus
         (fst (fold_left canonicalQueryString_step query_map (keyValues, keys))),
       snd (fold_left canonicalQueryString_step query_map (keyValues, keys))).
Proof.
  induction query_map as [|entry query_map IH]; intros keyValues keys; [reflexivity|].
  cbn [fold_left]. rewrite canonicalQueryString_step_pct20.
  destruct (canonicalQueryString_step (keyValues, keys) entry) as [kv ks].
  apply IH.
Qed.

(** The rewriting pass of [canonicalQueryString] amounts to encoding every
    name and value with [%20] for the space in the first place. *)
Lemma canonicalQueryString_of_pct20 (query_map : Values) :
  canonicalQueryString_of query_map = canonicalQueryString_pct20 query_map.
Proof.
  unfold canonicalQueryString_of, canonicalQueryString_pct20.
  match goal with
  | |- context [fold_left canonicalQueryString_step query_map ?x] =>
      set (F := fold_left canonicalQueryString_step query_map x)
  end.
  match goal with
  | |- context [fold_left canonicalQueryString_pct20_step query_map ?y] =>
      replace (fold_left canonicalQueryString_pct20_step query_map y)
        with (map_values replace_plus (fst F), snd F)
        by (symmetry; exact (canonicalQueryString_fold_pct20 query_map [] []))
  end.
  destruct F as [kv ks]. cbn [fst snd].
  rewrite Replace_plus_pct20, replace_plus_Join, map_map. f_equal.
  apply map_ext. intros key. symmetry. now apply map_index_str_map_values.
Qed.

(** C9.  Whatever the query mapping, the canonical query string is the one
    obtained by percent-encoding every name and every value with [%20] for
    each space, and it contains no [+] at all: a space of the input never
    shows up as [+]. *)
Theorem canonicalQueryString_space_is_pct20 (query_map : Values) :
  canonicalQueryString_of query_map = canonicalQueryString_pct20 query_map
  /\ has_byte "+" (canonicalQueryString_of query_map) = false
  /\ escape_pct20 " " = "%20".
Proof.
  split; [apply canonicalQueryString_of_pct20|]. split; [|reflexivity].
  unfold canonicalQueryString_of.
  match goal with
  | |- context [fold_left canonicalQueryString_step query_map ?x] =>
      destruct (fold_left canonicalQueryString_step query_map x) as [kv ks]
  end.
  rewrite Replace_plus_pct20. apply replace_plus_has_no_plus.
Qed.

(** C3.  [canonicalQueryString] emits the values of a name in the order
    they were supplied, not in sorted order: for the name [a], the values
    [2, 1] give [a=2&a=1] and the values [1, 2] give [a=1&a=2], so the text
    changes with the order of the values. *)
Theorem canonicalQueryString_keeps_supplied_value_order :
  canonicalQueryString_of [("a", ["2"; "1"])] = "a=2&a=1"
  /\ canonicalQueryString_of [("a", ["1"; "2"])] = "a=1&a=2"
  /\ (forall (k : string) (vs : list string),
         canonicalQueryString_of [(k, vs)]
         = Join (List.map (fun v => (escape_pct20 k ++ "=" ++ escape_pct20 v)%string) vs) "&").
Proof.
  split; [reflexivity|]. split; [reflexivity|].
  intros k vs. rewrite canonicalQueryString_of_pct20.
  unfold canonicalQueryString_pct20. cbn [fold_left canonicalQueryString_pct20_step app].
  change (sort_Strings [QueryEscape k]) with [QueryEscape k].
  cbn [List.map map_set]. unfold map_index_str. cbn [map_get].
  rewrite String.eqb_refl. reflexivity.
Qed.

(** ** Canonical headers and the signed-header list *)

Section CanonicalHeaderFacts.

Context {U : UnicodeTables}.

Lemma map_get_set (V : Type) (k k' : string) (v : V) (m : gomap V) :
  map_get k (map_set k' v m) = if (k' =? k)%string then Some v else map_get k m.
Proof.
  induction m as [|[k0 v0] m IH]; simpl; [reflexivity|].
  destruct (String.eqb_spec k0 k') as [->|Hne]; simpl.
  - destruct (k' =? k)%string; reflexivity.
  - destruct (String.eqb_spec k0 k) as [->|Hne2].
    + destruct (String.eqb_spec k' k) as [->|_]; [contradiction|reflexivity].
    + exact IH.
Qed.

Lemma map_get_del_other (V : Type) (k k' : string) (m : gomap V) :
  k <> k' -> map_get k (map_del k' m) = map_get k m.
Proof.
  intros Hne. induction m as [|[k0 v0] m IH]; simpl; [reflexivity|].
  destruct (String.eqb_spec k0 k') as [->|Hne2]; simpl.
  - destruct (String.eqb_spec k' k) as [->|_]; [contradiction|exact IH].
  - now rewrite IH.
Qed.

Lemma lowerCase_fold_keys (h : Header) :
  forall (acc : gomap string) (x : string),
    In x (map_keys (fold_left (fun lowerCase (kv : string * list string) =>
                                 map_set (ToLower (fst kv)) (fst kv) lowerCase) h acc))
    <-> In x (map_keys acc) \/ In x (List.map ToLower (map_keys h)).
Proof.
  induction h as [|[k v] h IH]; intros acc x; simpl; [tauto|].
  rewrite IH, map_set_keys_in. intuition.
Qed.

Lemma lowerCase_of_keys (h : Header) (x : string) :
  In x (map_keys (lowerCase_of h)) <-> In x (List.map ToLower (map_keys h)).
Proof.
  unfold lowerCase_of. rewrite lowerCase_fold_keys. simpl. tauto.
Qed.

Lemma lowerCase_fold_values (h0 h : Header) :
  forall acc : gomap string,
    (forall k k0, map_get k acc = Some k0 -> In k0 (map_keys h0)) ->
    incl (map_keys h) (map_keys h0) ->
    forall k k0,
      map_get k (fold_left (fun lowerCase (kv : string * list string) =>
                              map_set (ToLower (fst kv)) (fst kv) lowerCase) h acc)
      = Some k0 ->
      In k0 (map_keys h0).
Proof.
  induction h as [|[k1 v1] h IH]; intros acc Hacc Hincl k k0; simpl.
  - apply Hacc.
  - apply IH.
    + intros k' k0'. rewrite map_get_set.
      destruct (ToLower k1 =? k')%string.
      * intros [= <-]. apply Hincl. now left.
      * apply Hacc.
    + intros x Hx. apply Hincl. now right.
Qed.

Lemma lowerCase_of_values (h : Header) (k : string) :
  In k (map_keys (lowerCase_of h)) ->
  In (map_index_str k (lowerCase_of h)) (map_keys h).
Proof.
  intros Hin. destruct (map_get_in_keys _ k (lowerCase_of h) Hin) as [k0 Hget].
  unfold map_index_str. rewrite Hget.
  apply (lowerCase_fold_values h h []) with (k := k); [discriminate|apply incl_refl|exact Hget].
Qed.

Lemma canonicalHeaders_fold_names (lowerCase : gomap string) (keys : list string) :
  forall (a : list (string * string)) (h : Header),
    List.map fst (fst (fold_left (canonicalHeaders_step lowerCase) keys (a, h)))
    = List.map fst a ++ List.map ToLower keys.
Proof.
  induction keys as [|k keys IH]; intros a h; simpl.
  - now rewrite app_nil_r.
  - rewrite IH, map_app, <- app_assoc. reflexivity.
Qed.

Lemma canonicalHeaders_fold_keys (lowerCase : gomap string) (keys : list string) :
  forall (a : list (string * string)) (h : Header),
    (forall k, In k keys -> In (map_index_str k lowerCase) (map_keys h)) ->
    map_keys (snd (fold_left (canonicalHeaders_step lowerCase) keys (a, h))) = map_keys h.
Proof.
  induction keys as [|k keys IH]; intros a h Hin; simpl; [reflexivity|].
  assert (Hk : map_keys (map_set (map_index_str k lowerCase)
                                 (sort_Strings (List.map Trim_space
                                                  (map_index (map_index_str k lowerCase) h))) h)
               = map_keys h)
    by (apply map_set_keys_present, Hin; now left).
  rewrite IH; [exact Hk|].
  intros k' Hk'. rewrite Hk. apply Hin. now right.
Qed.

(** The header map after [canonicalHeaders] has the keys it had before. *)
Lemma canonicalHeaders_keeps_keys (h : Header) :
  map_keys (snd (canonicalHeaders h)) = map_keys h.
Proof.
  unfold canonicalHeaders.
  destruct (canonicalHeaders_entries h) as [entries h'] eqn:E. cbn [snd].
  change h' with (snd (entries, h')). rewrite <- E.
  unfold canonicalHeaders_entries. apply canonicalHeaders_fold_keys.
  intros k Hk. apply lowerCase_of_values. now apply sort_Strings_in.
Qed.

Lemma string_leb_trans (a b c : string) :
  String.leb a b = true -> String.leb b c = true -> String.leb a c = true.
Proof.
  revert b c. induction a as [|x a IH]; intros [|y b] [|z c];
    unfold String.leb in *; simpl; try (intros; reflexivity); try discriminate.
  unfold Ascii.compare.
  destruct (N.compare_spec (N_of_ascii x) (N_of_ascii y)) as [Exy|Lxy|Gxy];
    destruct (N.compare_spec (N_of_ascii y) (N_of_ascii z)) as [Eyz|Lyz|Gyz];
    try discriminate.
  - rewrite Exy, Eyz, N.compare_refl. apply IH.
  - rewrite Exy. rewrite (proj2 (N.compare_lt_iff _ _) Lyz). reflexivity.
  - rewrite <- Eyz. rewrite (proj2 (N.compare_lt_iff _ _) Lxy). reflexivity.
  - rewrite (proj2 (N.compare_lt_iff _ _) (N.lt_trans _ _ _ Lxy Lyz)). reflexivity.
Qed.

Lemma sort_Strings_sorted (l : list string) :
  StronglySorted (fun x y => String.leb x y = true) (sort_Strings l).
Proof.
  apply StringSort.StronglySorted_sort.
  intros a b c. apply string_leb_trans.
Qed.

Lemma sorted_strings_unique (l l' : list string) :
  StronglySorted (fun x y => String.leb x y = true) l ->
  StronglySorted (fun x y => String.leb x y = true) l' ->
  Permutation l l' ->
  l = l'.
Proof.
  intros Hs. revert l'. induction Hs as [|a l Hs IH Ha]; intros l' Hs' Hp.
  - now apply Permutation_nil in Hp.
  - destruct Hs' as [|b l' Hs' Hb].
    + apply Permutation_sym, Permutation_nil in Hp. discriminate.
    + rewrite Forall_forall in Ha, Hb.
      assert (Hab : a = b).
      { assert (Hin_b : In b (a :: l))
          by (apply (Permutation_in b (Permutation_sym Hp)); now left).
        assert (Hin_a : In a (b :: l'))
          by (apply (Permutation_in a Hp); now left).
        destruct Hin_b as [Heq|Hin_b]; [exact Heq|].
        destruct Hin_a as [Heq|Hin_a]; [now symmetry|].
        apply String.leb_antisym; auto. }
      subst b. f_equal. apply IH; [exact Hs'|].
      now apply Permutation_cons_inv in Hp.
Qed.

(** [sort.Strings] depends on the contents of the slice only. *)
Lemma sort_Strings_permutation (l l' : list string) :
  Permutation l l' -> sort_Strings l = sort_Strings l'.
Proof.
  intros Hp. apply sorted_strings_unique; try apply sort_Strings_sorted.
  unfold sort_Strings.
  eapply Permutation_trans; [apply Permutation_sym, StringSort.Permuted_sort|].
  eapply Permutation_trans; [exact Hp|apply StringSort.Permuted_sort].
Qed.

Lemma map_set_keys_NoDup (V : Type) (k : string) (v : V) (m : gomap V) :
  NoDup (map_keys m) -> NoDup (map_keys (map_set k v m)).
Proof.
  induction m as [|[k' v'] m IH]; simpl; intros Hnd.
  - repeat constructor. simpl. tauto.
  - inversion Hnd as [|? ? Hnotin Hnd']; subst.
    destruct (String.eqb_spec k' k) as [->|Hne]; simpl.
    + now constructor.
    + constructor; [|now apply IH].
      intros Hin. apply map_set_keys_in in Hin. destruct Hin as [->|Hin]; auto.
Qed.

Lemma lowerCase_fold_NoDup (h : Header) :
  forall acc : gomap string,
    NoDup (map_keys acc) ->
    NoDup (map_keys (fold_left (fun lowerCase (kv : string * list string) =>
                                  map_set (ToLower (fst kv)) (fst kv) lowerCase) h acc)).
Proof.
  induction h as [|[k v] h IH]; intros acc Hnd; simpl; [exact Hnd|].
  apply IH. now apply map_set_keys_NoDup.
Qed.

(** Without two keys that differ only in case, the loop writes one line per
    key and the block has no empty slot. *)
Lemma canonicalHeaders_no_empty_slot (h : Header) :
  NoDup (List.map ToLower (map_keys h)) ->
  List.length (fst (canonicalHeaders_entries h)) = List.length h.
Proof.
  intros Hnd.
  rewrite <- (length_map fst (fst (canonicalHeaders_entries h))).
  unfold canonicalHeaders_entries.
  rewrite canonicalHeaders_fold_names. cbn [List.map app].
  rewrite length_map. unfold sort_Strings.
  rewrite <- (Permutation_length (StringSort.Permuted_sort _)).
  assert (Hperm : Permutation (map_keys (lowerCase_of h)) (List.map ToLower (map_keys h))).
  { apply NoDup_Permutation; [|exact Hnd|apply lowerCase_of_keys].
    apply lowerCase_fold_NoDup. constructor. }
  rewrite (Permutation_length Hperm).
  unfold map_keys. now rewrite !length_map.
Qed.

(** When, besides, the lowered names are names that [strings.ToLower]
    leaves alone, the names of the lines are the names of the signed-header
    list, one for one and in that order. *)
Lemma canonicalHeaders_names_exact (h : Header) :
  (forall k : string, In k (map_keys h) -> ToLower (ToLower k) = ToLower k) ->
  NoDup (List.map ToLower (map_keys h)) ->
  List.map fst (fst (canonicalHeaders_entries h)) = signedHeaderNames h.
Proof.
  intros Hidem Hnd. unfold canonicalHeaders_entries, signedHeaderNames.
  rewrite canonicalHeaders_fold_names. cbn [List.map app].
  assert (Hperm : Permutation (map_keys (lowerCase_of h)) (List.map ToLower (map_keys h))).
  { apply NoDup_Permutation; [|exact Hnd|apply lowerCase_of_keys].
    apply lowerCase_fold_NoDup. constructor. }
  rewrite <- (sort_Strings_permutation _ _ Hperm).
  rewrite <- (map_id (sort_Strings (map_keys (lowerCase_of h)))) at 2.
  apply map_ext_in. intros k Hk.
  apply sort_Strings_in, lowerCase_of_keys, in_map_iff in Hk.
  destruct Hk as (k0 & <- & Hk0). now apply Hidem.
Qed.

(** C2.  For every header mapping: the text [signedHeaders] returns is the
    lowercased keys, sorted and joined with semicolons; the text
    [canonicalHeaders] returns is the lines the loop has written (and an
    empty slot for every key that another key equals up to case, none when
    no two keys do); the signed-header list comes out the same whether it is
    taken before or after the block is built.  When the lowered names are
    names that [strings.ToLower] leaves alone (every ASCII name is one), a
    name is in the signed-header list exactly when the block has a line for
    it; and when, besides, no two keys differ only in case, the list is the
    names of the lines, one for one and in order. *)
Theorem signedHeaders_names_canonicalHeaders_lines (h : Header) :
  signedHeaders h = Join (sort_Strings (List.map ToLower (map_keys h))) ";"
  /\ signedHeaderNames h = sort_Strings (List.map ToLower (map_keys h))
  /\ fst (canonicalHeaders h)
     = Join (List.map header_line (fst (canonicalHeaders_entries h))
             ++ List.repeat "" (List.length h
                                - List.length (fst (canonicalHeaders_entries h))))
            LF
  /\ signedHeaders (snd (canonicalHeaders h)) = signedHeaders h
  /\ (NoDup (List.map ToLower (map_keys h)) ->
      fst (canonicalHeaders h)
      = Join (List.map header_line (fst (canonicalHeaders_entries h))) LF)
  /\ ((forall k : string, In k (map_keys h) -> ToLower (ToLower k) = ToLower k) ->
      (forall name : string,
          In name (sort_Strings (List.map ToLower (map_keys h)))
          <-> In name (List.map fst (fst (canonicalHeaders_entries h))))
      /\ (NoDup (List.map ToLower (map_keys h)) ->
          signedHeaderNames h = List.map fst (fst (canonicalHeaders_entries h))
          /\ signedHeaders h
             = Join (List.map fst (fst (canonicalHeaders_entries h))) ";")).
Proof.
  assert (Hblock : fst (canonicalHeaders h)
                   = Join (List.map header_line (fst (canonicalHeaders_entries h))
                           ++ List.repeat "" (List.length h
                                              - List.length (fst (canonicalHeaders_entries h))))
                          LF).
  { unfold canonicalHeaders. destruct (canonicalHeaders_entries h) as [entries h'].
    reflexivity. }
  split; [reflexivity|]. split; [reflexivity|]. split; [exact Hblock|].
  split; [unfold signedHeaders, signedHeaderNames; now rewrite canonicalHeaders_keeps_keys|].
  split.
  - intros Hnd. rewrite Hblock, (canonicalHeaders_no_empty_slot h Hnd), Nat.sub_diag.
    cbn [List.repeat]. now rewrite app_nil_r.
  - intros Hidem. split.
    + intros name. unfold canonicalHeaders_entries.
      rewrite canonicalHeaders_fold_names. cbn [List.map app].
      rewrite sort_Strings_in, !in_map_iff. split.
      * intros (k & Hk & Hin). exists (ToLower k). split.
        -- rewrite (Hidem k Hin). exact Hk.
        -- apply sort_Strings_in, lowerCase_of_keys. now apply in_map.
      * intros (k & Hk & Hin).
        apply sort_Strings_in, lowerCase_of_keys, in_map_iff in Hin.
        destruct Hin as (k0 & <- & Hin0). exists k0. split; [|exact Hin0].
        rewrite (Hidem k0 Hin0) in Hk. exact Hk.
    + intros Hnd.
      pose proof (canonicalHeaders_names_exact h Hidem Hnd) as Hnames.
      split; [now symmetry|]. unfold signedHeaders. now rewrite Hnames.
Qed.

(** ** Signing *)

Lemma map_get_in_map_keys (V : Type) (k : string) (v : V) (m : gomap V) :
  map_get k m = Some v -> In k (map_keys m).
Proof.
  induction m as [|[k' v'] m IH]; simpl; [discriminate|].
  destruct (String.eqb_spec k' k) as [->|_]; [now left|].
  intros H. right. now apply IH.
Qed.

Lemma Host_key_is_signed (h : Header) (v : list string) :
  map_get "Host" h = Some v -> In "host" (signedHeaderNames h).
Proof.
  intros Hget. unfold signedHeaderNames. apply sort_Strings_in.
  change "host" with (ToLower "Host"). apply in_map.
  exact (map_get_in_map_keys _ _ _ _ Hget).
Qed.

End CanonicalHeaderFacts.

Section SignFacts.

Context {U : UnicodeTables}.
Variable Time : Type.
Variable time_Parse : string -> string -> option Time.
Variable time_Format : Time -> string -> string.
Variable sha256_Sum : string -> string.
Variable hmac_sha256 : string -> string -> string.
Variable hex : string -> string.
Variable url_String : string -> string.
Variable path_Clean : string -> string.
Variable url_Query : URL -> Values.
Variable Values_Encode : Values -> string.

Local Abbreviation Sign_prepare' :=
  (Sign_prepare time_Parse time_Format sha256_Sum hex Values_Encode).
Local Abbreviation Sign' :=
  (Sign time_Parse time_Format sha256_Sum hmac_sha256 hex url_String path_Clean
        url_Query Values_Encode).

Lemma requestTime_keeps_host (now : Time) (req : Request) :
  let req' := snd (requestTime time_Parse time_Format now req) in
  map_get "Host" (req_Header req') = map_get "Host" (req_Header req)
  /\ Host req' = Host req
  /\ Form req' = Form req.
Proof.
  unfold requestTime.
  destruct (time_Parse ISO8601BasicFormat _); [repeat split|].
  destruct (time_Parse http_TimeFormat _).
  { cbn. unfold Header_Set. rewrite map_get_set. repeat split. }
  destruct (time_Parse http_TimeFormat _); [repeat split|].
  cbn. unfold Header_Set. rewrite map_get_set. repeat split.
Qed.

(** What [Sign] has set up when it starts to canonicalize. *)
Lemma Sign_prepare_host (s : V4Signer) (now : Time) (req : Request) (payloadHash : string) :
  let prepared := snd (Sign_prepare' s now req payloadHash) in
  map_get "Host" (req_Header prepared) = Some [Host req]
  /\ presigning prepared = presigning req
  /\ (presigning req = true ->
      map_get "X-Amz-SignedHeaders" (Form prepared)
      = Some [signedHeaders (req_Header prepared)]).
Proof.
  unfold Sign_prepare.
  set (req0 := with_Header (Header_Set "host" (Host req) (req_Header req)) req).
  assert (H0 : map_get "Host" (req_Header req0) = Some [Host req])
    by (unfold req0, Header_Set; cbn; apply map_get_set_same).
  destruct (requestTime_keeps_host now req0) as (Hh & _ & Hf).
  destruct (requestTime time_Parse time_Format now req0) as [t req1].
  cbn [snd] in Hh, Hf.
  assert (Hp : presigning req1 = presigning req)
    by (unfold presigning; rewrite Hf; reflexivity).
  rewrite Hp. destruct (presigning req) eqn:Hpre; cbn [snd].
  - split; [|split].
    + cbn. unfold Header_Del. rewrite map_get_del_other by discriminate.
      now rewrite Hh.
    + unfold presigning in *. cbn. rewrite !map_get_set. cbn.
      rewrite Hf. exact Hpre.
    + intros _. cbn. rewrite !map_get_set. reflexivity.
  - split; [|split].
    + cbn. unfold Header_Set. rewrite map_get_set. cbn. now rewrite Hh.
    + cbn. exact Hp.
    + discriminate.
Qed.

(** Whatever is stored under the canonical key does not reach the signer. *)
Lemma Sign_prepare_overwrites (s : V4Signer) (now : Time) (req : Request)
    (payloadHash : string) (vs : list string) :
  Sign_prepare' s now (with_Header (map_set "Host" vs (req_Header req)) req) payloadHash
  = Sign_prepare' s now req payloadHash.
Proof.
  unfold Sign_prepare.
  set (r := with_Header (map_set "Host" vs (req_Header req)) req).
  replace (with_Header (Header_Set "host" (Host r) (req_Header r)) r)
    with (with_Header (Header_Set "host" (Host req) (req_Header req)) req);
    [reflexivity|].
  unfold r, with_Header, Header_Set.
  change (CanonicalMIMEHeaderKey "host") with "Host".
  cbn [Method Host req_Header Form req_URL]. now rewrite map_set_set_same.
Qed.

End SignFacts.

(** * More on the multipart operations *)

Section MultipartBehaviour.

Variable attempts : AttemptStrategy.
Variable retryable : error -> bool.
Variable sort_Sort : forall A : Type, (A -> A -> bool) -> list A -> list A.
Variable listMultiMax : Z.
Variable listPartsMax : Z.

(** ** The trap after the loops *)

Ltac returned :=
  let H := fresh in intros H; inversion H; subst; unfold nil_dereference; discriminate.

Lemma HasNext_positive (k : nat) (c : bool) :
  c && HasNext {| remaining := k |} = true -> (0 < k)%nat.
Proof.
  destruct k; simpl; [rewrite andb_false_r; discriminate|lia].
Qed.

Lemma ListParts_loop_no_trap (m : Multi) (script : list answer) :
  forall (log : list request) (a : Attempt) (params : gomap (list string))
         (parts : list Part) (res : go (list Part * option error)) (w' : World),
    (0 < Budget attempts)%nat ->
    (0 < remaining a)%nat ->
    ListParts_loop attempts retryable sort_Sort m script log a params parts = Some (res, w') ->
    res <> Panics "unreachable".
Proof.
  induction script as [|ans script IH]; intros log a params parts res w' Hb Ha;
    destruct a as [[|k]]; simpl in Ha; try lia; simpl.
  - destruct (Multi_Bucket m); [discriminate|returned].
  - destruct (Multi_Bucket m) as [b|]; [|returned].
    destruct (query ans) as [err resp_body].
    destruct (shouldRetry retryable err && HasNext {| remaining := k |}) eqn:E.
    + apply HasNext_positive in E. now apply IH.
    + destruct err; [returned|].
      destruct (negb (listParts_IsTruncated (decode_listPartsResp resp_body)));
        [returned|now apply IH].
Qed.

Lemma ListMulti_loop_no_trap (b : Bucket) (script : list answer) :
  forall (log : list request) (a : Attempt) (params : gomap (list string))
         (multis : list Multi) (prefixes : list string)
         (res : go (list Multi * list string * option error)) (w' : World),
    (0 < Budget attempts)%nat ->
    (0 < remaining a)%nat ->
    ListMulti_loop attempts retryable b script log a params multis prefixes = Some (res, w') ->
    res <> Panics "unreachable".
Proof.
  induction script as [|ans script IH]; intros log a params multis prefixes res w' Hb Ha;
    destruct a as [[|k]]; simpl in Ha; try lia; simpl; [discriminate|].
  destruct (query ans) as [err resp_body].
  destruct (shouldRetry retryable err && HasNext {| remaining := k |}) eqn:E.
  - apply HasNext_positive in E. now apply IH.
  - destruct err; [returned|].
    destruct (negb (listMulti_IsTruncated (decode_listMultiResp resp_body)));
      [returned|now apply IH].
Qed.

Lemma Complete_loop_no_trap (m : Multi) (headers params : gomap (list string))
    (data : string) (script : list answer) :
  forall (log : list request) (a : Attempt) (res : go (option error)) (w' : World),
    (0 < remaining a)%nat ->
    Complete_loop retryable m headers params data script log a = Some (res, w') ->
    res <> Panics "unreachable".
Proof.
  induction script as [|ans script IH]; intros log a res w' Ha;
    destruct a as [[|k]]; simpl in Ha; try lia; simpl.
  - destruct (Multi_Bucket m); [discriminate|returned].
  - destruct (Multi_Bucket m) as [b|]; [|returned].
    destruct (shouldRetry retryable (fst (query ans)) && HasNext {| remaining := k |}) eqn:E.
    + apply HasNext_positive in E. now apply IH.
    + returned.
Qed.

Lemma Abort_loop_no_trap (m : Multi) (params : gomap (list string)) (script : list answer) :
  forall (log : list request) (a : Attempt) (res : go (option error)) (w' : World),
    (0 < remaining a)%nat ->
    Abort_loop retryable m params script log a = Some (res, w') ->
    res <> Panics "unreachable".
Proof.
  induction script as [|ans script IH]; intros log a res w' Ha;
    destruct a as [[|k]]; simpl in Ha; try lia; simpl.
  - destruct (Multi_Bucket m); [discriminate|returned].
  - destruct (Multi_Bucket m) as [b|]; [|returned].
    destruct (shouldRetry retryable (fst (query ans)) && HasNext {| remaining := k |}) eqn:E.
    + apply HasNext_positive in E. now apply IH.
    + returned.
Qed.

Lemma PutPartHash_loop_no_trap (m : Multi) (n partSize : Z) (md5b64 sha256hex : string)
    (headers params : gomap (list string)) (script : list putAnswer) :
  forall (trace : list event) (a : Attempt) (res : go (Part * option error)) (w' : PutWorld),
    (0 < remaining a)%nat ->
    PutPartHash_loop retryable m n partSize md5b64 sha256hex headers params script trace a
    = Some (res, w') ->
    res <> Panics "unreachable".
Proof.
  induction script as [|ans script IH]; intros trace a res w' Ha;
    destruct a as [[|k]]; simpl in Ha; try lia; simpl; [discriminate|].
  destruct (seek_err ans); [returned|].
  destruct (Multi_Bucket m) as [b|]; [|returned].
  destruct (prepare_err ans); [returned|].
  destruct (shouldRetry retryable
              match run_res ans with inl e => Some e | inr _ => None end
            && HasNext {| remaining := k |}) eqn:E.
  - apply HasNext_positive in E. now apply IH.
  - destruct (run_res ans); [returned|].
    destruct (Header_Get "ETag" (resp_Header h) =? "")%string; returned.
Qed.

(** X1.  With a strategy that grants at least one attempt, none of the
    retry loops of [ListParts], [ListMulti], [Complete], [Abort] and
    [PutPartHash] falls through to its [panic("unreachable")]: a call that
    comes back has returned, or has met a nil bucket. *)
Theorem retry_loops_never_fall_through :
  (0 < Budget attempts)%nat ->
  (forall (m : Multi) (w : World) (res : go (list Part * option error)) (w' : World),
      ListParts attempts retryable sort_Sort listPartsMax m w = Some (res, w') ->
      res <> Panics "unreachable")
  /\ (forall (b : Bucket) (prefix delim : string) (w : World)
             (res : go (list Multi * list string * option error)) (w' : World),
         ListMulti attempts retryable listMultiMax b prefix delim w = Some (res, w') ->
         res <> Panics "unreachable")
  /\ (forall (m : Multi) (parts : list Part) (w : World) (res : go (option error)) (w' : World),
         Complete attempts retryable sort_Sort m parts w = Some (res, w') ->
         res <> Panics "unreachable")
  /\ (forall (m : Multi) (w : World) (res : go (option error)) (w' : World),
         Abort attempts retryable m w = Some (res, w') ->
         res <> Panics "unreachable")
  /\ (forall (m : Multi) (n partSize : Z) (md5b64 sha256hex : string) (w : PutWorld)
             (res : go (Part * option error)) (w' : PutWorld),
         PutPartHash attempts retryable m n partSize md5b64 sha256hex w = Some (res, w') ->
         res <> Panics "unreachable").
Proof.
  intros Hb. repeat split.
  - intros m w res w'. unfold ListParts. now apply ListParts_loop_no_trap.
  - intros b prefix delim w res w'. unfold ListMulti. now apply ListMulti_loop_no_trap.
  - intros m parts w res w'. cbv beta iota zeta delta [Complete xml_Marshal].
    now apply Complete_loop_no_trap.
  - intros m w res w'. unfold Abort. now apply Abort_loop_no_trap.
  - intros m n partSize md5b64 sha256hex w res w'. unfold PutPartHash.
    now apply PutPartHash_loop_no_trap.
Qed.

(** ** Errors come to the caller *)

Lemma Complete_loop_retries (m : Multi) (b : Bucket) (headers params : gomap (list string))
    (data : string) (fails tail : list answer) :
  Multi_Bucket m = Some b ->
  forallb (retry_fail retryable) fails = true ->
  forall (log : list request) (a : Attempt),
    (List.length fails < remaining a)%nat ->
    Complete_loop retryable m headers params data (fails ++ tail) log a
    = Complete_loop retryable m headers params data tail
        (log ++ List.repeat (complete_request b m headers params data) (List.length fails))
        {| remaining := remaining a - List.length fails |}.
Proof.
  intros Hb. induction fails as [|f fails IH]; intros Hf log a Hlen.
  - simpl. rewrite app_nil_r, Nat.sub_0_r, Attempt_eta. reflexivity.
  - simpl in Hf. apply andb_true_iff in Hf. destruct Hf as [Hf Hfs].
    destruct f as [e|bd]; simpl in Hf; [|discriminate].
    destruct a as [[|n]]; simpl in Hlen; [lia|].
    destruct n as [|n]; [lia|].
    simpl. rewrite Hb. simpl. rewrite Hf. simpl.
    rewrite (IH Hfs) by (simpl; lia).
    unfold complete_request. simpl. rewrite <- app_assoc. reflexivity.
Qed.

Lemma Abort_loop_retries (m : Multi) (b : Bucket) (params : gomap (list string))
    (fails tail : list answer) :
  Multi_Bucket m = Some b ->
  forallb (retry_fail retryable) fails = true ->
  forall (log : list request) (a : Attempt),
    (List.length fails < remaining a)%nat ->
    Abort_loop retryable m params (fails ++ tail) log a
    = Abort_loop retryable m params tail
        (log ++ List.repeat (abort_request b m params) (List.length fails))
        {| remaining := remaining a - List.length fails |}.
Proof.
  intros Hb. induction fails as [|f fails IH]; intros Hf log a Hlen.
  - simpl. rewrite app_nil_r, Nat.sub_0_r, Attempt_eta. reflexivity.
  - simpl in Hf. apply andb_true_iff in Hf. destruct Hf as [Hf Hfs].
    destruct f as [e|bd]; simpl in Hf; [|discriminate].
    destruct a as [[|n]]; simpl in Hlen; [lia|].
    destruct n as [|n]; [lia|].
    simpl. rewrite Hb. simpl. rewrite Hf. simpl.
    rewrite (IH Hfs) by (simpl; lia).
    unfold abort_request. simpl. rewrite <- app_assoc. reflexivity.
Qed.

(** [InitMulti] asks [HasNext] never: a retryable failure always goes back
    to [Next]. *)
Lemma InitMulti_loop_retries (req : request) (fails tail : list answer) :
  forallb (retry_fail retryable) fails = true ->
  forall (log : list request) (a : Attempt) (err : option error) (uploadId : string),
    (List.length fails <= remaining a)%nat ->
    InitMulti_loop retryable req (fails ++ tail) log a err uploadId
    = InitMulti_loop retryable req tail
        (log ++ List.repeat req (List.length fails))
        {| remaining := remaining a - List.length fails |}
        (fold_left (fun _ ans => fst (query ans)) fails err) uploadId.
Proof.
  induction fails as [|f fails IH]; intros Hf log a err uploadId Hlen.
  - simpl. rewrite app_nil_r, Nat.sub_0_r, Attempt_eta. reflexivity.
  - simpl in Hf. apply andb_true_iff in Hf. destruct Hf as [Hf Hfs].
    destruct f as [e|bd]; simpl in Hf; [|discriminate].
    destruct a as [[|n]]; simpl in Hlen; [lia|].
    simpl. rewrite Hf. simpl.
    rewrite (IH Hfs) by (simpl; lia).
    simpl. rewrite <- app_assoc. reflexivity.
Qed.

Lemma gives_up_no_retry_nat (k tried : nat) (e : error) :
  gives_up attempts retryable tried e ->
  (Budget attempts - tried)%nat = S k ->
  shouldRetry retryable (Some e) && HasNext {| remaining := k |} = false.
Proof.
  intros [Hr|Hlast] Hk; simpl.
  - now rewrite Hr.
  - assert (k = 0%nat) by lia. subst k. apply andb_false_r.
Qed.

Lemma gives_up_no_retry (pre : list answer) (e : error) (k : nat) :
  gives_up attempts retryable (List.length pre) e ->
  (Budget attempts - List.length pre)%nat = S k ->
  shouldRetry retryable (Some e) && HasNext {| remaining := k |} = false.
Proof. intros Hg Hk. exact (gives_up_no_retry_nat k _ e Hg Hk). Qed.

(** X2.  In every operation an error that is not retryable, and the error
    of the last attempt the budget allows, comes back to the caller as it
    is, after the retryable failures before it were retried; the listings
    return it with no items, and the answers still queued stay untouched. *)
Theorem errors_come_to_the_caller
    (b : Bucket) (key uploadId : string) (initiated : option string)
    (pre : list answer) (e : error) (rest : list answer) (log : list request) :
  let m := {| Multi_Bucket := Some b; Key := key; UploadId := uploadId;
              Initiated := initiated |} in
  forallb (retry_fail retryable) pre = true ->
  (List.length pre < Budget attempts)%nat ->
  gives_up attempts retryable (List.length pre) e ->
  let w := {| pending := pre ++ inl e :: rest; sent := log |} in
  (exists log',
      ListParts attempts retryable sort_Sort listPartsMax m w
      = Some (Returns ([], Some e), {| pending := rest; sent := log' |}))
  /\ (forall prefix delim : string,
         exists log',
           ListMulti attempts retryable listMultiMax b prefix delim w
           = Some (Returns ([], [], Some e), {| pending := rest; sent := log' |}))
  /\ (forall contType perm : string,
         exists log',
           InitMulti attempts retryable b key contType perm w
           = Some (Returns (None, Some e), {| pending := rest; sent := log' |}))
  /\ (forall parts : list Part,
         exists log',
           Complete attempts retryable sort_Sort m parts w
           = Some (Returns (Some e), {| pending := rest; sent := log' |}))
  /\ (exists log',
         Abort attempts retryable m w
         = Some (Returns (Some e), {| pending := rest; sent := log' |})).
Proof.
  intros m Hpre Hlen Hgive w.
  remember (Budget attempts - List.length pre)%nat as k eqn:Hk.
  destruct k as [|k]; [lia|]. symmetry in Hk.
  pose proof (gives_up_no_retry pre e k Hgive Hk) as Hstop.
  split; [|split; [|split; [|split]]].
  - unfold ListParts. cbn [pending sent w].
    rewrite (ListParts_loop_retries attempts retryable sort_Sort m b pre _ eq_refl Hpre)
      by exact Hlen.
    cbn [Start remaining]. rewrite Hk.
    cbn [ListParts_loop Next remaining Multi_Bucket m query].
    rewrite Hstop. eauto.
  - intros prefix delim. unfold ListMulti. cbn [pending sent w].
    rewrite (ListMulti_loop_retries attempts retryable b pre _ Hpre) by exact Hlen.
    cbn [Start remaining]. rewrite Hk.
    cbn [ListMulti_loop Next remaining query].
    rewrite Hstop. eauto.
  - intros contType perm. unfold InitMulti. cbn [pending sent w].
    rewrite (InitMulti_loop_retries _ pre _ Hpre) by (cbn [Start remaining]; lia).
    cbn [Start remaining]. rewrite Hk.
    cbn [InitMulti_loop Next remaining query decode_UploadId].
    destruct Hgive as [Hr|Hlast].
    + cbn [shouldRetry]. rewrite Hr. cbn [negb]. eauto.
    + assert (k = 0%nat) by lia. subst k.
      cbn [shouldRetry]. destruct (retryable e); cbn [negb]; [|eauto].
      destruct rest; cbn [InitMulti_loop Next remaining]; eauto.
  - intros parts. cbv beta iota zeta delta [Complete xml_Marshal]. cbn [pending sent w].
    rewrite (Complete_loop_retries m b _ _ _ pre _ eq_refl Hpre) by exact Hlen.
    cbn [Start remaining]. rewrite Hk.
    cbn [Complete_loop Next remaining Multi_Bucket m query fst].
    rewrite Hstop. eauto.
  - unfold Abort. cbn [pending sent w].
    rewrite (Abort_loop_retries m b _ pre _ eq_refl Hpre) by exact Hlen.
    cbn [Start remaining]. rewrite Hk.
    cbn [Abort_loop Next remaining Multi_Bucket m query fst].
    rewrite Hstop. eauto.
Qed.

(** ** The budget bounds the attempts *)

Lemma Complete_loop_bound (m : Multi) (headers params : gomap (list string))
    (data : string) (script : list answer) :
  forall (log : list request) (a : Attempt) (res : go (option error)) (w' : World),
    Complete_loop retryable m headers params data script log a = Some (res, w') ->
    exists n,
      (n <= remaining a)%nat
      /\ List.length (sent w') = (List.length log + n)%nat
      /\ List.length script = (List.length (pending w') + n)%nat.
Proof.
  induction script as [|ans script IH]; intros log a res w';
    destruct a as [[|k]]; simpl.
  - intros H. inversion H; subst. exists 0%nat. simpl. lia.
  - destruct (Multi_Bucket m); [discriminate|].
    intros H. inversion H; subst. exists 0%nat. simpl. lia.
  - intros H. inversion H; subst. exists 0%nat. simpl. lia.
  - destruct (Multi_Bucket m) as [b|].
    2:{ intros H. inversion H; subst. exists 0%nat. simpl. lia. }
    destruct (shouldRetry retryable (fst (query ans)) && HasNext {| remaining := k |}).
    + intros H. apply IH in H. destruct H as (n & Hn & Hs & Hp).
      exists (S n). rewrite Hs, Hp, length_app. simpl in *. lia.
    + intros H. inversion H; subst. exists 1%nat. simpl. rewrite length_app. simpl. lia.
Qed.

Lemma Abort_loop_bound (m : Multi) (params : gomap (list string)) (script : list answer) :
  forall (log : list request) (a : Attempt) (res : go (option error)) (w' : World),
    Abort_loop retryable m params script log a = Some (res, w') ->
    exists n,
      (n <= remaining a)%nat
      /\ List.length (sent w') = (List.length log + n)%nat
      /\ List.length script = (List.length (pending w') + n)%nat.
Proof.
  induction script as [|ans script IH]; intros log a res w';
    destruct a as [[|k]]; simpl.
  - intros H. inversion H; subst. exists 0%nat. simpl. lia.
  - destruct (Multi_Bucket m); [discriminate|].
    intros H. inversion H; subst. exists 0%nat. simpl. lia.
  - intros H. inversion H; subst. exists 0%nat. simpl. lia.
  - destruct (Multi_Bucket m) as [b|].
    2:{ intros H. inversion H; subst. exists 0%nat. simpl. lia. }
    destruct (shouldRetry retryable (fst (query ans)) && HasNext {| remaining := k |}).
    + intros H. apply IH in H. destruct H as (n & Hn & Hs & Hp).
      exists (S n). rewrite Hs, Hp, length_app. simpl in *. lia.
    + intros H. inversion H; subst. exists 1%nat. simpl. rewrite length_app. simpl. lia.
Qed.

Lemma InitMulti_loop_bound (req : request) (script : list answer) :
  forall (log : list request) (a : Attempt) (err : option error) (uploadId : string)
         (err' : option error) (uploadId' : string) (w' : World),
    InitMulti_loop retryable req script log a err uploadId = Some (err', uploadId', w') ->
    exists n,
      (n <= remaining a)%nat
      /\ sent w' = log ++ List.repeat req n
      /\ List.length script = (List.length (pending w') + n)%nat.
Proof.
  induction script as [|ans script IH]; intros log a err uploadId err' uploadId' w';
    destruct a as [[|k]]; simpl; try discriminate.
  - intros H. inversion H; subst. exists 0%nat. simpl. rewrite app_nil_r. repeat split; lia.
  - intros H. inversion H; subst. exists 0%nat. simpl. rewrite app_nil_r. repeat split; lia.
  - destruct (query ans) as [e resp_body].
    destruct (negb (shouldRetry retryable e)).
    + intros H. inversion H; subst. exists 1%nat. simpl. repeat split; lia.
    + intros H. apply IH in H. destruct H as (n & Hn & Hs & Hp).
      exists (S n). rewrite Hs, Hp, <- app_assoc. simpl in *. repeat split; lia.
Qed.

Lemma PutPartHash_loop_bound (m : Multi) (n partSize : Z) (md5b64 sha256hex : string)
    (headers params : gomap (list string)) (script : list putAnswer) :
  forall (trace : list event) (a : Attempt) (res : go (Part * option error)) (w' : PutWorld),
    PutPartHash_loop retryable m n partSize md5b64 sha256hex headers params script trace a
    = Some (res, w') ->
    (List.length script <= List.length (put_pending w') + remaining a)%nat.
Proof.
  induction script as [|ans script IH]; intros trace a res w';
    destruct a as [[|k]]; simpl; try discriminate.
  - intros H. inversion H; subst. simpl. lia.
  - intros H. inversion H; subst. simpl. lia.
  - destruct (seek_err ans); [intros H; inversion H; subst; simpl; lia|].
    destruct (Multi_Bucket m); [|intros H; inversion H; subst; simpl; lia].
    destruct (prepare_err ans); [intros H; inversion H; subst; simpl; lia|].
    destruct (shouldRetry retryable
                match run_res ans with inl e => Some e | inr _ => None end
              && HasNext {| remaining := k |}).
    + intros H. apply IH in H. simpl in H. lia.
    + destruct (run_res ans); [intros H; inversion H; subst; simpl; lia|].
      destruct (Header_Get "ETag" (resp_Header h) =? "")%string;
        intros H; inversion H; subst; simpl; lia.
Qed.

(** X3.  One call of [Complete], [Abort], [InitMulti] or [PutPartHash]
    makes at most as many attempts as the strategy grants: it sends one
    request (rewinds the payload once) per answer it consumes, and never
    more than the budget; [InitMulti] sends the same request every time. *)
Theorem attempts_within_budget :
  (forall (m : Multi) (parts : list Part) (w : World) (res : go (option error)) (w' : World),
      Complete attempts retryable sort_Sort m parts w = Some (res, w') ->
      exists n,
        (n <= Budget attempts)%nat
        /\ List.length (sent w') = (List.length (sent w) + n)%nat
        /\ List.length (pending w) = (List.length (pending w') + n)%nat)
  /\ (forall (m : Multi) (w : World) (res : go (option error)) (w' : World),
         Abort attempts retryable m w = Some (res, w') ->
         exists n,
           (n <= Budget attempts)%nat
           /\ List.length (sent w') = (List.length (sent w) + n)%nat
           /\ List.length (pending w) = (List.length (pending w') + n)%nat)
  /\ (forall (b : Bucket) (key contType perm : string) (w : World)
             (res : go (option Multi * option error)) (w' : World),
         InitMulti attempts retryable b key contType perm w = Some (res, w') ->
         exists n,
           (n <= Budget attempts)%nat
           /\ sent w' = sent w ++ List.repeat (initMulti_request b key contType perm) n
           /\ List.length (pending w) = (List.length (pending w') + n)%nat)
  /\ (forall (m : Multi) (n partSize : Z) (md5b64 sha256hex : string) (w : PutWorld)
             (res : go (Part * option error)) (w' : PutWorld),
         PutPartHash attempts retryable m n partSize md5b64 sha256hex w = Some (res, w') ->
         exists new,
           put_trace w' = put_trace w ++ new
           /\ (count_seeks new <= Budget attempts)%nat
           /\ List.length (put_pending w) = (List.length (put_pending w') + count_seeks new)%nat).
Proof.
  split; [|split; [|split]].
  - intros m parts w res w'. cbv beta iota zeta delta [Complete xml_Marshal].
    apply Complete_loop_bound.
  - intros m w res w'. unfold Abort. apply Abort_loop_bound.
  - intros b key contType perm w res w'. unfold InitMulti.
    destruct (InitMulti_loop retryable _ (pending w) (sent w) (Start attempts) None "")
      as [[[err uploadId] w1]|] eqn:E; [|discriminate].
    apply InitMulti_loop_bound in E.
    destruct err; intros H; inversion H; subst; exact E.
  - intros m n partSize md5b64 sha256hex w res w'. unfold PutPartHash. intros H.
    pose proof (PutPartHash_loop_bound _ _ _ _ _ _ _ _ _ _ _ _ H) as Hbound.
    apply PutPartHash_loop_trace in H. destruct H as (new & Ht & _ & Hc).
    exists new. cbn [Start remaining] in Hbound. repeat split; [exact Ht| lia | exact Hc].
Qed.

(** ** The answer that decides a call *)

(** X4.  After fewer retryable failures than the budget, a successful
    answer ends the call: [InitMulti] returns a handle for the bucket and
    key with the upload id of the response (the empty id when the response
    carries none: the id is not checked), [Complete] and [Abort] return no
    error; the answers still queued stay untouched. *)
Theorem success_after_retries
    (b : Bucket) (key uploadId : string) (initiated : option string)
    (pre : list answer) (resp_body : body) (rest : list answer) (log : list request) :
  let m := {| Multi_Bucket := Some b; Key := key; UploadId := uploadId;
              Initiated := initiated |} in
  forallb (retry_fail retryable) pre = true ->
  (List.length pre < Budget attempts)%nat ->
  let w := {| pending := pre ++ inr resp_body :: rest; sent := log |} in
  (forall contType perm : string,
      InitMulti attempts retryable b key contType perm w
      = Some (Returns (Some {| Multi_Bucket := Some b; Key := key;
                               UploadId := decode_UploadId "" resp_body;
                               Initiated := None |}, None),
              {| pending := rest;
                 sent := log ++ List.repeat (initMulti_request b key contType perm)
                                            (S (List.length pre)) |}))
  /\ (forall parts : list Part,
         exists log',
           Complete attempts retryable sort_Sort m parts w
           = Some (Returns None, {| pending := rest; sent := log' |}))
  /\ (exists log',
         Abort attempts retryable m w
         = Some (Returns None, {| pending := rest; sent := log' |})).
Proof.
  intros m Hpre Hlen w.
  remember (Budget attempts - List.length pre)%nat as k eqn:Hk.
  destruct k as [|k]; [lia|]. symmetry in Hk.
  split; [|split].
  - intros contType perm. unfold InitMulti. cbn [pending sent w].
    rewrite (InitMulti_loop_retries _ pre _ Hpre) by (cbn [Start remaining]; lia).
    cbn [Start remaining]. rewrite Hk.
    cbn [InitMulti_loop Next remaining query shouldRetry negb].
    unfold initMulti_request. rewrite <- app_assoc, repeat_snoc. reflexivity.
  - intros parts. cbv beta iota zeta delta [Complete xml_Marshal]. cbn [pending sent w].
    rewrite (Complete_loop_retries m b _ _ _ pre _ eq_refl Hpre) by exact Hlen.
    cbn [Start remaining]. rewrite Hk.
    cbn [Complete_loop Next remaining Multi_Bucket m query fst shouldRetry andb]. eauto.
  - unfold Abort. cbn [pending sent w].
    rewrite (Abort_loop_retries m b _ pre _ eq_refl Hpre) by exact Hlen.
    cbn [Start remaining]. rewrite Hk.
    cbn [Abort_loop Next remaining Multi_Bucket m query fst shouldRetry andb]. eauto.
Qed.

(** X5.  The attempt of [PutPartHash] that decides the call, after fewer
    retryable failures than the budget: a response with a tag gives the
    [Part] with the caller's number and size and that tag; a failure of
    [prepare] comes back at once and the request never reaches the
    transport; a transport error that is not retryable, or that spends the
    budget, comes back as it is. *)
Theorem PutPartHash_deciding_attempt
    (b : Bucket) (key uploadId : string) (initiated : option string)
    (n partSize : Z) (md5b64 sha256hex : string)
    (pre : list putAnswer) (ans : putAnswer) (rest : list putAnswer) (trace : list event) :
  let m := {| Multi_Bucket := Some b; Key := key; UploadId := uploadId;
              Initiated := initiated |} in
  let req := put_request b key uploadId n partSize md5b64 sha256hex in
  let before := trace ++ flat_map (fun _ => put_attempt_events req) pre in
  forallb (put_retry_fail retryable) pre = true ->
  (List.length pre < Budget attempts)%nat ->
  seek_err ans = None ->
  let run := PutPartHash attempts retryable m n partSize md5b64 sha256hex
               {| put_pending := pre ++ ans :: rest; put_trace := trace |} in
  (forall e : error,
      prepare_err ans = Some e ->
      run = Some (Returns (Part_zero, Some e),
                  {| put_pending := rest;
                     put_trace := before ++ [EvSeek 0 0; EvPrepare req] |}))
  /\ (forall e : error,
         prepare_err ans = None ->
         run_res ans = inl e ->
         gives_up attempts retryable (List.length pre) e ->
         run = Some (Returns (Part_zero, Some e),
                     {| put_pending := rest;
                        put_trace := before ++ put_attempt_events req |}))
  /\ (forall hresp : http_response,
         prepare_err ans = None ->
         run_res ans = inr hresp ->
         Header_Get "ETag" (resp_Header hresp) <> "" ->
         run = Some (Returns ({| N := n; ETag := Header_Get "ETag" (resp_Header hresp);
                                 Size := partSize |}, None),
                     {| put_pending := rest;
                        put_trace := before ++ put_attempt_events req ++ [EvClose] |})).
Proof.
  intros m req before Hpre Hlen Hseek run.
  assert (Hrun : run = PutPartHash_loop retryable m n partSize md5b64 sha256hex
                         [("Content-Length", [FormatInt partSize]); ("Content-MD5", [md5b64])]
                         [("uploadId", [uploadId]); ("partNumber", [FormatInt n])]
                         (ans :: rest) before
                         {| remaining := Budget attempts - List.length pre |}).
  { unfold run, PutPartHash. cbn [put_pending put_trace UploadId m].
    now rewrite (PutPartHash_loop_retries retryable m b n partSize md5b64 sha256hex _ _ pre _
                   eq_refl Hpre) by exact Hlen. }
  remember (Budget attempts - List.length pre)%nat as k eqn:Hk.
  destruct k as [|k]; [lia|]. symmetry in Hk.
  rewrite Hrun. cbn [PutPartHash_loop Next remaining Multi_Bucket m Key].
  rewrite Hseek. unfold put_attempt_events.
  split; [|split].
  - intros e Hprep. rewrite Hprep, <- app_assoc. reflexivity.
  - intros e Hprep Hres Hgive. rewrite Hprep, Hres.
    rewrite (gives_up_no_retry_nat k (List.length pre) e Hgive Hk).
    rewrite <- !app_assoc. reflexivity.
  - intros hresp Hprep Hres Htag. rewrite Hprep, Hres. cbn [shouldRetry andb].
    destruct (String.eqb_spec (Header_Get "ETag" (resp_Header hresp)) "") as [Heq|_];
      [contradiction|].
    rewrite <- !app_assoc. reflexivity.
Qed.

(** ** What the listings return *)

Lemma ListParts_loop_error (m : Multi) (script : list answer) :
  forall (log : list request) (a : Attempt) (params : gomap (list string))
         (parts : list Part) (ps : list Part) (e : error) (w' : World),
    ListParts_loop attempts retryable sort_Sort m script log a params parts
    = Some (Returns (ps, Some e), w') ->
    ps = [].
Proof.
  induction script as [|ans script IH]; intros log a params parts ps e w';
    destruct a as [[|k]]; simpl; try discriminate.
  - destruct (Multi_Bucket m); discriminate.
  - destruct (Multi_Bucket m); [|discriminate].
    destruct (query ans) as [err resp_body].
    destruct (shouldRetry retryable err && HasNext {| remaining := k |}); [apply IH|].
    destruct err; [intros H; now inversion H|].
    destruct (negb (listParts_IsTruncated (decode_listPartsResp resp_body)));
      [discriminate|apply IH].
Qed.

Lemma ListMulti_loop_adopts (b : Bucket) (script : list answer) :
  forall (log : list request) (a : Attempt) (params : gomap (list string))
         (multis : list Multi) (prefixes : list string)
         (ms : list Multi) (ps : list string) (err : option error) (w' : World),
    Forall (fun u => Multi_Bucket u = Some b) multis ->
    ListMulti_loop attempts retryable b script log a params multis prefixes
    = Some (Returns (ms, ps, err), w') ->
    Forall (fun u => Multi_Bucket u = Some b) ms.
Proof.
  induction script as [|ans script IH]; intros log a params multis prefixes ms ps err w' Hall;
    destruct a as [[|k]]; simpl; try discriminate.
  destruct (query ans) as [e resp_body].
  assert (Hall' : Forall (fun u => Multi_Bucket u = Some b)
                         (multis ++ List.map (adopt b)
                                             (Upload (decode_listMultiResp resp_body)))).
  { apply Forall_app. split; [exact Hall|].
    apply Forall_forall. intros u Hu. apply in_map_iff in Hu.
    destruct Hu as (u0 & <- & _). reflexivity. }
  destruct (shouldRetry retryable e && HasNext {| remaining := k |}); [now apply IH|].
  destruct e; [intros H; inversion H; constructor|].
  destruct (negb (listMulti_IsTruncated (decode_listMultiResp resp_body))).
  - intros H. inversion H; subst. exact Hall'.
  - now apply IH.
Qed.

(** X6.  A listing hands back all or nothing: when [ListParts] or
    [ListMulti] returns an error, it returns no parts, no uploads and no
    prefixes, whatever the pages fetched before the error had brought. *)
Theorem listing_error_has_no_items :
  (forall (m : Multi) (w : World) (ps : list Part) (e : error) (w' : World),
      ListParts attempts retryable sort_Sort listPartsMax m w
      = Some (Returns (ps, Some e), w') ->
      ps = [])
  /\ (forall (b : Bucket) (prefix delim : string) (w : World)
             (ms : list Multi) (ps : list string) (e : error) (w' : World),
         ListMulti attempts retryable listMultiMax b prefix delim w
         = Some (Returns (ms, ps, Some e), w') ->
         ms = [] /\ ps = []).
Proof.
  split.
  - intros m w ps e w'. unfold ListParts. apply ListParts_loop_error.
  - intros b prefix delim w ms ps e w'. unfold ListMulti. apply ListMulti_loop_error.
Qed.

(** X7.  Every handle that [ListMulti] returns carries the bucket that was
    listed, on every page: no handle leaves [ListMulti] with the nil
    bucket it was decoded with. *)
Theorem ListMulti_handles_carry_the_bucket
    (b : Bucket) (prefix delim : string) (w : World)
    (ms : list Multi) (ps : list string) (err : option error) (w' : World) :
  ListMulti attempts retryable listMultiMax b prefix delim w
  = Some (Returns (ms, ps, err), w') ->
  Forall (fun u => Multi_Bucket u = Some b) ms.
Proof.
  unfold ListMulti. apply ListMulti_loop_adopts. constructor.
Qed.

Lemma find_adopt (b : Bucket) (key : string) (us : list Multi) :
  List.find (fun u => (Key u =? key)%string) (List.map (adopt b) us)
  = option_map (adopt b) (List.find (fun u => (Key u =? key)%string) us).
Proof.
  induction us as [|u us IH]; simpl; [reflexivity|].
  destruct (Key u =? key)%string; [reflexivity|exact IH].
Qed.

(** X8.  When the listing of [Multi] comes back in one page, [Multi]
    adopts the first upload of the page whose key is exactly the key asked
    for, as a handle on the bucket, and sends nothing more; uploads that
    only share the prefix are passed over, and when none has the key,
    [Multi] goes on to [InitMulti]. *)
Theorem Multi_adopts_the_exact_key
    (b : Bucket) (key contType perm : string)
    (page : listMultiResp) (rest : list answer) (log : list request) :
  (0 < Budget attempts)%nat ->
  listMulti_IsTruncated page = false ->
  let listing := listMulti_request b [("uploads", []); ("max-uploads", [FormatInt listMultiMax]);
                                      ("prefix", [key]); ("delimiter", [""])] in
  let w1 := {| pending := rest; sent := log ++ [listing] |} in
  Multi_ attempts retryable listMultiMax b key contType perm
    {| pending := inr (BodyListMulti page) :: rest; sent := log |}
  = match List.find (fun u => (Key u =? key)%string) (Upload page) with
    | Some u => Some (Returns (Some (adopt b u), None), w1)
    | None => InitMulti attempts retryable b key contType perm w1
    end.
Proof.
  intros Hb Htr listing w1. unfold Multi_, ListMulti. cbn [pending sent].
  destruct attempts as [[|k]]; [simpl in Hb; lia|].
  cbn [ListMulti_loop Start Budget Next remaining query decode_listMultiResp
       shouldRetry andb app].
  rewrite Htr. cbn [negb].
  change (fun u : Multi => {| Multi_Bucket := Some b; Key := Key u; UploadId := UploadId u;
                              Initiated := Initiated u |}) with (adopt b).
  rewrite find_adopt.
  destruct (List.find (fun u => (Key u =? key)%string) (Upload page)); reflexivity.
Qed.

(** ** The continuation markers *)

Lemma ListParts_loop_markers (m : Multi) (b : Bucket) (pages : list listPartsResp)
    (last : listPartsResp) (rest : list answer) :
  Multi_Bucket m = Some b ->
  (0 < Budget attempts)%nat ->
  Forall (fun page => listParts_IsTruncated page = true) pages ->
  listParts_IsTruncated last = false ->
  forall (log : list request) (params : gomap (list string)) (parts : list Part),
  exists result new,
    ListParts_loop attempts retryable sort_Sort m
      (List.map (fun page => inr (BodyListParts page)) (pages ++ [last]) ++ rest)
      log (Start attempts) params parts
    = Some (Returns (result, None), {| pending := rest; sent := log ++ new |})
    /\ List.map (fun r => map_index "part-number-marker" (S3Multi.params r)) new
       = map_index "part-number-marker" params
         :: List.map (fun page => [NextPartNumberMarker page]) pages
    /\ Forall (fun r => method r = "GET" /\ bucket r = Name b /\ path r = Key m
                        /\ forall k, k <> "part-number-marker" ->
                                     map_get k (S3Multi.params r) = map_get k params) new.
Proof.
  intros Hb Hbudget Hpages Hlast.
  induction Hpages as [|page pages Htr _ IH]; intros log params parts.
  - cbn [app List.map].
    pose proof (ListParts_loop_page attempts retryable sort_Sort m b [] rest last log
               (Start attempts) params parts Hb eq_refl Hbudget) as Hstep.
    cbn [app List.length List.repeat] in Hstep. rewrite Hstep. clear Hstep.
    cbv zeta. rewrite Hlast. cbn [List.length List.repeat].
    eexists. exists [listParts_request b m params].
    split; [reflexivity|]. split; [reflexivity|].
    repeat constructor.
  - cbn [app List.map].
    pose proof (ListParts_loop_page attempts retryable sort_Sort m b []
               (List.map (fun page => inr (BodyListParts page)) (pages ++ [last]) ++ rest) page log
               (Start attempts) params parts Hb eq_refl Hbudget) as Hstep.
    cbn [app List.length List.repeat] in Hstep. rewrite Hstep. clear Hstep.
    cbv zeta. rewrite Htr. cbn [List.length List.repeat].
    destruct (IH (log ++ [listParts_request b m params])
                 (map_set "part-number-marker" [NextPartNumberMarker page] params)
                 (parts ++ listParts_Part page))
      as (result & new & Hrun & Hmarks & Hall).
    exists result, (listParts_request b m params :: new).
    rewrite Hrun, <- app_assoc. split; [reflexivity|]. split.
    + cbn [List.map]. rewrite Hmarks. unfold map_index at 2.
      rewrite map_get_set_same. reflexivity.
    + constructor; [repeat split|].
      eapply Forall_impl; [|exact Hall]. cbv beta.
      intros r (Hm & Hbk & Hp & Hk). repeat split; auto.
      intros k Hne. rewrite (Hk k Hne), map_get_set.
      destruct (String.eqb_spec "part-number-marker" k) as [<-|_];
        [contradiction|reflexivity].
Qed.

Lemma ListMulti_loop_markers (b : Bucket) (pages : list listMultiResp)
    (last : listMultiResp) (rest : list answer) :
  (0 < Budget attempts)%nat ->
  Forall (fun page => listMulti_IsTruncated page = true) pages ->
  listMulti_IsTruncated last = false ->
  forall (log : list request) (params : gomap (list string))
         (multis : list Multi) (prefixes : list string),
  exists result new,
    ListMulti_loop attempts retryable b
      (List.map (fun page => inr (BodyListMulti page)) (pages ++ [last]) ++ rest)
      log (Start attempts) params multis prefixes
    = Some (Returns result, {| pending := rest; sent := log ++ new |})
    /\ List.map (fun r => (map_index "key-marker" (S3Multi.params r),
                           map_index "upload-id-marker" (S3Multi.params r))) new
       = (map_index "key-marker" params, map_index "upload-id-marker" params)
         :: List.map (fun page => ([NextKeyMarker page], [NextUploadIdMarker page])) pages
    /\ Forall (fun r => method r = "GET" /\ bucket r = Name b /\ path r = ""
                        /\ forall k, k <> "key-marker" -> k <> "upload-id-marker" ->
                                     map_get k (S3Multi.params r) = map_get k params) new.
Proof.
  intros Hbudget Hpages Hlast.
  induction Hpages as [|page pages Htr _ IH]; intros log params multis prefixes.
  - cbn [app List.map].
    pose proof (ListMulti_loop_page attempts retryable b [] rest last log
               (Start attempts) params multis prefixes eq_refl Hbudget) as Hstep.
    cbn [app List.length List.repeat] in Hstep. rewrite Hstep. clear Hstep.
    cbv zeta. rewrite Hlast. cbn [List.length List.repeat].
    eexists. exists [listMulti_request b params].
    split; [reflexivity|]. split; [reflexivity|].
    repeat constructor.
  - cbn [app List.map].
    pose proof (ListMulti_loop_page attempts retryable b []
               (List.map (fun page => inr (BodyListMulti page)) (pages ++ [last]) ++ rest) page log
               (Start attempts) params multis prefixes eq_refl Hbudget) as Hstep.
    cbn [app List.length List.repeat] in Hstep. rewrite Hstep. clear Hstep.
    cbv zeta. rewrite Htr. cbn [List.length List.repeat].
    destruct (IH (log ++ [listMulti_request b params])
                 (map_set "upload-id-marker" [NextUploadIdMarker page]
                          (map_set "key-marker" [NextKeyMarker page] params))
                 (multis ++ List.map (adopt b) (Upload page))
                 (prefixes ++ CommonPrefixes page))
      as (result & new & Hrun & Hmarks & Hall).
    exists result, (listMulti_request b params :: new).
    rewrite Hrun, <- app_assoc. split; [reflexivity|]. split.
    + cbn [List.map]. rewrite Hmarks. unfold map_index at 3 4.
      rewrite map_get_set_same, map_get_set, map_get_set_same. reflexivity.
    + constructor; [repeat split|].
      eapply Forall_impl; [|exact Hall]. cbv beta.
      intros r (Hm & Hbk & Hp & Hk). repeat split; auto.
      intros k Hne1 Hne2. rewrite (Hk k Hne1 Hne2), !map_get_set.
      destruct (String.eqb_spec "upload-id-marker" k) as [<-|_]; [contradiction|].
      destruct (String.eqb_spec "key-marker" k) as [<-|_]; [contradiction|reflexivity].
Qed.

(** X9.  Through a listing of several pages every request asks for the
    page after the one just received: the first request of [ListParts]
    carries no part-number-marker and each later one the
    NextPartNumberMarker of the page before; in [ListMulti] likewise for
    key-marker and upload-id-marker.  All requests are GETs on the same
    target and keep the other parameters of the first. *)
Theorem listings_continue_from_the_markers :
  (0 < Budget attempts)%nat ->
  (forall (b : Bucket) (key uploadId : string) (initiated : option string)
          (pages : list listPartsResp) (last : listPartsResp)
          (rest : list answer) (log : list request),
      Forall (fun page => listParts_IsTruncated page = true) pages ->
      listParts_IsTruncated last = false ->
      exists result new,
        ListParts attempts retryable sort_Sort listPartsMax
          {| Multi_Bucket := Some b; Key := key; UploadId := uploadId;
             Initiated := initiated |}
          {| pending := List.map (fun page => inr (BodyListParts page)) (pages ++ [last])
                        ++ rest;
             sent := log |}
        = Some (Returns (result, None), {| pending := rest; sent := log ++ new |})
        /\ List.map (fun r => map_index "part-number-marker" (S3Multi.params r)) new
           = [] :: List.map (fun page => [NextPartNumberMarker page]) pages
        /\ Forall (fun r => method r = "GET" /\ bucket r = Name b /\ path r = key
                            /\ map_index "uploadId" (S3Multi.params r) = [uploadId]
                            /\ map_index "max-parts" (S3Multi.params r)
                               = [FormatInt listPartsMax]) new)
  /\ (forall (b : Bucket) (prefix delim : string)
             (pages : list listMultiResp) (last : listMultiResp)
             (rest : list answer) (log : list request),
         Forall (fun page => listMulti_IsTruncated page = true) pages ->
         listMulti_IsTruncated last = false ->
         exists result new,
           ListMulti attempts retryable listMultiMax b prefix delim
             {| pending := List.map (fun page => inr (BodyListMulti page)) (pages ++ [last])
                           ++ rest;
                sent := log |}
           = Some (Returns result, {| pending := rest; sent := log ++ new |})
           /\ List.map (fun r => (map_index "key-marker" (S3Multi.params r),
                                  map_index "upload-id-marker" (S3Multi.params r))) new
              = ([], []) :: List.map (fun page => ([NextKeyMarker page],
                                                   [NextUploadIdMarker page])) pages
           /\ Forall (fun r => method r = "GET" /\ bucket r = Name b
                               /\ map_index "prefix" (S3Multi.params r) = [prefix]
                               /\ map_index "delimiter" (S3Multi.params r) = [delim]
                               /\ map_index "max-uploads" (S3Multi.params r)
                                  = [FormatInt listMultiMax]) new).
Proof.
  intros Hbudget. split.
  - intros b key uploadId initiated pages last rest log Hpages Hlast.
    set (m := {| Multi_Bucket := Some b; Key := key; UploadId := uploadId;
                 Initiated := initiated |}).
    destruct (ListParts_loop_markers m b pages last rest eq_refl Hbudget Hpages Hlast log
                [("uploadId", [uploadId]); ("max-parts", [FormatInt listPartsMax])] [])
      as (result & new & Hrun & Hmarks & Hall).
    exists result, new. split; [exact Hrun|]. split; [exact Hmarks|].
    eapply Forall_impl; [|exact Hall]. cbv beta.
    intros r (Hm & Hbk & Hp & Hk). unfold map_index.
    rewrite !Hk by discriminate. repeat split; auto.
  - intros b prefix delim pages last rest log Hpages Hlast.
    destruct (ListMulti_loop_markers b pages last rest Hbudget Hpages Hlast log
                [("uploads", []); ("max-uploads", [FormatInt listMultiMax]);
                 ("prefix", [prefix]); ("delimiter", [delim])] [] [])
      as (result & new & Hrun & Hmarks & Hall).
    exists result, new. split; [exact Hrun|]. split; [exact Hmarks|].
    eapply Forall_impl; [|exact Hall]. cbv beta.
    intros r (Hm & Hbk & Hp & Hk). unfold map_index.
    rewrite !Hk by discriminate. repeat split; auto.
Qed.

End MultipartBehaviour.

(** * More on the canonical request *)

(** ** Maps filled by a loop *)

Lemma map_get_absent (V : Type) (k : string) (m : gomap V) :
  ~ In k (map_keys m) -> map_get k m = None.
Proof.
  induction m as [|[k' v'] m IH]; simpl; [reflexivity|].
  intros Hnot. destruct (String.eqb_spec k' k) as [->|_]; [tauto|].
  apply IH. tauto.
Qed.

Lemma map_get_entry (V : Type) (k : string) (v : V) (m : gomap V) :
  NoDup (map_keys m) -> In (k, v) m -> map_get k m = Some v.
Proof.
  induction m as [|[k' v'] m IH]; simpl; [tauto|].
  intros Hnd [Heq|Hin].
  - inversion Heq; subst. now rewrite String.eqb_refl.
  - inversion Hnd as [|? ? Hnotin Hnd']; subst.
    destruct (String.eqb_spec k' k) as [->|_]; [|now apply IH].
    exfalso. apply Hnotin. change k with (fst (k, v)). now apply in_map.
Qed.

Lemma map_get_some_entry (V : Type) (k : string) (v : V) (m : gomap V) :
  map_get k m = Some v -> In (k, v) m.
Proof.
  induction m as [|[k' v'] m IH]; simpl; [discriminate|].
  destruct (String.eqb_spec k' k) as [->|_].
  - intros [= ->]. now left.
  - intros H. right. now apply IH.
Qed.

(** A Go map is read the same whatever the order of its entries. *)
Lemma map_get_permutation (V : Type) (k : string) (m m' : gomap V) :
  NoDup (map_keys m) -> Permutation m m' -> map_get k m = map_get k m'.
Proof.
  intros Hnd Hp.
  assert (Hnd' : NoDup (map_keys m'))
    by (eapply Permutation_NoDup; [apply Permutation_map, Hp|exact Hnd]).
  destruct (map_get k m) as [v|] eqn:E.
  - symmetry. apply map_get_entry; [exact Hnd'|].
    eapply Permutation_in; [exact Hp|]. now apply map_get_some_entry.
  - symmetry. apply map_get_absent. intros Hin.
    apply (Permutation_in _ (Permutation_sym (Permutation_map fst Hp))) in Hin.
    apply map_get_in_keys in Hin. destruct Hin as [v Hv]. congruence.
Qed.

Section FilledMap.

Variables (A V : Type) (key : A -> string) (val : A -> V).

Local Abbreviation fill := (fill_map key val).

Lemma fill_other (l : list A) :
  forall (acc : gomap V) (x : string),
    ~ In x (List.map key l) ->
    map_get x (fold_left fill l acc) = map_get x acc.
Proof.
  induction l as [|a l IH]; intros acc x Hnot; simpl; [reflexivity|].
  rewrite IH by (simpl in Hnot; tauto).
  unfold fill. rewrite map_get_set.
  destruct (String.eqb_spec (key a) x) as [Heq|_]; [|reflexivity].
  exfalso. apply Hnot. now left.
Qed.

Lemma fill_entry (l : list A) :
  NoDup (List.map key l) ->
  forall (acc : gomap V) (a : A),
    In a l -> map_get (key a) (fold_left fill l acc) = Some (val a).
Proof.
  induction l as [|a0 l IH]; intros Hnd acc a Hin; simpl in *; [tauto|].
  inversion Hnd as [|? ? Hnotin Hnd']; subst.
  destruct Hin as [->|Hin].
  - rewrite fill_other by exact Hnotin. unfold fill. apply map_get_set_same.
  - now apply IH.
Qed.

End FilledMap.

(** ** The canonical headers of a map without keys equal up to case *)

Section DistinctNames.

Context {U : UnicodeTables}.

Lemma lowerCase_of_keys_permutation (h : Header) :
  NoDup (List.map ToLower (map_keys h)) ->
  Permutation (map_keys (lowerCase_of h)) (List.map ToLower (map_keys h)).
Proof.
  intros Hnd. apply NoDup_Permutation; [|exact Hnd|apply lowerCase_of_keys].
  apply lowerCase_fold_NoDup. constructor.
Qed.

Lemma lowerCase_of_origin (h : Header) (k0 : string) :
  NoDup (List.map ToLower (map_keys h)) ->
  In k0 (map_keys h) ->
  map_index_str (ToLower k0) (lowerCase_of h) = k0.
Proof.
  intros Hnd Hin. apply in_map_iff in Hin. destruct Hin as (kv & <- & Hin).
  unfold map_index_str, lowerCase_of.
  change (fold_left _ h []) with
    (fold_left (fill_map (fun kv : string * list string => ToLower (fst kv)) fst) h []).
  rewrite (fill_entry _ _ (fun kv : string * list string => ToLower (fst kv)) fst h);
    [reflexivity| |exact Hin].
  unfold map_keys in Hnd. now rewrite map_map in Hnd.
Qed.

Lemma canonicalHeaders_fold_exact (h : Header) (lowerCase : gomap string) (keys : list string) :
  forall (a : list (string * string)) (hc : Header),
    NoDup keys ->
    (forall k, In k keys -> ToLower (map_index_str k lowerCase) = k) ->
    (forall k, In k keys ->
               map_get (map_index_str k lowerCase) hc = map_get (map_index_str k lowerCase) h) ->
    fst (fold_left (canonicalHeaders_step lowerCase) keys (a, hc))
    = a ++ List.map (fun k => (ToLower k,
                               Join (trimmed_sorted (map_index (map_index_str k lowerCase) h))
                                    ","))
                    keys
    /\ forall k0,
         (In k0 (List.map (fun k => map_index_str k lowerCase) keys) ->
          map_get k0 (snd (fold_left (canonicalHeaders_step lowerCase) keys (a, hc)))
          = Some (trimmed_sorted (map_index k0 h)))
         /\ (~ In k0 (List.map (fun k => map_index_str k lowerCase) keys) ->
             map_get k0 (snd (fold_left (canonicalHeaders_step lowerCase) keys (a, hc)))
             = map_get k0 hc).
Proof.
  induction keys as [|k keys IH]; intros a hc Hnd Hlow Hsame.
  - simpl. rewrite app_nil_r. split; [reflexivity|]. intros k0. split; [tauto|reflexivity].
  - inversion Hnd as [|? ? Hnotin Hnd']; subst.
    set (k0 := map_index_str k lowerCase).
    assert (Hval : map_index k0 hc = map_index k0 h)
      by (unfold map_index, k0; rewrite (Hsame k); [reflexivity|now left]).
    assert (Hdistinct : forall k', In k' keys -> map_index_str k' lowerCase <> k0).
    { intros k' Hk' Heq. apply Hnotin.
      rewrite <- (Hlow k) by now left. fold k0. rewrite <- Heq.
      rewrite Hlow by now right. exact Hk'. }
    cbn [fold_left canonicalHeaders_step]. fold k0. rewrite Hval.
    destruct (IH (a ++ [(ToLower k, Join (sort_Strings (List.map Trim_space (map_index k0 h))) ",")])
                 (map_set k0 (sort_Strings (List.map Trim_space (map_index k0 h))) hc)
                 Hnd') as [Hfst Hsnd].
    + intros k' Hk'. apply Hlow. now right.
    + intros k' Hk'. rewrite map_get_set.
      destruct (String.eqb_spec k0 (map_index_str k' lowerCase)) as [Heq|_].
      * exfalso. now apply (Hdistinct k' Hk').
      * apply Hsame. now right.
    + split.
      * eapply eq_trans; [exact Hfst|]. rewrite <- app_assoc. reflexivity.
      * intros k1. destruct (Hsnd k1) as [Hin Hout]. split.
        -- cbn [List.map]. intros [Heq|Hk1]; [|now apply Hin].
           subst k1. eapply eq_trans; [apply (proj2 (Hsnd k0))|apply map_get_set_same].
           intros Hk0. apply in_map_iff in Hk0. destruct Hk0 as (k' & Heq & Hk').
           now apply (Hdistinct k' Hk').
        -- cbn [List.map]. intros Hnot.
           eapply eq_trans; [apply Hout; intros Hk1; apply Hnot; right; exact Hk1|].
           rewrite map_get_set.
           destruct (String.eqb_spec k0 k1) as [Heq|_]; [|reflexivity].
           exfalso. apply Hnot. now left.
Qed.

Lemma canonicalHeaders_entries_exact (h : Header) :
  NoDup (List.map ToLower (map_keys h)) ->
  fst (canonicalHeaders_entries h)
  = List.map (fun k => (ToLower k,
                        Join (trimmed_sorted
                                (map_index (map_index_str k (lowerCase_of h)) h)) ","))
             (signedHeaderNames h)
  /\ forall k0 v,
       map_get k0 h = Some v ->
       map_get k0 (snd (canonicalHeaders_entries h)) = Some (trimmed_sorted v).
Proof.
  intros Hnd.
  pose proof (lowerCase_of_keys_permutation h Hnd) as Hperm.
  assert (Hkeys : sort_Strings (map_keys (lowerCase_of h)) = signedHeaderNames h)
    by (unfold signedHeaderNames; now apply sort_Strings_permutation).
  assert (Hlow : forall k, In k (signedHeaderNames h) ->
                           exists k0, In k0 (map_keys h) /\ k = ToLower k0
                                      /\ map_index_str k (lowerCase_of h) = k0).
  { intros k Hk. unfold signedHeaderNames in Hk.
    apply sort_Strings_in, in_map_iff in Hk. destruct Hk as (k0 & <- & Hk0).
    exists k0. repeat split; [exact Hk0|]. now apply lowerCase_of_origin. }
  destruct (canonicalHeaders_fold_exact h (lowerCase_of h) (signedHeaderNames h) [] h)
    as [Hfst Hsnd].
  - unfold signedHeaderNames.
    eapply Permutation_NoDup; [apply StringSort.Permuted_sort|exact Hnd].
  - intros k Hk. destruct (Hlow k Hk) as (k0 & _ & -> & ->). reflexivity.
  - reflexivity.
  - unfold canonicalHeaders_entries. rewrite Hkeys. split.
    + rewrite Hfst. reflexivity.
    + intros k0 v Hget. destruct (Hsnd k0) as [Hin _].
      rewrite Hin; [unfold map_index; now rewrite Hget|].
      apply in_map_iff. exists (ToLower k0).
      assert (Hk0 : In k0 (map_keys h)) by exact (map_get_in_map_keys _ _ _ _ Hget).
      split; [now apply lowerCase_of_origin|].
      unfold signedHeaderNames. apply sort_Strings_in. now apply in_map.
Qed.

(** The line of one key in the block. *)
Lemma canonicalHeaders_line_of_key (h : Header) (k0 : string) (v : list string) :
  NoDup (List.map ToLower (map_keys h)) ->
  map_get k0 h = Some v ->
  exists before after : list string,
    fst (canonicalHeaders h)
    = Join (before
            ++ (ToLower (ToLower k0) ++ ":"
                ++ Join (sort_Strings (List.map Trim_space v)) ",")%string :: after) LF.
Proof.
  intros Hnd Hget.
  assert (Hk0 : In k0 (map_keys h)) by exact (map_get_in_map_keys _ _ _ _ Hget).
  destruct (canonicalHeaders_entries_exact h Hnd) as [He _].
  pose proof (canonicalHeaders_no_empty_slot h Hnd) as Hlen.
  assert (Hin : In (ToLower k0) (signedHeaderNames h))
    by (unfold signedHeaderNames; apply sort_Strings_in; now apply in_map).
  destruct (in_split _ _ Hin) as (l1 & l2 & Hsplit).
  unfold canonicalHeaders.
  destruct (canonicalHeaders_entries h) as [entries hm]. cbn [fst] in *.
  rewrite Hlen, Nat.sub_diag. cbn [List.repeat]. rewrite app_nil_r.
  rewrite He, Hsplit, !map_app. cbn [List.map].
  rewrite (lowerCase_of_origin h k0 Hnd Hk0).
  unfold map_index. rewrite Hget.
  eexists. eexists. reflexivity.
Qed.

(** X10.  The iteration order of the header map does not show in what is
    signed: for two orders of the same entries [signedHeaders] gives the
    same list, and, when no two keys are equal up to case,
    [canonicalHeaders] gives the same block. *)
Theorem canonical_headers_ignore_map_order (h h' : Header) :
  Permutation h h' ->
  signedHeaders h = signedHeaders h'
  /\ (NoDup (List.map ToLower (map_keys h)) ->
      fst (canonicalHeaders h) = fst (canonicalHeaders h')).
Proof.
  intros Hp.
  assert (Hnames : signedHeaderNames h = signedHeaderNames h').
  { unfold signedHeaderNames. apply sort_Strings_permutation.
    unfold map_keys. now apply Permutation_map, Permutation_map. }
  split; [unfold signedHeaders; now rewrite Hnames|].
  intros Hnd.
  assert (Hnd' : NoDup (List.map ToLower (map_keys h')))
    by (eapply Permutation_NoDup; [|exact Hnd];
        unfold map_keys; now apply Permutation_map, Permutation_map).
  destruct (canonicalHeaders_entries_exact h Hnd) as [He _].
  destruct (canonicalHeaders_entries_exact h' Hnd') as [He' _].
  assert (Hentries : fst (canonicalHeaders_entries h) = fst (canonicalHeaders_entries h')).
  { rewrite He, He', <- Hnames. apply map_ext_in. intros k Hk.
    unfold signedHeaderNames in Hk. apply sort_Strings_in, in_map_iff in Hk.
    destruct Hk as (k0 & <- & Hk0).
    assert (Hk0' : In k0 (map_keys h'))
      by (eapply Permutation_in; [apply Permutation_map, Hp|exact Hk0]).
    rewrite (lowerCase_of_origin h k0 Hnd Hk0), (lowerCase_of_origin h' k0 Hnd' Hk0').
    unfold map_index. rewrite (map_get_permutation _ k0 h h'); [reflexivity| |exact Hp].
    now apply NoDup_map_inv in Hnd. }
  clear He He'. unfold canonicalHeaders.
  destruct (canonicalHeaders_entries h) as [entries hm].
  destruct (canonicalHeaders_entries h') as [entries' hm'].
  cbn [fst] in *. subst entries'. now rewrite (Permutation_length Hp).
Qed.

(** X11.  [canonicalHeaders] writes into the header map it is given: it
    leaves the keys as they are and, when no two keys are equal up to case,
    leaves under every key the values it had, trimmed of spaces and
    sorted. *)
Theorem canonicalHeaders_rewrites_the_values (h : Header) :
  map_keys (snd (canonicalHeaders h)) = map_keys h
  /\ (NoDup (List.map ToLower (map_keys h)) ->
      forall (k : string) (v : list string),
        map_get k h = Some v ->
        map_get k (snd (canonicalHeaders h)) = Some (sort_Strings (List.map Trim_space v))).
Proof.
  split; [apply canonicalHeaders_keeps_keys|].
  intros Hnd k v Hget.
  destruct (canonicalHeaders_entries_exact h Hnd) as [_ Hsnd].
  specialize (Hsnd k v Hget). unfold canonicalHeaders.
  destruct (canonicalHeaders_entries h) as [entries hm]. exact Hsnd.
Qed.

End DistinctNames.

(** ** The canonical query string and the order of the map *)

Lemma unescape_escape_byte (c : ascii) (s : string) :
  unescape_query (escape_byte c ++ s) = String c (unescape_query s).
Proof. destruct c as [[] [] [] [] [] [] [] []]; reflexivity. Qed.

Lemma unescape_QueryEscape (s : string) : unescape_query (QueryEscape s) = s.
Proof.
  induction s as [|c s IH]; [reflexivity|].
  cbn [QueryEscape]. now rewrite unescape_escape_byte, IH.
Qed.

Lemma QueryEscape_injective (a b : string) : QueryEscape a = QueryEscape b -> a = b.
Proof.
  intros H. rewrite <- (unescape_QueryEscape a), <- (unescape_QueryEscape b). now rewrite H.
Qed.

Lemma QueryEscape_NoDup (l : list string) :
  NoDup l -> NoDup (List.map QueryEscape l).
Proof.
  induction 1 as [|x l Hx Hnd IH]; cbn [List.map]; constructor; [|exact IH].
  intros Hin. apply in_map_iff in Hin. destruct Hin as (y & Hy & Hin).
  apply QueryEscape_injective in Hy. now subst y.
Qed.

Lemma QueryEscape_keys_NoDup (query_map : Values) :
  NoDup (map_keys query_map) ->
  NoDup (List.map (fun e : string * list string => QueryEscape (fst e)) query_map).
Proof.
  intros Hnd. rewrite <- (map_map fst QueryEscape).
  apply QueryEscape_NoDup. exact Hnd.
Qed.

Lemma canonicalQueryString_fold (query_map : Values) :
  forall (keyValues : gomap string) (keys : list string),
    fold_left canonicalQueryString_step query_map (keyValues, keys)
    = (fold_left (fill_map (fun e : string * list string => QueryEscape (fst e)) query_group)
                 query_map keyValues,
       keys ++ List.map (fun e : string * list string => QueryEscape (fst e)) query_map).
Proof.
  induction query_map as [|[k vs] query_map IH]; intros keyValues keys.
  - simpl. now rewrite app_nil_r.
  - cbn [fold_left canonicalQueryString_step]. rewrite IH.
    cbn [List.map fst]. rewrite <- app_assoc. reflexivity.
Qed.

(** X12.  The iteration order of the query map does not show in the
    canonical query string: two orders of the same entries, one per name,
    give the same text. *)
Theorem canonicalQueryString_ignores_map_order (query_map query_map' : Values) :
  Permutation query_map query_map' ->
  NoDup (map_keys query_map) ->
  canonicalQueryString_of query_map = canonicalQueryString_of query_map'.
Proof.
  intros Hp Hnd.
  assert (Hnd' : NoDup (map_keys query_map'))
    by (eapply Permutation_NoDup; [apply Permutation_map, Hp|exact Hnd]).
  assert (Hshape : forall q : Values,
             canonicalQueryString_of q
             = Replace (Join (List.map
                                (fun key => map_index_str key
                                   (fold_left (fill_map (fun e : string * list string =>
                                                           QueryEscape (fst e)) query_group)
                                              q []))
                                (sort_Strings
                                   (List.map (fun e : string * list string =>
                                                QueryEscape (fst e)) q)))
                             "&") "+" "%20").
  { intros q. unfold canonicalQueryString_of.
    match goal with
    | |- context [fold_left canonicalQueryString_step q ?x] =>
        replace (fold_left canonicalQueryString_step q x)
          with (fold_left (fill_map (fun e : string * list string => QueryEscape (fst e))
                                    query_group) q [],
                List.map (fun e : string * list string => QueryEscape (fst e)) q)
          by (symmetry; exact (canonicalQueryString_fold q [] []))
    end.
    reflexivity. }
  rewrite !Hshape. f_equal. f_equal.
  rewrite <- (sort_Strings_permutation _ _ (Permutation_map _ Hp)).
  apply map_ext_in. intros key Hkey.
  apply sort_Strings_in, in_map_iff in Hkey. destruct Hkey as (e & <- & He).
  unfold map_index_str.
  rewrite (fill_entry _ _ _ query_group query_map (QueryEscape_keys_NoDup _ Hnd) [] e He).
  rewrite (fill_entry _ _ _ query_group query_map' (QueryEscape_keys_NoDup _ Hnd') [] e);
    [reflexivity|].
  eapply Permutation_in; [exact Hp|exact He].
Qed.

(** ** The canonical URI *)

Lemma HasSuffix_slash_appended (s : string) : HasSuffix (s ++ "/") "/" = true.
Proof.
  unfold HasSuffix.
  assert (Hrev : rev_string (s ++ "/") = String "/" (rev_string s)).
  { induction s as [|c s IH]; [reflexivity|]. cbn [append rev_string]. now rewrite IH. }
  rewrite Hrev. cbn. destruct (rev_string s); reflexivity.
Qed.

(** X13.  Whatever the escaping of the path and [path.Clean] give,
    [canonicalURI] never returns the empty path or the path [.], both are
    rendered as [/]; and when the escaped path ends in a slash, so does the
    canonical URI, although cleaning drops it. *)
Theorem canonicalURI_root_and_trailing_slash
    (url_String path_Clean : string -> string) (u : URL) :
  canonicalURI url_String path_Clean u <> ""
  /\ canonicalURI url_String path_Clean u <> "."
  /\ (path_Clean (url_String (Path u)) = "" \/ path_Clean (url_String (Path u)) = "." ->
      canonicalURI url_String path_Clean u = "/")
  /\ (HasSuffix (url_String (Path u)) "/" = true ->
      HasSuffix (canonicalURI url_String path_Clean u) "/" = true).
Proof.
  unfold canonicalURI.
  set (p := path_Clean (url_String (Path u))).
  destruct (String.eqb_spec p "") as [Hp|Hne]; cbn [orb].
  { cbn. split; [discriminate|]. split; [discriminate|]. split; reflexivity. }
  destruct (String.eqb_spec p ".") as [Hp|Hnd].
  { cbn. split; [discriminate|]. split; [discriminate|]. split; reflexivity. }
  destruct (String.eqb_spec p "/") as [Hp|Hns]; cbn [negb andb].
  { rewrite Hp. split; [discriminate|]. split; [discriminate|].
    split; [intros [H|H]; discriminate H|reflexivity]. }
  destruct (HasSuffix (url_String (Path u)) "/") eqn:Hs.
  - split; [destruct p; discriminate|].
    split; [destruct p as [|c [|c' p']]; discriminate|].
    split; [intros [H|H]; congruence|].
    intros _. apply HasSuffix_slash_appended.
  - split; [exact Hne|]. split; [exact Hnd|].
    split; [intros [H|H]; congruence|discriminate].
Qed.

(** ** What [Sign] leaves in the request *)

Lemma map_del_keys_in (V : Type) (k : string) (m : gomap V) (x : string) :
  In x (map_keys (map_del k m)) <-> x <> k /\ In x (map_keys m).
Proof.
  induction m as [|[k' v'] m IH]; simpl; [tauto|].
  destruct (String.eqb_spec k' k) as [->|Hne]; simpl.
  - rewrite IH. split; [tauto|]. intros [Hx [Heq|Hin]]; [congruence|tauto].
  - rewrite IH. split; [|tauto].
    intros [Heq|[Hx Hin]]; [subst; tauto|tauto].
Qed.

Section SignBehaviour.

Context {U : UnicodeTables}.

Lemma signedHeaders_same_keys (h h' : Header) :
  map_keys h = map_keys h' -> signedHeaders h = signedHeaders h'.
Proof. unfold signedHeaders, signedHeaderNames. now intros ->. Qed.

Variable Time : Type.
Variable time_Parse : string -> string -> option Time.
Variable time_Format : Time -> string -> string.
Variable sha256_Sum : string -> string.
Variable hmac_sha256 : string -> string -> string.
Variable hex : string -> string.
Variable url_String : string -> string.
Variable path_Clean : string -> string.
Variable url_Query : URL -> Values.
Variable Values_Encode : Values -> string.

Local Abbreviation Sign_prepare' :=
  (Sign_prepare time_Parse time_Format sha256_Sum hex Values_Encode).
Local Abbreviation Sign' :=
  (Sign time_Parse time_Format sha256_Sum hmac_sha256 hex url_String path_Clean
        url_Query Values_Encode).

Lemma requestTime_footprint (now : Time) (req : Request) :
  let req' := snd (requestTime time_Parse time_Format now req) in
  Method req' = Method req /\ Host req' = Host req
  /\ Form req' = Form req /\ req_URL req' = req_URL req
  /\ (forall k, In k (map_keys (req_Header req)) -> In k (map_keys (req_Header req')))
  /\ (forall k, In k (map_keys (req_Header req')) ->
                k = "X-Amz-Date" \/ In k (map_keys (req_Header req))).
Proof.
  assert (Hset : forall v : string,
             let req' := with_Header (Header_Set "x-amz-date" v (req_Header req)) req in
             Method req' = Method req /\ Host req' = Host req
             /\ Form req' = Form req /\ req_URL req' = req_URL req
             /\ (forall k, In k (map_keys (req_Header req)) ->
                           In k (map_keys (req_Header req')))
             /\ (forall k, In k (map_keys (req_Header req')) ->
                           k = "X-Amz-Date" \/ In k (map_keys (req_Header req)))).
  { intros v. cbn [with_Header Method Host Form req_URL req_Header]. unfold Header_Set.
    change (CanonicalMIMEHeaderKey "x-amz-date") with "X-Amz-Date".
    repeat (split; [reflexivity|]).
    split; intros k Hk; [apply map_set_keys_in; now right|].
    apply map_set_keys_in in Hk. exact Hk. }
  assert (Hsame : Method req = Method req /\ Host req = Host req
                  /\ Form req = Form req /\ req_URL req = req_URL req
                  /\ (forall k, In k (map_keys (req_Header req)) ->
                                In k (map_keys (req_Header req)))
                  /\ (forall k, In k (map_keys (req_Header req)) ->
                                k = "X-Amz-Date" \/ In k (map_keys (req_Header req))))
    by (repeat (split; [reflexivity|]); split; intros k Hk; [exact Hk|now right]).
  unfold requestTime.
  destruct (time_Parse ISO8601BasicFormat _); [exact Hsame|].
  destruct (time_Parse http_TimeFormat _); [apply Hset|].
  destruct (time_Parse http_TimeFormat _); [exact Hsame|apply Hset].
Qed.

(** [Sign] from the request that [Sign_prepare] hands to the canonical
    request builder. *)
Lemma Sign_outcome (s : V4Signer) (now : Time) (req : Request) (payloadHash : string) :
  exists (t : Time) (r : Request) (hash sig : string),
    Sign_prepare' s now req payloadHash = (hash, t, r)
    /\ Sign' s now req payloadHash
       = (let h' := snd (canonicalHeaders (req_Header r)) in
          if presigning r
          then with_Form (map_set "X-Amz-Signature" [sig] (Form r)) (with_Header h' r)
          else with_Header (Header_Set "Authorization"
                                       (authorization time_Format s h' t sig) h')
                           (with_Header h' r),
          None).
Proof.
  unfold Sign. destruct (Sign_prepare' s now req payloadHash) as [[hash t] r].
  unfold canonicalRequest.
  destruct (canonicalHeaders (req_Header r)) as [ch h'] eqn:E. cbn [snd].
  change (presigning (with_Header h' r)) with (presigning r).
  change (Form (with_Header h' r)) with (Form r).
  change (req_Header (with_Header h' r)) with h'.
  exists t, r, hash. eexists. split; [reflexivity|].
  cbv zeta. rewrite E. cbn [snd].
  destruct (presigning r); reflexivity.
Qed.

(** The request as it stands when [Sign] starts to canonicalize. *)
Lemma Sign_prepare_footprint (s : V4Signer) (now : Time) (req : Request)
    (payloadHash : string) :
  let r := snd (Sign_prepare' s now req payloadHash) in
  Method r = Method req /\ Host r = Host req /\ Path (req_URL r) = Path (req_URL req)
  /\ presigning r = presigning req
  /\ (presigning req = true ->
      RawQuery (req_URL r) = Values_Encode (Form r)
      /\ map_get "X-Amz-Algorithm" (Form r) = Some ["AWS4-HMAC-SHA256"]
      /\ map_get "X-Amz-SignedHeaders" (Form r) = Some [signedHeaders (req_Header r)]
      /\ (forall k : string,
            k <> "X-Amz-SignedHeaders" -> k <> "X-Amz-Algorithm" ->
            k <> "X-Amz-Credential" -> k <> "X-Amz-Date" ->
            map_get k (Form r) = map_get k (Form req))
      /\ (forall k : string,
            In k (map_keys (req_Header r))
            <-> k <> "X-Amz-Date" /\ (k = "Host" \/ In k (map_keys (req_Header req)))))
  /\ (presigning req = false ->
      Form r = Form req /\ req_URL r = req_URL req
      /\ (forall k : string,
            k = "Host" \/ k = "X-Amz-Content-Sha256" \/ In k (map_keys (req_Header req)) ->
            In k (map_keys (req_Header r)))
      /\ (forall k : string,
            In k (map_keys (req_Header r)) ->
            k = "Host" \/ k = "X-Amz-Date" \/ k = "X-Amz-Content-Sha256"
            \/ In k (map_keys (req_Header req)))).
Proof.
  unfold Sign_prepare.
  set (hash := if (payloadHash =? "")%string then _ else _). clearbody hash.
  set (req0 := with_Header (Header_Set "host" (Host req) (req_Header req)) req).
  assert (Hk0 : forall k : string,
             In k (map_keys (req_Header req0)) <-> k = "Host" \/ In k (map_keys (req_Header req)))
    by (intros k; unfold req0, Header_Set; cbn [with_Header req_Header];
        apply map_set_keys_in).
  destruct (requestTime_footprint now req0) as (Hm & Hh & Hf & Hu & Hk1 & Hk2).
  destruct (requestTime time_Parse time_Format now req0) as [t req1].
  cbn [snd] in Hm, Hh, Hf, Hu, Hk1, Hk2.
  change (Method req0) with (Method req) in Hm. change (Host req0) with (Host req) in Hh.
  change (Form req0) with (Form req) in Hf. change (req_URL req0) with (req_URL req) in Hu.
  assert (Hp : presigning req1 = presigning req)
    by (unfold presigning; rewrite Hf; reflexivity).
  rewrite Hp. destruct (presigning req) eqn:Hpre; cbn [snd].
  - cbv zeta.
    cbn [with_RawQuery with_Form with_Header Method Host req_URL Path RawQuery Form
         req_Header].
    rewrite Hu. repeat (split; [first [assumption|reflexivity]|]).
    split.
    + unfold presigning.
      cbn [with_RawQuery with_Form with_Header Form].
      rewrite !map_get_set.
      change (("X-Amz-Date" =? "X-Amz-Expires")%string) with false.
      change (("X-Amz-Credential" =? "X-Amz-Expires")%string) with false.
      change (("X-Amz-Algorithm" =? "X-Amz-Expires")%string) with false.
      change (("X-Amz-SignedHeaders" =? "X-Amz-Expires")%string) with false.
      cbv iota. rewrite Hf. exact Hpre.
    + split; [|discriminate]. intros _.
      split; [reflexivity|].
      split; [rewrite !map_get_set; reflexivity|].
      split; [rewrite !map_get_set; reflexivity|].
      split.
      * intros k H1 H2 H3 H4. rewrite !map_get_set.
        destruct (String.eqb_spec "X-Amz-Date" k); [congruence|].
        destruct (String.eqb_spec "X-Amz-Credential" k); [congruence|].
        destruct (String.eqb_spec "X-Amz-Algorithm" k); [congruence|].
        destruct (String.eqb_spec "X-Amz-SignedHeaders" k); [congruence|].
        now rewrite Hf.
      * intros k. unfold Header_Del.
        change (CanonicalMIMEHeaderKey "x-amz-date") with "X-Amz-Date".
        rewrite map_del_keys_in. split.
        -- intros [Hne Hin]. split; [exact Hne|].
           apply Hk0. destruct (Hk2 k Hin) as [Heq|Hin0]; [contradiction|exact Hin0].
        -- intros [Hne Hin]. split; [exact Hne|]. apply Hk1, Hk0, Hin.
  - cbn [with_Header Method Host req_URL Form req_Header].
    rewrite Hu. repeat (split; [first [assumption|reflexivity]|]).
    split; [discriminate|]. intros _.
    repeat (split; [first [assumption|reflexivity]|]).
    unfold Header_Set.
    change (CanonicalMIMEHeaderKey "x-amz-content-sha256") with "X-Amz-Content-Sha256".
    split; intros k Hk.
    + apply map_set_keys_in. destruct Hk as [Hk|[Hk|Hk]].
      * right. apply Hk1, Hk0. now left.
      * now left.
      * right. apply Hk1, Hk0. now right.
    + apply map_set_keys_in in Hk. destruct Hk as [Hk|Hk]; [tauto|].
      destruct (Hk2 k Hk) as [Heq|Hin0]; [tauto|].
      apply Hk0 in Hin0. tauto.
Qed.

(** X14.  An empty payload hash stands for the hash of the empty payload,
    and when the request is presigned (its form has [X-Amz-Expires]) the
    payload hash handed to [Sign] has no influence at all on the outcome. *)
Theorem Sign_payload_hash_argument (s : V4Signer) (now : Time) (req : Request) :
  Sign' s now req "" = Sign' s now req (EmptyStringSHA256Hex sha256_Sum hex)
  /\ (presigning req = true ->
      forall payloadHash payloadHash' : string,
        Sign' s now req payloadHash = Sign' s now req payloadHash').
Proof.
  split.
  - unfold Sign, Sign_prepare.
    change (("" =? "")%string) with true. cbv iota.
    destruct (EmptyStringSHA256Hex sha256_Sum hex =? "")%string; reflexivity.
  - intros Hpre payloadHash payloadHash'.
    unfold Sign, Sign_prepare.
    set (req0 := with_Header (Header_Set "host" (Host req) (req_Header req)) req).
    destruct (requestTime_footprint now req0) as (_ & _ & Hf & _).
    destruct (requestTime time_Parse time_Format now req0) as [t req1].
    cbn [snd] in Hf. change (Form req0) with (Form req) in Hf.
    assert (Hp : presigning req1 = true)
      by (unfold presigning in *; rewrite Hf; exact Hpre).
    cbv zeta. rewrite Hp. reflexivity.
Qed.

(** X15.  Presigning: [Sign] returns no error, leaves the method, the host
    and the path alone, and puts the signature into the form only.  The raw
    query it has written encodes the form as it was before the signature
    went in; the form names the algorithm and, as signed headers, exactly
    the headers the request ends up with; no other name of the form
    changes.  The request ends up with the headers it had and [Host], and
    without [X-Amz-Date]; no [Authorization] header is added. *)
Theorem Sign_presigned_request (s : V4Signer) (now : Time) (req : Request)
    (payloadHash : string) :
  presigning req = true ->
  let req' := fst (Sign' s now req payloadHash) in
  snd (Sign' s now req payloadHash) = None
  /\ Method req' = Method req /\ Host req' = Host req
  /\ Path (req_URL req') = Path (req_URL req)
  /\ (exists (form0 : Values) (sig : string),
        Form req' = map_set "X-Amz-Signature" [sig] form0
        /\ RawQuery (req_URL req') = Values_Encode form0
        /\ map_get "X-Amz-Algorithm" form0 = Some ["AWS4-HMAC-SHA256"]
        /\ map_get "X-Amz-SignedHeaders" form0 = Some [signedHeaders (req_Header req')]
        /\ (forall k : string,
              k <> "X-Amz-SignedHeaders" -> k <> "X-Amz-Algorithm" ->
              k <> "X-Amz-Credential" -> k <> "X-Amz-Date" ->
              map_get k form0 = map_get k (Form req)))
  /\ (forall k : string,
        In k (map_keys (req_Header req'))
        <-> k <> "X-Amz-Date" /\ (k = "Host" \/ In k (map_keys (req_Header req)))).
Proof.
  intros Hpre.
  destruct (Sign_outcome s now req payloadHash) as (t & r & hash & sig & Hprep & HS).
  pose proof (Sign_prepare_footprint s now req payloadHash) as Hfp.
  rewrite Hprep in Hfp. cbn [snd] in Hfp.
  destruct Hfp as (Hm & Hh & Hpath & Hpr & Hfacts & _).
  destruct (Hfacts Hpre) as (Hraw & Halg & Hsh & Hother & Hkeys).
  rewrite HS. cbv zeta. rewrite Hpr, Hpre. cbn [fst snd].
  cbn [with_Form with_Header Method Host req_URL Form req_Header].
  pose proof (canonicalHeaders_keeps_keys (req_Header r)) as Hk.
  repeat (split; [first [assumption|reflexivity]|]).
  split.
  - exists (Form r), sig.
    repeat (split; [first [assumption|reflexivity]|]).
    split; [|exact Hother].
    rewrite Hsh. do 2 f_equal. apply signedHeaders_same_keys. now rewrite Hk.
  - intros k. rewrite Hk. apply Hkeys.
Qed.

(** X16.  Header signing: [Sign] returns no error and leaves the method,
    the host, the form and the URL alone.  The header map it leaves is the
    one it signed with the [Authorization] entry set on top, so the
    signed-header list in that entry is taken before the entry goes in.
    The headers of the request stay, [Host], [X-Amz-Content-Sha256] and
    [Authorization] are there afterwards, and the only other header that
    can appear is [X-Amz-Date]. *)
Theorem Sign_header_request (s : V4Signer) (now : Time) (req : Request)
    (payloadHash : string) :
  presigning req = false ->
  let req' := fst (Sign' s now req payloadHash) in
  snd (Sign' s now req payloadHash) = None
  /\ Method req' = Method req /\ Host req' = Host req
  /\ Form req' = Form req /\ req_URL req' = req_URL req
  /\ (exists (h1 : Header) (t : Time) (sig : string),
        req_Header req'
        = map_set "Authorization" [authorization time_Format s h1 t sig] h1)
  /\ (forall k : string,
        k = "Host" \/ k = "X-Amz-Content-Sha256" \/ k = "Authorization"
        \/ In k (map_keys (req_Header req)) ->
        In k (map_keys (req_Header req')))
  /\ (forall k : string,
        In k (map_keys (req_Header req')) ->
        k = "Host" \/ k = "X-Amz-Date" \/ k = "X-Amz-Content-Sha256"
        \/ k = "Authorization" \/ In k (map_keys (req_Header req))).
Proof.
  intros Hpre.
  destruct (Sign_outcome s now req payloadHash) as (t & r & hash & sig & Hprep & HS).
  pose proof (Sign_prepare_footprint s now req payloadHash) as Hfp.
  rewrite Hprep in Hfp. cbn [snd] in Hfp.
  destruct Hfp as (Hm & Hh & Hpath & Hpr & _ & Hfacts).
  destruct (Hfacts Hpre) as (Hform & Hurl & Hin & Hout).
  rewrite HS. cbv zeta. rewrite Hpr, Hpre. cbn [fst snd].
  cbn [with_Form with_Header Method Host req_URL Form req_Header].
  pose proof (canonicalHeaders_keeps_keys (req_Header r)) as Hk.
  unfold Header_Set. change (CanonicalMIMEHeaderKey "Authorization") with "Authorization".
  repeat (split; [first [assumption|reflexivity]|]).
  split; [eexists _, t, sig; reflexivity|].
  split; intros k Hkin.
  - apply map_set_keys_in. rewrite Hk.
    destruct Hkin as [H|[H|[H|H]]]; [right; apply Hin; tauto|right; apply Hin; tauto
                                    |now left|right; apply Hin; tauto].
  - apply map_set_keys_in in Hkin. rewrite Hk in Hkin.
    destruct Hkin as [H|H]; [tauto|]. specialize (Hout k H). tauto.
Qed.

(** C10.  Before anything is canonicalized, [Sign] makes the request's
    [Host] field the one value under the canonical key [Host], in header
    signing and in presigning alike; the outcome of [Sign] does not depend
    on what the caller had stored under that key, with [Header.Set] or
    otherwise; the signed-header list that [Sign] emits, in the
    X-Amz-SignedHeaders parameter or in the Authorization header, is the
    semicolon-joined list of the lowered header names, and [host] is one of
    them; and when no two keys of the header map are equal up to case, the
    canonical header block has the line [host:] with the [Host] field. *)
Theorem Sign_overwrites_and_signs_host
    (s : V4Signer) (now : Time) (req : Request) (payloadHash : string) :
  let prepared := snd (Sign_prepare' s now req payloadHash) in
  let req' := fst (Sign' s now req payloadHash) in
  map_get "Host" (req_Header prepared) = Some [Host req]
  /\ (forall vs : list string,
         Sign' s now (with_Header (map_set "Host" vs (req_Header req)) req) payloadHash
         = Sign' s now req payloadHash)
  /\ (forall v : string,
         Sign' s now (with_Header (Header_Set "host" v (req_Header req)) req) payloadHash
         = Sign' s now req payloadHash)
  /\ (exists names : list string,
         In "host" names
         /\ if presigning req
            then names = sort_Strings (List.map ToLower (map_keys (req_Header req')))
                 /\ map_get "X-Amz-SignedHeaders" (Form req') = Some [Join names ";"]
            else exists (h : Header) (t : Time) (sig : string),
                   names = sort_Strings (List.map ToLower (map_keys h))
                   /\ req_Header req'
                      = map_set "Authorization"
                          [("AWS4-HMAC-SHA256 "
                            ++ "Credential=" ++ AccessKey (auth s) ++ "/"
                            ++ credentialScope time_Format s t ++ ", "
                            ++ "SignedHeaders=" ++ Join names ";" ++ ", "
                            ++ "Signature=" ++ sig)%string] h)
  /\ (NoDup (List.map ToLower (map_keys (req_Header prepared))) ->
      exists before after : list string,
        fst (canonicalHeaders (req_Header prepared))
        = Join (before ++ ("host:" ++ Trim_space (Host req))%string :: after) LF).
Proof.
  cbv zeta.
  destruct (Sign_prepare_host Time time_Parse time_Format sha256_Sum hex Values_Encode
              s now req payloadHash) as (Hhost & Hpre & Hsigned).
  split; [exact Hhost|].
  split; [intros vs; unfold Sign;
          now rewrite (Sign_prepare_overwrites Time time_Parse time_Format sha256_Sum hex
                         Values_Encode s now req payloadHash vs)|].
  split; [intros v; unfold Sign, Header_Set;
          change (CanonicalMIMEHeaderKey "host") with "Host";
          now rewrite (Sign_prepare_overwrites Time time_Parse time_Format sha256_Sum hex
                         Values_Encode s now req payloadHash [v])|].
  split.
  - destruct (Sign_outcome s now req payloadHash) as (t & r & hash & sig & Hprep & HS).
    rewrite Hprep in Hhost, Hpre, Hsigned. cbn [snd] in Hhost, Hpre, Hsigned.
    pose proof (canonicalHeaders_keeps_keys (req_Header r)) as Hkeys.
    assert (Hin : In "host" (sort_Strings (List.map ToLower (map_keys (req_Header r)))))
      by exact (Host_key_is_signed (req_Header r) [Host req] Hhost).
    exists (sort_Strings (List.map ToLower (map_keys (req_Header r)))).
    split; [exact Hin|].
    rewrite HS. cbv zeta. rewrite Hpre. cbn [fst].
    destruct (presigning req) eqn:Hmode.
    + cbn [with_Form with_Header req_Header Form]. split.
      * now rewrite Hkeys.
      * rewrite map_get_set.
        change (("X-Amz-Signature" =? "X-Amz-SignedHeaders")%string) with false.
        cbv iota. exact (Hsigned eq_refl).
    + cbn [with_Header req_Header]. unfold Header_Set.
      change (CanonicalMIMEHeaderKey "Authorization") with "Authorization".
      exists (snd (canonicalHeaders (req_Header r))), t, sig.
      split; [now rewrite Hkeys|].
      unfold authorization, signedHeaders, signedHeaderNames.
      now rewrite Hkeys.
  - intros Hnd.
    exact (canonicalHeaders_line_of_key _ "Host" [Host req] Hnd Hhost).
Qed.

End SignBehaviour.

(** * The theorems on the scenarios of the test suite *)

Lemma Complete_manifest_ascending_witness :
  ascending_manifest (Parts (Complete_manifest (@insertion_sort) test_parts))
  /\ Complete_manifest (@insertion_sort) (List.rev test_parts)
     = Complete_manifest (@insertion_sort) test_parts.
Proof.
  pose proof (Complete_manifest_ascending test_attempts test_retryable (@insertion_sort)
                insertion_sort_perm insertion_sort_sorted test_parts) as H.
  cbv zeta in H. destruct H as (Hasc & _ & Huniq & _).
  split; [exact Hasc|].
  apply Huniq; [apply Permutation_rev|].
  repeat constructor; simpl; intuition discriminate.
Defined.

Lemma ListParts_sorted_concatenation_witness :
  exists result log',
    ListParts test_attempts test_retryable (@insertion_sort) 1000 sample_multi
      {| pending := List.map (fun page => inr (BodyListParts page))
                             ([test_page1] ++ [test_page2]) ++ [];
         sent := [] |}
    = Some (Returns (result, None), {| pending := []; sent := log' |})
    /\ ascending_parts result
    /\ Permutation (flat_map listParts_Part ([test_page1] ++ [test_page2])) result.
Proof.
  apply (ListParts_sorted_concatenation test_attempts test_retryable (@insertion_sort) 1000
           insertion_sort_perm insertion_sort_sorted
           sample_bucket "multi" "JNbR" None [test_page1] test_page2 [] []).
  - simpl. lia.
  - repeat constructor.
  - reflexivity.
Defined.

Lemma pagination_budget_per_page_witness :
  (exists result log',
      ListParts {| Budget := 2 |} test_retryable (@insertion_sort) 1000 sample_multi
        {| pending := [inl NoSuchUpload; inr (BodyListParts test_page1);
                       inl NoSuchUpload; inr (BodyListParts test_page2)];
           sent := [] |}
      = Some (Returns (result, None), {| pending := []; sent := log' |})
      /\ Permutation (listParts_Part test_page1 ++ listParts_Part test_page2) result)
  /\ (exists log',
         ListMulti {| Budget := 2 |} test_retryable 1000 sample_bucket "" "/"
           {| pending := [inl InternalError; inr (BodyListMulti test_uploads1);
                          inl InternalError; inr (BodyListMulti test_uploads2)];
              sent := [] |}
         = Some (Returns ([adopt sample_bucket test_upload1; adopt sample_bucket test_upload2],
                          ["a/"; "b/"], None),
                 {| pending := []; sent := log' |})).
Proof.
  pose proof (pagination_budget_per_page {| Budget := 2 |} test_retryable (@insertion_sort)
                1000 1000 insertion_sort_perm) as [Hparts Hmulti].
  split.
  - apply (Hparts sample_bucket "multi" "JNbR" None
                  [([inl NoSuchUpload], test_page1)] ([inl NoSuchUpload], test_page2) [] []).
    + repeat constructor.
    + split; [reflexivity|simpl; lia].
    + reflexivity.
  - apply (Hmulti sample_bucket "" "/"
                  [([inl InternalError], test_uploads1)] ([inl InternalError], test_uploads2)
                  [] []).
    + repeat constructor.
    + split; [reflexivity|simpl; lia].
    + reflexivity.
Defined.

Lemma Multi_no_such_upload_initiates_witness :
  exists w2,
    Multi_ test_attempts (fun _ => false) 1000 sample_bucket "multi" "text/plain" "private"
      {| pending := [inl NoSuchUpload; inr (BodyInit "JNbR")]; sent := [] |}
    = Some (Returns (Some sample_multi, None), w2)
    /\ pending w2 = [].
Proof.
  apply (proj2 (Multi_no_such_upload_initiates test_attempts (fun _ => false) 1000
                  sample_bucket "multi" "text/plain" "private"
                  {| pending := [inl NoSuchUpload; inr (BodyInit "JNbR")]; sent := [] |}
                  {| pending := [inr (BodyInit "JNbR")];
                     sent := [listMulti_request sample_bucket
                                [("uploads", []); ("max-uploads", ["1000"]);
                                 ("prefix", ["multi"]); ("delimiter", [""])]] |}
                  [] [] NoSuchUpload eq_refl)).
  - reflexivity.
  - simpl. lia.
  - reflexivity.
Defined.

Lemma PutPartHash_empty_ETag_fails_at_once_witness :
  (exists trace',
      PutPartHash test_attempts test_retryable sample_multi 1 8 test_md5 test_sha256
        {| put_pending := [put_internal_error] ++ put_no_ETag :: [put_with_ETag];
           put_trace := [] |}
      = Some (Returns (Part_zero, Some (errors_New "part upload succeeded with no ETag")),
              {| put_pending := [put_with_ETag]; put_trace := trace' |}))
  /\ ETag {| N := 1; ETag := test_ETag; Size := 8 |} <> "".
Proof.
  pose proof (PutPartHash_empty_ETag_fails_at_once test_attempts test_retryable sample_multi
                1 8 test_md5 test_sha256) as [Hempty Hpart].
  split.
  - apply (Hempty sample_bucket [put_internal_error] put_no_ETag {| resp_Header := [] |}
                  [put_with_ETag] []); try reflexivity.
    simpl. lia.
  - apply (Hpart {| put_pending := [put_with_ETag]; put_trace := [] |}
                 {| N := 1; ETag := test_ETag; Size := 8 |} None
                 {| put_pending := [];
                    put_trace := put_attempt_events
                                   (put_request sample_bucket "multi" "JNbR" 1 8
                                                test_md5 test_sha256) ++ [EvClose] |}).
    reflexivity.
Defined.

Lemma PutPartHash_rewinds_every_attempt_witness :
  PutPartHash test_attempts test_retryable sample_multi 1 8 test_md5 test_sha256
    {| put_pending := [put_internal_error] ++ put_seek_fails :: [put_with_ETag];
       put_trace := [] |}
  = Some (Returns (Part_zero, Some (PlainError "seek failed")),
          {| put_pending := [put_with_ETag];
             put_trace :=
               ([] ++ flat_map (fun _ => put_attempt_events
                                           (put_request sample_bucket "multi" "JNbR" 1 8
                                                        test_md5 test_sha256))
                               [put_internal_error])
               ++ [EvSeek 0 0] |})
  /\ exists new,
       new = put_attempt_events (put_request sample_bucket "multi" "JNbR" 1 8
                                             test_md5 test_sha256) ++ [EvClose]
       /\ rewinds_before_sending Fresh new = true.
Proof.
  pose proof (PutPartHash_rewinds_every_attempt test_attempts test_retryable sample_multi
                1 8 test_md5 test_sha256) as [Htrace Hseek].
  split.
  - apply (Hseek sample_bucket [put_internal_error] put_seek_fails (PlainError "seek failed")
                 [put_with_ETag] []); try reflexivity.
    simpl. lia.
  - destruct (Htrace {| put_pending := [put_with_ETag]; put_trace := [] |}
                     (Returns ({| N := 1; ETag := test_ETag; Size := 8 |}, None))
                     {| put_pending := [];
                        put_trace := put_attempt_events
                                       (put_request sample_bucket "multi" "JNbR" 1 8
                                                    test_md5 test_sha256) ++ [EvClose] |}
                     eq_refl) as (new & Hnew & Hrew & _).
    exists new. split; [symmetry; exact Hnew|exact Hrew].
Defined.

Lemma signedHeaders_names_canonicalHeaders_lines_witness :
  signedHeaders (U := test_tables) test_header = "content-type;host;x-amz-date"
  /\ signedHeaders (U := test_tables) test_header
     = Join (List.map fst (fst (canonicalHeaders_entries (U := test_tables) test_header))) ";"
  /\ fst (canonicalHeaders (U := test_tables) test_header)
     = Join (List.map header_line
                      (fst (canonicalHeaders_entries (U := test_tables) test_header))) LF.
Proof.
  assert (Hnd : NoDup (List.map (ToLower (U := test_tables)) (map_keys test_header)))
    by (repeat constructor; simpl; intuition discriminate).
  destruct (signedHeaders_names_canonicalHeaders_lines (U := test_tables) test_header)
    as (Htext & _ & _ & _ & Hblock & Hexact).
  destruct Hexact as (_ & Hlist).
  - intros k Hk. simpl in Hk. destruct Hk as [<-|[<-|[<-|[]]]]; reflexivity.
  - split; [exact Htext|]. split; [exact (proj2 (Hlist Hnd))|exact (Hblock Hnd)].
Defined.

Lemma retry_loops_never_fall_through_witness :
  exists res w',
    Abort test_attempts test_retryable sample_multi
      {| pending := [inl InternalError; inr BodyEmpty]; sent := [] |}
    = Some (res, w')
    /\ (res = Panics "unreachable" -> False).
Proof.
  assert (Hb : (0 < Budget test_attempts)%nat) by (simpl; lia).
  destruct (retry_loops_never_fall_through test_attempts test_retryable (@insertion_sort)
              1000 1000 Hb) as (_ & _ & _ & HAbort & _).
  eexists. eexists. split; [reflexivity|].
  intros Hres.
  refine (HAbort sample_multi {| pending := [inl InternalError; inr BodyEmpty]; sent := [] |}
                 _ _ _ Hres).
  reflexivity.
Defined.

Lemma errors_come_to_the_caller_witness :
  (exists log',
      ListParts test_attempts test_retryable (@insertion_sort) 1000 sample_multi
        {| pending := [inl InternalError] ++ inl (PlainError "connection reset")
                      :: [inr (BodyListParts test_page2)];
           sent := [] |}
      = Some (Returns ([], Some (PlainError "connection reset")),
              {| pending := [inr (BodyListParts test_page2)]; sent := log' |}))
  /\ (exists log',
         Abort test_attempts test_retryable sample_multi
           {| pending := [inl InternalError] ++ inl (PlainError "connection reset")
                         :: [inr (BodyListParts test_page2)];
              sent := [] |}
         = Some (Returns (Some (PlainError "connection reset")),
                 {| pending := [inr (BodyListParts test_page2)]; sent := log' |})).
Proof.
  assert (Hb : (List.length [@inl error body InternalError] < Budget test_attempts)%nat)
    by (simpl; lia).
  pose proof (errors_come_to_the_caller test_attempts test_retryable (@insertion_sort)
                1000 1000 sample_bucket "multi" "JNbR" None
                [inl InternalError] (PlainError "connection reset")
                [inr (BodyListParts test_page2)] [] eq_refl Hb (or_introl eq_refl)) as H.
  cbv zeta in H. destruct H as (HListParts & _ & _ & _ & HAbort).
  split; [exact HListParts|exact HAbort].
Defined.

Lemma success_after_retries_witness :
  exists w',
    InitMulti test_attempts test_retryable sample_bucket "multi" "text/plain" "private"
      {| pending := [inl InternalError] ++ inr (BodyInit "JNbR") :: []; sent := [] |}
    = Some (Returns (Some sample_multi, None), w')
    /\ pending w' = [].
Proof.
  assert (Hb : (List.length [@inl error body InternalError] < Budget test_attempts)%nat)
    by (simpl; lia).
  pose proof (success_after_retries test_attempts test_retryable (@insertion_sort)
                sample_bucket "multi" "JNbR" None
                [inl InternalError] (BodyInit "JNbR") [] [] eq_refl Hb) as H.
  cbv zeta in H. destruct H as (HInit & _).
  eexists. split; [exact (HInit "text/plain" "private")|reflexivity].
Defined.

Lemma PutPartHash_deciding_attempt_witness :
  exists w',
    PutPartHash test_attempts test_retryable sample_multi 1 8 test_md5 test_sha256
      {| put_pending := [put_internal_error] ++ put_with_ETag :: []; put_trace := [] |}
    = Some (Returns ({| N := 1; ETag := test_ETag; Size := 8 |}, None), w')
    /\ put_pending w' = [].
Proof.
  assert (Hb : (List.length [put_internal_error] < Budget test_attempts)%nat)
    by (simpl; lia).
  pose proof (PutPartHash_deciding_attempt test_attempts test_retryable
                sample_bucket "multi" "JNbR" None 1 8 test_md5 test_sha256
                [put_internal_error] put_with_ETag [] [] eq_refl Hb eq_refl) as H.
  cbv zeta in H. destruct H as (_ & _ & HETag).
  eexists. split.
  - apply (HETag {| resp_Header := [("Etag", [test_ETag])] |} eq_refl eq_refl).
    discriminate.
  - reflexivity.
Defined.

Lemma ListMulti_handles_carry_the_bucket_witness :
  Forall (fun u => Multi_Bucket u = Some sample_bucket)
         [adopt sample_bucket test_upload1; adopt sample_bucket test_upload2].
Proof.
  apply (ListMulti_handles_carry_the_bucket test_attempts test_retryable 1000
           sample_bucket "" "/"
           {| pending := [inr (BodyListMulti test_uploads1); inr (BodyListMulti test_uploads2)];
              sent := [] |}
           [adopt sample_bucket test_upload1; adopt sample_bucket test_upload2]
           ["a/"; "b/"] None
           {| pending := [];
              sent := [listMulti_request sample_bucket
                         [("uploads", []); ("max-uploads", ["1000"]);
                          ("prefix", [""]); ("delimiter", ["/"])];
                       listMulti_request sample_bucket
                         [("uploads", []); ("max-uploads", ["1000"]);
                          ("prefix", [""]); ("delimiter", ["/"]);
                          ("key-marker", ["multi1"]);
                          ("upload-id-marker", ["iUVug89pPvSswrikD"])]] |}).
  reflexivity.
Defined.

Lemma Multi_adopts_the_exact_key_witness :
  exists w1,
    Multi_ test_attempts test_retryable 1000 sample_bucket "multi2" "text/plain" "private"
      {| pending := [inr (BodyListMulti test_uploads2)]; sent := [] |}
    = Some (Returns (Some (adopt sample_bucket test_upload2), None), w1).
Proof.
  assert (Hb : (0 < Budget test_attempts)%nat) by (simpl; lia).
  eexists.
  exact (Multi_adopts_the_exact_key test_attempts test_retryable 1000 sample_bucket
           "multi2" "text/plain" "private" test_uploads2 [] [] Hb eq_refl).
Defined.

Lemma listings_continue_from_the_markers_witness :
  exists result new,
    ListParts test_attempts test_retryable (@insertion_sort) 1000
      {| Multi_Bucket := Some sample_bucket; Key := "multi"; UploadId := "JNbR";
         Initiated := None |}
      {| pending := List.map (fun page => inr (BodyListParts page))
                             ([test_page1] ++ [test_page2]) ++ [];
         sent := [] |}
    = Some (Returns (result, None), {| pending := []; sent := [] ++ new |})
    /\ List.map (fun r => map_index "part-number-marker" (S3Multi.params r)) new
       = [] :: List.map (fun page => [NextPartNumberMarker page]) [test_page1]
    /\ Forall (fun r => method r = "GET" /\ bucket r = Name sample_bucket /\ path r = "multi"
                        /\ map_index "uploadId" (S3Multi.params r) = ["JNbR"]
                        /\ map_index "max-parts" (S3Multi.params r) = [FormatInt 1000]) new.
Proof.
  assert (Hb : (0 < Budget test_attempts)%nat) by (simpl; lia).
  destruct (listings_continue_from_the_markers test_attempts test_retryable
              (@insertion_sort) 1000 1000 Hb) as [HListParts _].
  apply (HListParts sample_bucket "multi" "JNbR" None [test_page1] test_page2 [] []).
  - repeat constructor.
  - reflexivity.
Defined.

Lemma canonical_headers_ignore_map_order_witness :
  signedHeaders (U := test_tables) test_header
  = signedHeaders (U := test_tables) (List.rev test_header)
  /\ fst (canonicalHeaders (U := test_tables) test_header)
     = fst (canonicalHeaders (U := test_tables) (List.rev test_header)).
Proof.
  destruct (canonical_headers_ignore_map_order (U := test_tables)
              test_header (List.rev test_header)
              (Permutation_rev test_header)) as [Hnames Hlines].
  split; [exact Hnames|]. apply Hlines.
  repeat constructor; simpl; intuition discriminate.
Defined.

Lemma canonicalQueryString_ignores_map_order_witness :
  canonicalQueryString_of test_query = canonicalQueryString_of (List.rev test_query).
Proof.
  apply (canonicalQueryString_ignores_map_order test_query (List.rev test_query)
           (Permutation_rev test_query)).
  repeat constructor; simpl; intuition discriminate.
Defined.

Lemma Sign_presigned_request_witness :
  snd (test_Sign test_signer "20150830T123600Z" test_presigned_request "") = None
  /\ (forall k : string,
        In k (map_keys (req_Header
                          (fst (test_Sign test_signer "20150830T123600Z"
                                          test_presigned_request ""))))
        <-> k <> "X-Amz-Date"
            /\ (k = "Host" \/ In k (map_keys (req_Header test_presigned_request)))).
Proof.
  pose proof (Sign_presigned_request (U := test_tables) string test_time_Parse test_time_Format test_identity
                test_hmac test_identity test_identity test_identity test_url_Query
                test_Values_Encode test_signer "20150830T123600Z" test_presigned_request ""
                eq_refl) as H.
  cbv zeta in H. destruct H as (Herr & _ & _ & _ & _ & Hkeys).
  split; [exact Herr|exact Hkeys].
Defined.

Lemma Sign_header_request_witness :
  snd (test_Sign test_signer "20150830T123600Z" test_header_request "") = None
  /\ Form (fst (test_Sign test_signer "20150830T123600Z" test_header_request ""))
     = Form test_header_request
  /\ req_URL (fst (test_Sign test_signer "20150830T123600Z" test_header_request ""))
     = req_URL test_header_request.
Proof.
  pose proof (Sign_header_request (U := test_tables) string test_time_Parse test_time_Format test_identity
                test_hmac test_identity test_identity test_identity test_url_Query
                test_Values_Encode test_signer "20150830T123600Z" test_header_request ""
                eq_refl) as H.
  cbv zeta in H. destruct H as (Herr & _ & _ & Hform & Hurl & _).
  split; [exact Herr|]. split; [exact Hform|exact Hurl].
Defined.

(** An entry stored under the raw key [host] outlives [Sign]: the value of
    the canonical key is replaced, the raw entry is not, both are listed as
    signed headers, and the one line [host:] of the canonical header block
    carries the value of the entry that the loop of [canonicalHeaders]
    visits last, here the raw one and not the [Host] field. *)
Lemma Sign_leaves_a_raw_host_entry :
  map_get "Host"
    (req_Header (fst (test_Sign test_signer "20150830T123600Z" raw_host_request test_sha256)))
  = Some ["examplebucket.s3.amazonaws.com"]
  /\ map_get "host"
       (req_Header (fst (test_Sign test_signer "20150830T123600Z" raw_host_request
                                   test_sha256)))
     = Some ["evil.example.com"]
  /\ signedHeaders (U := test_tables)
       (req_Header (snd (Sign_prepare (U := test_tables) test_time_Parse test_time_Format
                           test_identity test_identity test_Values_Encode test_signer
                           "20150830T123600Z" raw_host_request test_sha256)))
     = "host;host;x-amz-content-sha256;x-amz-date"
  /\ fst (canonicalHeaders (U := test_tables)
            (req_Header (snd (Sign_prepare (U := test_tables) test_time_Parse
                                test_time_Format test_identity test_identity
                                test_Values_Encode test_signer "20150830T123600Z"
                                raw_host_request test_sha256))))
     = ("host:evil.example.com" ++ LF
        ++ "x-amz-content-sha256:" ++ test_sha256 ++ LF
        ++ "x-amz-date:20150830T123600Z" ++ LF)%string.
Proof. repeat split; vm_compute; reflexivity. Qed.
